(** * Marvel Clash tower defense: simulation core

    A shallow embedding of the simulation core of the game: the reusable
    object pool ([ObjectPool.ts]), the targeting resolver
    ([TargetingSystem.ts]), the session store with its tick driver
    ([useTowerDefense]), the card economy ([useCards.tsx]) and the armor
    helpers of [enemyData.ts].

    Numbers.  A JavaScript [number] is modelled as an exact rational [Q]:
    the statements below depend on the order and the field laws only, not
    on rounding.  [Math.sqrt] is not a rational function; it is a parameter
    of every definition that measures a Euclidean distance, so the results
    hold for any implementation of it.  The one function whose behaviour
    hinges on IEEE 754 special values (division by zero in the intercept
    solve) is embedded over binary64 floats instead.

    Nondeterminism.  [Date.now()] and [Math.random()] are read from an
    explicit environment record passed to each operation. *)

From Stdlib Require Import ZArith QArith Qround Qminmax Lia Lqa Bool List String.
From Stdlib Require Import Floats.PrimFloat.
From stdpp Require Import gmap strings.

Import ListNotations.
Local Open Scope Z_scope.

(** ** Reusable object pool ([ObjectPool.ts])

    Pooled objects are compared by reference ([Set<T>]), so an object is
    modelled by its reference.  The [factory] callback is a parameter: its
    [n]-th call returns the reference [factory n]. *)

Definition ref := positive.

Record ObjectPool := mkPool {
  available : list ref;
  inUse : gset ref;
  maxSize : Z;
  created : nat
}.

(** [for (let i = 0; i < Math.min(10, maxSize); i++) available.push(factory())] *)
Fixpoint prepopulate (factory : nat -> ref) (n : nat) (made : nat) : list ref :=
  match n with
  | O => []
  | S n' => factory made :: prepopulate factory n' (S made)
  end.

Definition newPool (factory : nat -> ref) (maxSize : Z) : ObjectPool :=
  let n := Z.to_nat (Z.min 10 maxSize) in
  {| available := prepopulate factory n 0;
     inUse := ∅;
     maxSize := maxSize;
     created := n |}.

(** [Array.prototype.pop]: the last element and the rest. *)
Definition pop (l : list ref) : option (ref * list ref) :=
  match rev l with
  | [] => None
  | x :: r => Some (x, rev r)
  end.

Definition acquire (factory : nat -> ref) (p : ObjectPool) : ref * ObjectPool :=
  match pop (available p) with
  | Some (obj, rest) =>
      (obj, {| available := rest; inUse := {[obj]} ∪ inUse p;
               maxSize := maxSize p; created := created p |})
  | None =>
      let obj := factory (created p) in
      (obj, {| available := available p; inUse := {[obj]} ∪ inUse p;
               maxSize := maxSize p; created := S (created p) |})
  end.

Definition release (obj : ref) (p : ObjectPool) : ObjectPool :=
  if decide (obj ∈ inUse p) then
    let inUse' := inUse p ∖ {[obj]} in
    if Z.of_nat (length (available p)) <? maxSize p then
      {| available := available p ++ [obj]; inUse := inUse';
         maxSize := maxSize p; created := created p |}
    else
      {| available := available p; inUse := inUse';
         maxSize := maxSize p; created := created p |}
  else p.

(** [getStats().total] *)
Definition total (p : ObjectPool) : Z :=
  Z.of_nat (length (available p)) + Z.of_nat (size (inUse p)).

Inductive PoolOp := Acquire | Release (obj : ref).

Definition runOp (factory : nat -> ref) (p : ObjectPool) (op : PoolOp) : ObjectPool :=
  match op with
  | Acquire => snd (acquire factory p)
  | Release obj => release obj p
  end.

Definition runOps (factory : nat -> ref) (ops : list PoolOp) (p : ObjectPool) : ObjectPool :=
  fold_left (runOp factory) ops p.

(** The factories of the repository build a new object literal on each
    call: every call returns a reference never seen before. *)
Definition freshFactory (n : nat) : ref := Pos.of_succ_nat n.

(** ** Numbers

    Comparison operators of the source, as boolean functions on [Q]. *)

Local Open Scope Q_scope.

(** [x < y] *)
Definition Qltb (x y : Q) : bool := negb (Qle_bool y x).

(** [x >= y] is [Qle_bool y x]; [x > y] is [Qltb y x]. *)

(** Rounding toward zero, as the quotient of the [%] operator does. *)
Definition Qtrunc (x : Q) : Z :=
  if Qle_bool 0 x then Qfloor x else Qceiling x.

(** [x % m]: the remainder takes the sign of the dividend. *)
Definition js_rem (x m : Q) : Q := x - m * inject_Z (Qtrunc (x / m)).

(** [Math.min], [Math.max] on numbers. *)
Definition Math_min (x y : Q) : Q := if Qle_bool x y then x else y.
Definition Math_max (x y : Q) : Q := if Qle_bool x y then y else x.

(** [v || d] on an optional number: [undefined] and [0] are falsy. *)
Definition or_default (v : option Q) (d : Q) : Q :=
  match v with
  | Some q => if Qeq_bool q 0 then d else q
  | None => d
  end.

(** Truthiness of a [string | null]: [null] and the empty string are falsy. *)
Definition truthy (s : option string) : bool :=
  match s with
  | Some i => negb (String.eqb i EmptyString)
  | None => false
  end.

(** A square root on rationals that is exact on squares of rationals; it
    stands for [Math.sqrt] in the concrete runs, whose radicands are all
    squares. *)
Definition Qsqrt (q : Q) : Q :=
  Z.sqrt (Qnum q * Zpos (Qden q)) # Qden q.

(** ** Vectors ([THREE.Vector3]) *)

Record Vector3 := mkVector3 { vx : Q; vy : Q; vz : Q }.

Definition distanceToSquared (a b : Vector3) : Q :=
  let dx := vx a - vx b in
  let dy := vy a - vy b in
  let dz := vz a - vz b in
  dx * dx + dy * dy + dz * dz.

(** ** Targeting resolver ([TargetingSystem.ts]) *)

Record TargetableEntity := mkTargetable {
  tg_id : string;
  tg_position : Vector3;
  tg_health : option Q;
  tg_maxHealth : option Q
}.

Record TargetingEntity := mkTargeting {
  te_id : string;
  te_position : Vector3;
  te_range : Q
}.

Inductive TargetingStrategy := closest | weakest | strongest | first | last.

Record TargetingSystem := mkTargetingSystem {
  targetingStrategy : TargetingStrategy;
  targetCache : gmap string (option string);
  lastUpdateTime : Q;
  cacheUpdateInterval : Q
}.

(** [new TargetingSystem(strategy)] *)
Definition newTargetingSystem (strategy : TargetingStrategy) : TargetingSystem :=
  {| targetingStrategy := strategy; targetCache := ∅;
     lastUpdateTime := 0; cacheUpdateInterval := 100 |}.

Section Targeting.

(** [Math.sqrt] *)
Variable sqrt : Q -> Q.

(** [pos1.distanceTo(pos2)] *)
Definition distanceTo (a b : Vector3) : Q := sqrt (distanceToSquared a b).

Definition getDistance (pos1 pos2 : Vector3) : Q := distanceTo pos1 pos2.

Definition isInRange (entity : TargetingEntity) (target : TargetableEntity) : bool :=
  let distance := getDistance (te_position entity) (tg_position target) in
  Qle_bool distance (te_range entity).

(** The body of the [forEach] of [findClosestTarget].  The accumulator is
    the pair [closest], [minDistance]; [None] is the initial pair
    [null], [Infinity], below which every distance lies. *)
Definition closestStep (entity : TargetingEntity)
    (acc : option (TargetableEntity * Q)) (target : TargetableEntity)
    : option (TargetableEntity * Q) :=
  let distance := getDistance (te_position entity) (tg_position target) in
  match acc with
  | None => Some (target, distance)
  | Some (_, minDistance) =>
      if Qltb distance minDistance then Some (target, distance) else acc
  end.

Definition findClosestTarget (entity : TargetingEntity)
    (targets : list TargetableEntity) : option TargetableEntity :=
  option_map fst (fold_left (closestStep entity) targets None).

Definition weakestStep (acc : option (TargetableEntity * Q))
    (target : TargetableEntity) : option (TargetableEntity * Q) :=
  match tg_health target, acc with
  | None, _ => acc
  | Some h, None => Some (target, h)
  | Some h, Some (_, minHealth) =>
      if Qltb h minHealth then Some (target, h) else acc
  end.

(** [weakest || targets[0]] *)
Definition findWeakestTarget (targets : list TargetableEntity)
    : option TargetableEntity :=
  match fold_left weakestStep targets None with
  | Some (t, _) => Some t
  | None => hd_error targets
  end.

Definition strongestStep (acc : option TargetableEntity * Q)
    (target : TargetableEntity) : option TargetableEntity * Q :=
  match tg_health target with
  | None => acc
  | Some h => if Qltb (snd acc) h then (Some target, h) else acc
  end.

Definition findStrongestTarget (targets : list TargetableEntity)
    : option TargetableEntity :=
  match fst (fold_left strongestStep targets (None, 0)) with
  | Some t => Some t
  | None => hd_error targets
  end.

Definition setCache (key : string) (v : option string) (ts : TargetingSystem)
    : TargetingSystem :=
  {| targetingStrategy := targetingStrategy ts;
     targetCache := <[key := v]> (targetCache ts);
     lastUpdateTime := lastUpdateTime ts;
     cacheUpdateInterval := cacheUpdateInterval ts |}.

Definition setLastUpdateTime (t : Q) (ts : TargetingSystem) : TargetingSystem :=
  {| targetingStrategy := targetingStrategy ts;
     targetCache := targetCache ts;
     lastUpdateTime := t;
     cacheUpdateInterval := cacheUpdateInterval ts |}.

(** The first block of [findBestTarget]: the memoized id, when the memo
    is recent, names a target that is present and in range. *)
Definition cachedResult (now : Q) (entity : TargetingEntity)
    (potentialTargets : list TargetableEntity) (ts : TargetingSystem)
    : option string :=
  if Qltb (now - lastUpdateTime ts) (cacheUpdateInterval ts) then
    match targetCache ts !! te_id entity with
    | Some cachedTarget =>
        if truthy cachedTarget then
          match List.find (fun t => bool_decide (Some (tg_id t) = cachedTarget))
                          potentialTargets with
          | Some target =>
              if isInRange entity target then cachedTarget else None
          | None => None
          end
        else None
    | None => None
    end
  else None.

Definition applyStrategy (entity : TargetingEntity)
    (targetsInRange : list TargetableEntity) (s : TargetingStrategy)
    : option TargetableEntity :=
  match s with
  | closest => findClosestTarget entity targetsInRange
  | weakest => findWeakestTarget targetsInRange
  | strongest => findStrongestTarget targetsInRange
  | first => hd_error targetsInRange
  | last => List.last (List.map Some targetsInRange) None
  end.

(** [findBestTarget]; [now] is the value of [Date.now()]. *)
Definition findBestTarget (now : Q) (entity : TargetingEntity)
    (potentialTargets : list TargetableEntity) (ts : TargetingSystem)
    : option string * TargetingSystem :=
  let cacheKey := te_id entity in
  match cachedResult now entity potentialTargets ts with
  | Some cachedTarget => (Some cachedTarget, ts)
  | None =>
      let targetsInRange := List.filter (isInRange entity) potentialTargets in
      if (length targetsInRange =? 0)%nat then
        (None, setCache cacheKey None ts)
      else
        let bestTarget := applyStrategy entity targetsInRange (targetingStrategy ts) in
        let result := option_map tg_id bestTarget in
        let ts1 := setCache cacheKey result ts in
        let ts2 :=
          if Qle_bool (cacheUpdateInterval ts1) (now - lastUpdateTime ts1)
          then setLastUpdateTime now ts1 else ts1 in
        (result, ts2)
  end.

End Targeting.

(** ** Session store ([useTowerDefense]) *)

Inductive GamePhase := menu | playing | paused | ended.

Definition GamePhase_eqb (a b : GamePhase) : bool :=
  match a, b with
  | menu, menu | playing, playing | paused, paused | ended, ended => true
  | _, _ => false
  end.

Inductive EnemyType := normal | fast | heavy | boss.

Inductive ParticleType := explosion | hit | death.

Module Tower.
Record t := mk {
  id : string;
  position : Vector3;
  type : string;
  level : Q;
  damage : Q;
  range : Q;
  fireRate : Q;
  lastFired : Q;
  canFire : bool;
  currentTargetId : option string;
  showRange : bool
}.
End Tower.

Module Enemy.
Record t := mk {
  id : string;
  position : Vector3;
  type : EnemyType;
  health : Q;
  maxHealth : Q;
  speed : Q;
  pathProgress : Q;
  reward : Q
}.
End Enemy.

Module LaserBeam.
Record t := mk {
  id : string;
  start : Vector3;
  end_ : Vector3;
  color : string;
  damage : Q;
  lifetime : Q
}.
End LaserBeam.

Module ParticleEffect.
Record t := mk {
  id : string;
  position : Vector3;
  type : ParticleType;
  color : string;
  lifetime : Q
}.
End ParticleEffect.

(** The fields of the store object.  [set] replaces this object by a fresh
    merged copy, so a snapshot taken with [get()] keeps the old values. *)
Record TowerDefenseState := mkTD {
  gamePhase : GamePhase;
  currentWave : Q;
  totalWaves : Q;
  lives : Q;
  score : Q;
  money : Q;
  gameTime : Q;
  waveProgress : Q;
  towers : list Tower.t;
  enemies : list Enemy.t;
  laserBeams : list LaserBeam.t;
  particleEffects : list ParticleEffect.t;
  enemiesKilled : Q;
  accuracy : Q;
  totalShots : Q;
  hitShots : Q
}.

(** ** Card store ([useCards.tsx]) *)

Inductive CardType := tower_card | spell_card | upgrade_card.

Inductive Rarity := common | uncommon | rare | epic | legendary.

Record CardStats := mkStats {
  st_damage : option Q;
  st_range : option Q;
  st_fireRate : option Q;
  st_areaOfEffect : option Q
}.

Module Card.
Record t := mk {
  id : string;
  name : string;
  description : string;
  type : CardType;
  cost : Q;
  stats : option CardStats;
  effect : option string;
  rarity : Rarity
}.
End Card.

Record CardsState := mkCards {
  hand : list Card.t;
  deck : list Card.t;
  discardPile : list Card.t;
  maxHandSize : Q
}.

(** ** The world: both stores and the objects they point to

    The pools and the targeting system are objects referred to from the
    store; they are mutated in place, so every snapshot of the store sees
    their current state.  They are kept beside the store's own fields. *)
Record World := mkWorld {
  td : TowerDefenseState;
  laserPool : ObjectPool;
  particlePool : ObjectPool;
  targetingSystem : TargetingSystem;
  cards : CardsState
}.

Definition withTD (f : TowerDefenseState -> TowerDefenseState) (w : World) : World :=
  {| td := f (td w); laserPool := laserPool w; particlePool := particlePool w;
     targetingSystem := targetingSystem w; cards := cards w |}.

Definition withCards (f : CardsState -> CardsState) (w : World) : World :=
  {| td := td w; laserPool := laserPool w; particlePool := particlePool w;
     targetingSystem := targetingSystem w; cards := f (cards w) |}.

Definition withTargeting (ts : TargetingSystem) (w : World) : World :=
  {| td := td w; laserPool := laserPool w; particlePool := particlePool w;
     targetingSystem := ts; cards := cards w |}.

Definition withLaserPool (p : ObjectPool) (w : World) : World :=
  {| td := td w; laserPool := p; particlePool := particlePool w;
     targetingSystem := targetingSystem w; cards := cards w |}.

Definition withParticlePool (p : ObjectPool) (w : World) : World :=
  {| td := td w; laserPool := laserPool w; particlePool := p;
     targetingSystem := targetingSystem w; cards := cards w |}.

(** Field updates of the store, one per field that [set] is called with. *)
Definition set_gamePhase (v : GamePhase) (s : TowerDefenseState) : TowerDefenseState :=
  mkTD v (currentWave s) (totalWaves s) (lives s) (score s) (money s)
    (gameTime s) (waveProgress s) (towers s) (enemies s) (laserBeams s)
    (particleEffects s) (enemiesKilled s) (accuracy s) (totalShots s)
    (hitShots s).
Definition set_currentWave (v : Q) (s : TowerDefenseState) : TowerDefenseState :=
  mkTD (gamePhase s) v (totalWaves s) (lives s) (score s) (money s)
    (gameTime s) (waveProgress s) (towers s) (enemies s) (laserBeams s)
    (particleEffects s) (enemiesKilled s) (accuracy s) (totalShots s)
    (hitShots s).
Definition set_lives (v : Q) (s : TowerDefenseState) : TowerDefenseState :=
  mkTD (gamePhase s) (currentWave s) (totalWaves s) v (score s) (money s)
    (gameTime s) (waveProgress s) (towers s) (enemies s) (laserBeams s)
    (particleEffects s) (enemiesKilled s) (accuracy s) (totalShots s)
    (hitShots s).
Definition set_score (v : Q) (s : TowerDefenseState) : TowerDefenseState :=
  mkTD (gamePhase s) (currentWave s) (totalWaves s) (lives s) v (money s)
    (gameTime s) (waveProgress s) (towers s) (enemies s) (laserBeams s)
    (particleEffects s) (enemiesKilled s) (accuracy s) (totalShots s)
    (hitShots s).
Definition set_money (v : Q) (s : TowerDefenseState) : TowerDefenseState :=
  mkTD (gamePhase s) (currentWave s) (totalWaves s) (lives s) (score s) v
    (gameTime s) (waveProgress s) (towers s) (enemies s) (laserBeams s)
    (particleEffects s) (enemiesKilled s) (accuracy s) (totalShots s)
    (hitShots s).
Definition set_gameTime (v : Q) (s : TowerDefenseState) : TowerDefenseState :=
  mkTD (gamePhase s) (currentWave s) (totalWaves s) (lives s) (score s)
    (money s) v (waveProgress s) (towers s) (enemies s) (laserBeams s)
    (particleEffects s) (enemiesKilled s) (accuracy s) (totalShots s)
    (hitShots s).
Definition set_waveProgress (v : Q) (s : TowerDefenseState) : TowerDefenseState :=
  mkTD (gamePhase s) (currentWave s) (totalWaves s) (lives s) (score s)
    (money s) (gameTime s) v (towers s) (enemies s) (laserBeams s)
    (particleEffects s) (enemiesKilled s) (accuracy s) (totalShots s)
    (hitShots s).
Definition set_towers (v : list Tower.t) (s : TowerDefenseState) : TowerDefenseState :=
  mkTD (gamePhase s) (currentWave s) (totalWaves s) (lives s) (score s)
    (money s) (gameTime s) (waveProgress s) v (enemies s) (laserBeams s)
    (particleEffects s) (enemiesKilled s) (accuracy s) (totalShots s)
    (hitShots s).
Definition set_enemies (v : list Enemy.t) (s : TowerDefenseState) : TowerDefenseState :=
  mkTD (gamePhase s) (currentWave s) (totalWaves s) (lives s) (score s)
    (money s) (gameTime s) (waveProgress s) (towers s) v (laserBeams s)
    (particleEffects s) (enemiesKilled s) (accuracy s) (totalShots s)
    (hitShots s).
Definition set_laserBeams (v : list LaserBeam.t) (s : TowerDefenseState) : TowerDefenseState :=
  mkTD (gamePhase s) (currentWave s) (totalWaves s) (lives s) (score s)
    (money s) (gameTime s) (waveProgress s) (towers s) (enemies s) v
    (particleEffects s) (enemiesKilled s) (accuracy s) (totalShots s)
    (hitShots s).
Definition set_particleEffects (v : list ParticleEffect.t) (s : TowerDefenseState) : TowerDefenseState :=
  mkTD (gamePhase s) (currentWave s) (totalWaves s) (lives s) (score s)
    (money s) (gameTime s) (waveProgress s) (towers s) (enemies s)
    (laserBeams s) v (enemiesKilled s) (accuracy s) (totalShots s)
    (hitShots s).
Definition set_enemiesKilled (v : Q) (s : TowerDefenseState) : TowerDefenseState :=
  mkTD (gamePhase s) (currentWave s) (totalWaves s) (lives s) (score s)
    (money s) (gameTime s) (waveProgress s) (towers s) (enemies s)
    (laserBeams s) (particleEffects s) v (accuracy s) (totalShots s)
    (hitShots s).
Definition set_accuracy (v : Q) (s : TowerDefenseState) : TowerDefenseState :=
  mkTD (gamePhase s) (currentWave s) (totalWaves s) (lives s) (score s)
    (money s) (gameTime s) (waveProgress s) (towers s) (enemies s)
    (laserBeams s) (particleEffects s) (enemiesKilled s) v (totalShots s)
    (hitShots s).
Definition set_totalShots (v : Q) (s : TowerDefenseState) : TowerDefenseState :=
  mkTD (gamePhase s) (currentWave s) (totalWaves s) (lives s) (score s)
    (money s) (gameTime s) (waveProgress s) (towers s) (enemies s)
    (laserBeams s) (particleEffects s) (enemiesKilled s) (accuracy s) v
    (hitShots s).
Definition set_hitShots (v : Q) (s : TowerDefenseState) : TowerDefenseState :=
  mkTD (gamePhase s) (currentWave s) (totalWaves s) (lives s) (score s)
    (money s) (gameTime s) (waveProgress s) (towers s) (enemies s)
    (laserBeams s) (particleEffects s) (enemiesKilled s) (accuracy s)
    (totalShots s) v.

Definition set_hand (v : list Card.t) (c : CardsState) :=
  {| hand := v; deck := deck c; discardPile := discardPile c;
     maxHandSize := maxHandSize c |}.
Definition set_deck (v : list Card.t) (c : CardsState) :=
  {| hand := hand c; deck := v; discardPile := discardPile c;
     maxHandSize := maxHandSize c |}.
Definition set_discardPile (v : list Card.t) (c : CardsState) :=
  {| hand := hand c; deck := deck c; discardPile := v;
     maxHandSize := maxHandSize c |}.

(** The values of [Date.now()] and [Math.random()] read during one tick:
    the spawn roll, the identifier given to a spawned enemy, and for the
    tower at index [i] of the list the clock read by [findBestTarget] and
    the identifiers given to its laser beam and to the particle of its
    hit. *)
Record TickEnv := mkTickEnv {
  spawnRoll : Q;
  spawnId : string;
  nowAt : nat -> Q;
  laserId : nat -> string;
  particleId : nat -> string
}.

Definition initialTD : TowerDefenseState :=
  {| gamePhase := menu; currentWave := 1; totalWaves := 10; lives := 20;
     score := 0; money := 100; gameTime := 0; waveProgress := 0;
     towers := []; enemies := []; laserBeams := []; particleEffects := [];
     enemiesKilled := 0; accuracy := 0; totalShots := 0; hitShots := 0 |}.

Definition initialCards : CardsState :=
  {| hand := []; deck := []; discardPile := []; maxHandSize := 7 |}.

Definition initialWorld : World :=
  {| td := initialTD;
     laserPool := newPool freshFactory 100;
     particlePool := newPool freshFactory 200;
     targetingSystem := newTargetingSystem closest;
     cards := initialCards |}.

Definition setGamePhase (phase : GamePhase) (w : World) : World :=
  withTD (set_gamePhase phase) w.

Definition initializeGame (w : World) : World :=
  withTD (fun s =>
    {| gamePhase := gamePhase s; currentWave := 1; totalWaves := totalWaves s;
       lives := 20; score := 0; money := 100; gameTime := 0; waveProgress := 0;
       towers := []; enemies := []; laserBeams := []; particleEffects := [];
       enemiesKilled := 0; accuracy := 0; totalShots := 0; hitShots := 0 |}) w.

Definition startGame (w : World) : World := withTD (set_gamePhase playing) w.
Definition pauseGame (w : World) : World := withTD (set_gamePhase paused) w.
Definition resumeGame (w : World) : World := withTD (set_gamePhase playing) w.
Definition restartGame (w : World) : World :=
  withTD (set_gamePhase playing) (initializeGame w).

Definition nextWave (w : World) : World :=
  withTD (fun s =>
    set_money (money s + 50) (set_waveProgress 0 (set_currentWave (currentWave s + 1) s))) w.

(** [placeTower]; [newId] is the identifier built from the clock and the
    random source. *)
Definition placeTower (newId : string) (position : Vector3) (type : string)
    (w : World) : World :=
  let money0 := money (td w) in
  let cost := 50 in
  if Qle_bool cost money0 then
    let newTower :=
      {| Tower.id := newId; Tower.position := position; Tower.type := type;
         Tower.level := 1; Tower.damage := 25; Tower.range := 8;
         Tower.fireRate := 2; Tower.lastFired := 0; Tower.canFire := true;
         Tower.currentTargetId := None; Tower.showRange := false |} in
    withTD (fun s => set_money (money s - cost) (set_towers (towers s ++ [newTower]) s)) w
  else w.

Definition enemyConfig (type : EnemyType) : Q * Q * Q :=
  match type with
  | normal => (100, 0.02, 10)
  | fast => (60, 0.04, 15)
  | heavy => (200, 0.01, 25)
  | boss => (500, 0.015, 100)
  end.

Definition spawnEnemy (newId : string) (type : EnemyType) (w : World) : World :=
  let '(health, speed, reward) := enemyConfig type in
  let newEnemy :=
    {| Enemy.id := newId; Enemy.position := mkVector3 0 1 (-25);
       Enemy.type := type; Enemy.health := health; Enemy.maxHealth := health;
       Enemy.speed := speed; Enemy.pathProgress := 0; Enemy.reward := reward |} in
  withTD (fun s => set_enemies (enemies s ++ [newEnemy]) s) w.

Definition removeEnemy (enemyId : string) (w : World) : World :=
  withTD (fun s =>
    set_enemies (List.filter (fun e => negb (String.eqb (Enemy.id e) enemyId)) (enemies s)) s) w.

Definition updateTowerTarget (towerId : string) (targetId : option string)
    (w : World) : World :=
  withTD (fun s =>
    set_towers (List.map (fun tw =>
      if String.eqb (Tower.id tw) towerId then
        {| Tower.id := Tower.id tw; Tower.position := Tower.position tw;
           Tower.type := Tower.type tw; Tower.level := Tower.level tw;
           Tower.damage := Tower.damage tw; Tower.range := Tower.range tw;
           Tower.fireRate := Tower.fireRate tw; Tower.lastFired := Tower.lastFired tw;
           Tower.canFire := Tower.canFire tw; Tower.currentTargetId := targetId;
           Tower.showRange := Tower.showRange tw |}
      else tw) (towers s)) s) w.

(** [addParticleEffect]: the record leased from the pool has every field
    overwritten by [Object.assign], so the particle is the given effect
    with the new identifier. *)
Definition addParticleEffect (newId : string) (position : Vector3)
    (type : ParticleType) (color : string) (lifetime : Q) (w : World) : World :=
  let '(_, pool') := acquire freshFactory (particlePool w) in
  let particle :=
    {| ParticleEffect.id := newId; ParticleEffect.position := position;
       ParticleEffect.type := type; ParticleEffect.color := color;
       ParticleEffect.lifetime := lifetime |} in
  withTD (fun s => set_particleEffects (particleEffects s ++ [particle]) s)
         (withParticlePool pool' w).

Definition setHealth (newHealth : Q) (e : Enemy.t) : Enemy.t :=
  {| Enemy.id := Enemy.id e; Enemy.position := Enemy.position e;
     Enemy.type := Enemy.type e; Enemy.health := newHealth;
     Enemy.maxHealth := Enemy.maxHealth e; Enemy.speed := Enemy.speed e;
     Enemy.pathProgress := Enemy.pathProgress e; Enemy.reward := Enemy.reward e |}.

(** [damageEnemy]; [pid] is the identifier of the particle it adds. *)
Definition damageEnemy (pid : string) (enemyId : string) (damage : Q)
    (w : World) : World :=
  match List.find (fun e => String.eqb (Enemy.id e) enemyId) (enemies (td w)) with
  | None => w
  | Some enemy =>
      let newHealth := Math_max 0 (Enemy.health enemy - damage) in
      if Qle_bool newHealth 0 then
        let w1 := removeEnemy enemyId w in
        let w2 := addParticleEffect pid (Enemy.position enemy) death "#ff4444" 1 w1 in
        withTD (fun s =>
          set_hitShots (hitShots s + 1)
            (set_enemiesKilled (enemiesKilled s + 1)
              (set_money (money s + Enemy.reward enemy)
                (set_score (score s + Enemy.reward enemy) s)))) w2
      else
        let w1 :=
          withTD (fun s =>
            set_hitShots (hitShots s + 1)
              (set_enemies (List.map (fun e =>
                 if String.eqb (Enemy.id e) enemyId then setHealth newHealth e else e)
                 (enemies s)) s)) w in
        addParticleEffect pid (Enemy.position enemy) hit "#ffaa00" 0.5 w1
  end.

(** [fireLaser]; the leased beam has every field overwritten. *)
Definition fireLaser (lid pid : string) (towerId targetId : string)
    (w : World) : World :=
  match List.find (fun t => String.eqb (Tower.id t) towerId) (towers (td w)),
        List.find (fun e => String.eqb (Enemy.id e) targetId) (enemies (td w)) with
  | Some tw, Some target =>
      let '(_, pool') := acquire freshFactory (laserPool w) in
      let p := Tower.position tw in
      let laser :=
        {| LaserBeam.id := lid;
           LaserBeam.start := mkVector3 (vx p) (vy p + 1.5) (vz p);
           LaserBeam.end_ := Enemy.position target;
           LaserBeam.color := "#ff0000";
           LaserBeam.damage := Tower.damage tw;
           LaserBeam.lifetime := 0.1 |} in
      let w1 :=
        withTD (fun s =>
          set_totalShots (totalShots s + 1) (set_laserBeams (laserBeams s ++ [laser]) s))
          (withLaserPool pool' w) in
      damageEnemy pid targetId (Tower.damage tw) w1
  | _, _ => w
  end.

(** [x >= 1 / d].  In the source [1 / 0] is [Infinity], which no number
    reaches; [Q] has no infinity, so that case is written out. *)
Definition reachesPeriod (x d : Q) : bool :=
  if Qeq_bool d 0 then false else Qle_bool (1 / d) x.

Definition entityOfTower (tw : Tower.t) : TargetingEntity :=
  {| te_id := Tower.id tw; te_position := Tower.position tw; te_range := Tower.range tw |}.

Definition targetOfEnemy (e : Enemy.t) : TargetableEntity :=
  {| tg_id := Enemy.id e; tg_position := Enemy.position e;
     tg_health := Some (Enemy.health e); tg_maxHealth := Some (Enemy.maxHealth e) |}.

Definition decayLaser (deltaTime : Q) (l : LaserBeam.t) : LaserBeam.t :=
  {| LaserBeam.id := LaserBeam.id l; LaserBeam.start := LaserBeam.start l;
     LaserBeam.end_ := LaserBeam.end_ l; LaserBeam.color := LaserBeam.color l;
     LaserBeam.damage := LaserBeam.damage l;
     LaserBeam.lifetime := LaserBeam.lifetime l - deltaTime |}.

Definition decayParticle (deltaTime : Q) (p : ParticleEffect.t) : ParticleEffect.t :=
  {| ParticleEffect.id := ParticleEffect.id p;
     ParticleEffect.position := ParticleEffect.position p;
     ParticleEffect.type := ParticleEffect.type p;
     ParticleEffect.color := ParticleEffect.color p;
     ParticleEffect.lifetime := ParticleEffect.lifetime p - deltaTime |}.

(** The callback of [state.enemies.map] in [updateGame]: [None] is the
    [null] returned for an enemy that reached the end, after [set] has
    decremented the lives of the store. *)
Definition updateEnemy (deltaTime : Q) (enemy : Enemy.t) (w : World)
    : option Enemy.t * World :=
  let newProgress := Enemy.pathProgress enemy + Enemy.speed enemy * deltaTime in
  if Qle_bool 1 newProgress then
    (None, withTD (fun s => set_lives (lives s - 1) s) w)
  else
    let z := -25 + newProgress * 50 in
    let p := Enemy.position enemy in
    (Some {| Enemy.id := Enemy.id enemy;
             Enemy.position := mkVector3 (vx p) (vy p) z;
             Enemy.type := Enemy.type enemy; Enemy.health := Enemy.health enemy;
             Enemy.maxHealth := Enemy.maxHealth enemy; Enemy.speed := Enemy.speed enemy;
             Enemy.pathProgress := newProgress; Enemy.reward := Enemy.reward enemy |},
     w).

(** [state.enemies.map(...).filter(Boolean)] *)
Fixpoint updateEnemies (deltaTime : Q) (es : list Enemy.t) (w : World)
    : list Enemy.t * World :=
  match es with
  | [] => ([], w)
  | enemy :: rest =>
      let '(r, w1) := updateEnemy deltaTime enemy w in
      let '(rs, w2) := updateEnemies deltaTime rest w1 in
      (match r with Some e => e :: rs | None => rs end, w2)
  end.

Section Game.

(** [Math.sqrt] *)
Variable sqrt : Q -> Q.

(** The callback of [state.towers.map] in [updateGame], for the tower at
    index [i]; [state] is the snapshot taken when the tick began. *)
Definition updateTower (env : TickEnv) (newGameTime : Q)
    (state : TowerDefenseState) (i : nat) (tw : Tower.t) (w : World)
    : Tower.t * World :=
  let canFire := reachesPeriod (newGameTime - Tower.lastFired tw) (Tower.fireRate tw) in
  let currentTargetId := Tower.currentTargetId tw in
  let currentTargetId :=
    if truthy currentTargetId then
      match List.find (fun e => bool_decide (Some (Enemy.id e) = currentTargetId))
                      (enemies state) with
      | None => None
      | Some target =>
          if Qltb (Tower.range tw)
                  (getDistance sqrt (Tower.position tw) (Enemy.position target))
          then None else currentTargetId
      end
    else currentTargetId in
  let '(currentTargetId, w1) :=
    if negb (truthy currentTargetId) then
      let '(r, ts') :=
        findBestTarget sqrt (nowAt env i) (entityOfTower tw)
          (List.map targetOfEnemy (enemies state)) (targetingSystem w) in
      (r, withTargeting ts' w)
    else (currentTargetId, w) in
  match currentTargetId with
  | Some targetId =>
      if canFire && truthy currentTargetId then
        let w2 := fireLaser (laserId env i) (particleId env i) (Tower.id tw) targetId w1 in
        ({| Tower.id := Tower.id tw; Tower.position := Tower.position tw;
            Tower.type := Tower.type tw; Tower.level := Tower.level tw;
            Tower.damage := Tower.damage tw; Tower.range := Tower.range tw;
            Tower.fireRate := Tower.fireRate tw; Tower.lastFired := newGameTime;
            Tower.canFire := false; Tower.currentTargetId := currentTargetId;
            Tower.showRange := Tower.showRange tw |}, w2)
      else
        ({| Tower.id := Tower.id tw; Tower.position := Tower.position tw;
            Tower.type := Tower.type tw; Tower.level := Tower.level tw;
            Tower.damage := Tower.damage tw; Tower.range := Tower.range tw;
            Tower.fireRate := Tower.fireRate tw; Tower.lastFired := Tower.lastFired tw;
            Tower.canFire := canFire; Tower.currentTargetId := currentTargetId;
            Tower.showRange := Tower.showRange tw |}, w1)
  | None =>
      ({| Tower.id := Tower.id tw; Tower.position := Tower.position tw;
          Tower.type := Tower.type tw; Tower.level := Tower.level tw;
          Tower.damage := Tower.damage tw; Tower.range := Tower.range tw;
          Tower.fireRate := Tower.fireRate tw; Tower.lastFired := Tower.lastFired tw;
          Tower.canFire := canFire; Tower.currentTargetId := currentTargetId;
          Tower.showRange := Tower.showRange tw |}, w1)
  end.

Fixpoint updateTowers (env : TickEnv) (newGameTime : Q)
    (state : TowerDefenseState) (i : nat) (tws : list Tower.t) (w : World)
    : list Tower.t * World :=
  match tws with
  | [] => ([], w)
  | tw :: rest =>
      let '(tw', w1) := updateTower env newGameTime state i tw w in
      let '(rest', w2) := updateTowers env newGameTime state (S i) rest w1 in
      (tw' :: rest', w2)
  end.

(** [updateGame(deltaTime)] *)
Definition updateGame (env : TickEnv) (deltaTime : Q) (w : World) : World :=
  let state := td w in
  if negb (GamePhase_eqb (gamePhase state) playing) then w else
  let newGameTime := gameTime state + deltaTime in
  let waveTimeLimit := 30 in
  let newWaveProgress := Math_min (js_rem newGameTime waveTimeLimit / waveTimeLimit) 1 in
  let w1 :=
    if Qltb (spawnRoll env) 0.02 && (length (enemies state) <? 10)%nat
    then spawnEnemy (spawnId env) normal w else w in
  let '(updatedTowers, w2) := updateTowers env newGameTime state 0 (towers state) w1 in
  let '(updatedEnemies, w3) := updateEnemies deltaTime (enemies state) w2 in
  let updatedLasers :=
    List.filter (fun l => Qltb 0 (LaserBeam.lifetime l))
                (List.map (decayLaser deltaTime) (laserBeams state)) in
  let updatedParticles :=
    List.filter (fun p => Qltb 0 (ParticleEffect.lifetime p))
                (List.map (decayParticle deltaTime) (particleEffects state)) in
  let w4 := if Qle_bool (lives state) 0 then withTD (set_gamePhase ended) w3 else w3 in
  let w5 :=
    if Qle_bool 1 newWaveProgress && (length updatedEnemies =? 0)%nat then
      if Qle_bool (totalWaves state) (currentWave state)
      then withTD (set_gamePhase ended) w4 else w4
    else w4 in
  withTD (fun s =>
    set_accuracy (if Qltb 0 (totalShots state)
                  then hitShots state / totalShots state else 0)
      (set_particleEffects updatedParticles
        (set_laserBeams updatedLasers
          (set_enemies updatedEnemies
            (set_towers updatedTowers
              (set_waveProgress newWaveProgress
                (set_gameTime newGameTime s))))))) w5.

(** *** Card store actions ([useCards.tsx]) *)

(** The values read from the clock and the random source while a card
    is played: the identifier of a placed tower and, for the enemy at
    index [i] of the list, the identifier of the particle of its hit. *)
Record PlayEnv := mkPlayEnv {
  placedTowerId : string;
  spellParticleId : nat -> string
}.

Definition lengthQ {A} (l : list A) : Q := inject_Z (Z.of_nat (length l)).

Definition towerPositions : list Vector3 :=
  [ mkVector3 (-5) 0 0; mkVector3 5 0 0; mkVector3 (-5) 0 10;
    mkVector3 5 0 10; mkVector3 (-5) 0 (-10); mkVector3 5 0 (-10) ].

Definition playTowerCard (env : PlayEnv) (card : Card.t) (w : World)
    : bool * World :=
  let towers0 := towers (td w) in
  let availablePositions :=
    List.filter (fun pos =>
      negb (existsb (fun tw => Qltb (distanceTo sqrt (Tower.position tw) pos) 2) towers0))
      towerPositions in
  match availablePositions with
  | [] => (false, w)
  | position :: _ => (true, placeTower (placedTowerId env) position (Card.name card) w)
  end.

Definition statDamage (card : Card.t) : option Q :=
  match Card.stats card with Some s => st_damage s | None => None end.
Definition statRange (card : Card.t) : option Q :=
  match Card.stats card with Some s => st_range s | None => None end.
Definition statFireRate (card : Card.t) : option Q :=
  match Card.stats card with Some s => st_fireRate s | None => None end.

(** [enemies.forEach(enemy => damageEnemy(enemy.id, dmg))] over the list
    read before the loop. *)
Fixpoint damageAll (env : PlayEnv) (dmg : Q) (i : nat) (es : list Enemy.t)
    (w : World) : World :=
  match es with
  | [] => w
  | enemy :: rest =>
      damageAll env dmg (S i) rest
        (damageEnemy (spellParticleId env i) (Enemy.id enemy) dmg w)
  end.

Definition slowEnemy (e : Enemy.t) : Enemy.t :=
  {| Enemy.id := Enemy.id e; Enemy.position := Enemy.position e;
     Enemy.type := Enemy.type e; Enemy.health := Enemy.health e;
     Enemy.maxHealth := Enemy.maxHealth e; Enemy.speed := Enemy.speed e * 0.5;
     Enemy.pathProgress := Enemy.pathProgress e; Enemy.reward := Enemy.reward e |}.

Definition playSpellCard (env : PlayEnv) (card : Card.t) (w : World)
    : bool * World :=
  let enemies0 := enemies (td w) in
  match Card.effect card with
  | Some eff =>
      if String.eqb eff "damage_all" then
        (true, damageAll env (or_default (statDamage card) 50) 0 enemies0 w)
      else if String.eqb eff "slow_all" then
        (true, withTD (fun s => set_enemies (List.map slowEnemy (enemies s)) s) w)
      else (false, w)
  | None => (false, w)
  end.

Definition upgradeTower (card : Card.t) (tw : Tower.t) : Tower.t :=
  {| Tower.id := Tower.id tw; Tower.position := Tower.position tw;
     Tower.type := Tower.type tw; Tower.level := Tower.level tw + 1;
     Tower.damage := Tower.damage tw + or_default (statDamage card) 10;
     Tower.range := Tower.range tw + or_default (statRange card) 1;
     Tower.fireRate := Tower.fireRate tw + or_default (statFireRate card) 0.5;
     Tower.lastFired := Tower.lastFired tw; Tower.canFire := Tower.canFire tw;
     Tower.currentTargetId := Tower.currentTargetId tw;
     Tower.showRange := Tower.showRange tw |}.

Definition playUpgradeCard (card : Card.t) (w : World) : bool * World :=
  match towers (td w) with
  | [] => (false, w)
  | towerToUpgrade :: _ =>
      (true,
       withTD (fun s =>
         set_towers (List.map (fun tw =>
           if String.eqb (Tower.id tw) (Tower.id towerToUpgrade)
           then upgradeTower card tw else tw) (towers s)) s) w)
  end.

Definition removeCardFromHand (cardId : string) (w : World) : World :=
  withCards (fun c =>
    set_hand (List.filter (fun k => negb (String.eqb (Card.id k) cardId)) (hand c)) c) w.

Definition playCard (env : PlayEnv) (cardId : string) (w : World)
    : bool * World :=
  match List.find (fun c => String.eqb (Card.id c) cardId) (hand (cards w)) with
  | None => (false, w)
  | Some card =>
      if Qltb (money (td w)) (Card.cost card) then (false, w) else
      let '(success, w1) :=
        match Card.type card with
        | tower_card => playTowerCard env card w
        | spell_card => playSpellCard env card w
        | upgrade_card => playUpgradeCard card w
        end in
      if success then
        let w2 := removeCardFromHand cardId w1 in
        (true, withTD (fun s => set_money (money s - Card.cost card) s) w2)
      else (false, w1)
  end.

Definition discardCard (cardId : string) (w : World) : World :=
  match List.find (fun c => String.eqb (Card.id c) cardId) (hand (cards w)) with
  | None => w
  | Some card =>
      withCards (fun c =>
        set_discardPile (discardPile (cards w) ++ [card])
          (set_hand (List.filter (fun k => negb (String.eqb (Card.id k) cardId))
                                 (hand (cards w))) c)) w
  end.

(** [shuffleDeck]; [shuffle] is the rearrangement that the sort with a
    random comparator produces. *)
Definition shuffleDeck (shuffle : list Card.t -> list Card.t) (w : World) : World :=
  withCards (fun c => set_deck (shuffle (deck c)) c) w.

Definition addCardToDeck (newId : string) (card : Card.t) (w : World) : World :=
  withCards (fun c =>
    set_deck (deck c ++
      [ {| Card.id := newId; Card.name := Card.name card;
           Card.description := Card.description card; Card.type := Card.type card;
           Card.cost := Card.cost card; Card.stats := Card.stats card;
           Card.effect := Card.effect card; Card.rarity := Card.rarity card |} ]) c) w.

Definition drawCard (shuffle : list Card.t -> list Card.t) (w : World)
    : bool * World :=
  let hand0 := hand (cards w) in
  let deck0 := deck (cards w) in
  let discardPile0 := discardPile (cards w) in
  if Qle_bool (maxHandSize (cards w)) (lengthQ hand0) then (false, w) else
  if Qltb (money (td w)) 10 then (false, w) else
  let refill :=
    match deck0 with
    | [] =>
        match discardPile0 with
        | [] => None
        | _ :: _ =>
            let currentDeck := discardPile0 in
            let w1 := shuffleDeck shuffle w in
            Some (currentDeck,
                  withCards (fun c => set_discardPile [] (set_deck currentDeck c)) w1)
        end
    | _ :: _ => Some (deck0, w)
    end in
  match refill with
  | None => (false, w)
  | Some ([], _) => (false, w)
  | Some (cardToDraw :: newDeck, w1) =>
      let newHand := hand0 ++ [cardToDraw] in
      let w2 := withCards (fun c => set_deck newDeck (set_hand newHand c)) w1 in
      (true, withTD (fun s => set_money (money s - 10) s) w2)
  end.

(** Number of cards over hand, draw pile and discard pile. *)
Definition cardCount (w : World) : nat :=
  (length (hand (cards w)) + length (deck (cards w))
   + length (discardPile (cards w)))%nat.

(** *** Runs of store actions *)

Inductive Action :=
| AStartGame | APauseGame | AResumeGame | ARestartGame | ANextWave
| ASpawnEnemy (newId : string) (type : EnemyType)
| APlaceTower (newId : string) (position : Vector3) (type : string)
| AUpdateGame (env : TickEnv) (deltaTime : Q)
| APlayCard (env : PlayEnv) (cardId : string)
| ADrawCard (shuffle : list Card.t -> list Card.t)
| ADiscardCard (cardId : string)
| AAddCardToDeck (newId : string) (card : Card.t).

Definition step (w : World) (a : Action) : World :=
  match a with
  | AStartGame => startGame w
  | APauseGame => pauseGame w
  | AResumeGame => resumeGame w
  | ARestartGame => restartGame w
  | ANextWave => nextWave w
  | ASpawnEnemy newId type => spawnEnemy newId type w
  | APlaceTower newId position type => placeTower newId position type w
  | AUpdateGame env deltaTime => updateGame env deltaTime w
  | APlayCard env cardId => snd (playCard env cardId w)
  | ADrawCard shuffle => snd (drawCard shuffle w)
  | ADiscardCard cardId => discardCard cardId w
  | AAddCardToDeck newId card => addCardToDeck newId card w
  end.

Definition run (actions : list Action) (w : World) : World :=
  fold_left step actions w.

End Game.

(** ** Armor helpers ([enemyData.ts]) *)

Definition calculateArmorReduction (damage armor : Q) : Q :=
  let reduction := armor / (armor + 100) in
  Math_max 1 (damage * (1 - reduction)).

Inductive DamageType := physical | magical | freeze.

Record Resistances := mkResistances {
  r_physical : option Q;
  r_magical : option Q;
  r_freeze : option Q
}.

Definition resistanceOf (damageType : DamageType) (r : Resistances) : option Q :=
  match damageType with
  | physical => r_physical r
  | magical => r_magical r
  | freeze => r_freeze r
  end.

(** [!resistances || !resistances[damageType]]: a missing table, a missing
    entry and a zero entry all leave the damage as it is. *)
Definition applyResistance (damage : Q) (damageType : DamageType)
    (resistances : option Resistances) : Q :=
  match resistances with
  | None => damage
  | Some r =>
      match resistanceOf damageType r with
      | None => damage
      | Some v => if Qeq_bool v 0 then damage else damage * (1 - v)
      end
  end.


(** ** Lead-target intercept solve over binary64

    [calculateFiringSolution] divides by [2 * a], which is zero when the
    target is as fast as the projectile.  What the function returns then
    is decided by the IEEE 754 rules for [x / 0], [NaN] and [Math.min], so
    this one function is embedded over the binary64 floats of the
    source. *)

Module Float64.

Local Open Scope float_scope.

Record Vector3 := mkVector3 { x : float; y : float; z : float }.

Definition sub (a b : Vector3) : Vector3 :=
  mkVector3 (x a - x b) (y a - y b) (z a - z b).
Definition add (a b : Vector3) : Vector3 :=
  mkVector3 (x a + x b) (y a + y b) (z a + z b).
Definition multiplyScalar (a : Vector3) (s : float) : Vector3 :=
  mkVector3 (x a * s) (y a * s) (z a * s).
Definition lengthSq (a : Vector3) : float := x a * x a + y a * y a + z a * z a.
Definition dot (a b : Vector3) : float := x a * x b + y a * y b + z a * z b.
Definition distanceTo (a b : Vector3) : float := PrimFloat.sqrt (lengthSq (sub a b)).

(** [Math.min] of two numbers: [NaN] if either is [NaN], and [-0] is
    below [+0]. *)
Definition Math_min (a b : float) : float :=
  if is_nan a || is_nan b then nan
  else if a <? b then a
  else if b <? a then b
  else if is_zero a && get_sign a then a else b.

Record MovingTarget := mkMovingTarget {
  position : Vector3;
  velocity : option Vector3
}.

Definition predictTargetPosition (target : MovingTarget) (timeAhead : float)
    : Vector3 :=
  match velocity target with
  | None => position target
  | Some v => add (position target) (multiplyScalar v timeAhead)
  end.

Definition calculateFiringSolution (shooterPos : Vector3)
    (target : MovingTarget) (projectileSpeed : float) : Vector3 :=
  match velocity target with
  | None => position target
  | Some targetVel =>
      let relativePos := sub (position target) shooterPos in
      let a := lengthSq targetVel - projectileSpeed * projectileSpeed in
      let b := 2 * dot targetVel relativePos in
      let c := lengthSq relativePos in
      let discriminant := b * b - 4 * a * c in
      if discriminant <? 0 then position target
      else
        let t1 := (- b + PrimFloat.sqrt discriminant) / (2 * a) in
        let t2 := (- b - PrimFloat.sqrt discriminant) / (2 * a) in
        let t := Math_min t1 t2 in
        if t <? 0 then position target
        else predictTargetPosition target t
  end.

(** A projectile fired at time 0 from [shooterPos] with speed
    [projectileSpeed] meets the target at time [t]. *)
Definition intercepts (shooterPos : Vector3) (target : MovingTarget)
    (projectileSpeed t : float) : bool :=
  distanceTo shooterPos (predictTargetPosition target t) =? projectileSpeed * t.

Definition origin : Vector3 := mkVector3 0 0 0.

(** A target crossing at speed 4 in front of a shooter whose projectiles
    fly at speed 5. *)
Definition crossingTarget : MovingTarget :=
  {| position := mkVector3 3 0 0; velocity := Some (mkVector3 0 4 0) |}.

(** A target as fast as the projectile, closing in on the shooter. *)
Definition equalSpeedTarget : MovingTarget :=
  {| position := mkVector3 3 0 0; velocity := Some (mkVector3 (-3) 4 0) |}.

End Float64.

(** ** Concrete inputs of the runs below *)

Definition defender : TargetingEntity :=
  {| te_id := "T"; te_position := mkVector3 0 0 0; te_range := 8 |}.

Definition farHostile : TargetableEntity :=
  {| tg_id := "far"; tg_position := mkVector3 0 0 5;
     tg_health := Some 100; tg_maxHealth := Some 100 |}.

Definition nearHostile : TargetableEntity :=
  {| tg_id := "near"; tg_position := mkVector3 0 0 3;
     tg_health := Some 100; tg_maxHealth := Some 100 |}.



(** A session with one heavy enemy (health 200; armor 5 in its template). *)
Definition heavyWorld : World := spawnEnemy "h" heavy (startGame initialWorld).

Definition heavyEnemy : Enemy.t :=
  {| Enemy.id := "h"; Enemy.position := mkVector3 0 1 (-25); Enemy.type := heavy;
     Enemy.health := 200; Enemy.maxHealth := 200; Enemy.speed := 0.01;
     Enemy.pathProgress := 0; Enemy.reward := 25 |}.

(** An enemy reaches the end of the path in a tick of length [deltaTime]. *)
Definition breaches (deltaTime : Q) (enemy : Enemy.t) : bool :=
  Qle_bool 1 (Enemy.pathProgress enemy + Enemy.speed enemy * deltaTime).

(** Number of enemies of a list that reach the end in such a tick. *)
Definition breachCount (deltaTime : Q) (es : list Enemy.t) : Q :=
  lengthQ (List.filter (breaches deltaTime) es).

(** A tick environment whose spawn roll fails. *)
Definition quietEnv : TickEnv :=
  {| spawnRoll := 1; spawnId := "e"; nowAt := fun _ => 0;
     laserId := fun _ => "l"%string; particleId := fun _ => "p"%string |}.

Definition almostThere : Enemy.t :=
  {| Enemy.id := "e1"; Enemy.position := mkVector3 0 1 24.95; Enemy.type := normal;
     Enemy.health := 100; Enemy.maxHealth := 100; Enemy.speed := 0.02;
     Enemy.pathProgress := 0.999; Enemy.reward := 10 |}.

(** A session in the playing phase with one life left and one enemy about
    to reach the end of the path. *)
Definition lastLifeWorld : World :=
  withTD (fun s => set_lives 1 (set_enemies [almostThere] s)) (startGame initialWorld).

(** The [basicTower] entry of [cardData], as the card instance "c1". *)
Definition basicTowerCard : Card.t :=
  {| Card.id := "c1"; Card.name := "Basic Tower";
     Card.description := "A simple tower that fires at enemies. Good damage and range for the cost.";
     Card.type := tower_card; Card.cost := 50;
     Card.stats := Some {| st_damage := Some 25; st_range := Some 8;
                           st_fireRate := Some 2; st_areaOfEffect := None |};
     Card.effect := None; Card.rarity := common |}.

Definition playEnv : PlayEnv :=
  {| placedTowerId := "t1"; spellParticleId := fun _ => "p"%string |}.

(** A session with 100 money whose hand holds the basic tower card. *)
Definition towerCardWorld : World :=
  withCards (set_hand [basicTowerCard]) (startGame initialWorld).

(** A session with 5 money, an empty draw pile and one discarded card. *)
Definition brokeWorld : World :=
  withTD (set_money 5) (withCards (set_discardPile [basicTowerCard]) (startGame initialWorld)).


Definition enemyName (n : nat) : string :=
  String (Ascii.ascii_of_nat (65 + n)) EmptyString.

(** Start a session, spawn 21 normal enemies, and let 50 ticks of one
    second pass with no tower on the field. *)
Definition overrun : list Action :=
  AStartGame
  :: List.map (fun n => ASpawnEnemy (enemyName n) normal) (seq 0 21)
  ++ repeat (AUpdateGame quietEnv 1) 50.

(** ** Invariants used in the proofs *)

(** What every pool operation keeps: the free list is within the
    capacity, and no more objects are held than the factory built. *)
Definition poolInv (p : ObjectPool) : Prop :=
  (Z.of_nat (length (available p)) <= maxSize p)%Z
  /\ (total p <= Z.of_nat (created p))%Z.

(** The candidate that [findClosestTarget] holds after a prefix of the
    list has been visited: it is strictly nearer than everything before it
    and at least as near as everything after it. *)
Definition nearestIn (sqrt : Q -> Q) (entity : TargetingEntity)
    (prefix : list TargetableEntity) (acc : option (TargetableEntity * Q)) : Prop :=
  let dist t := getDistance sqrt (te_position entity) (tg_position t) in
  match acc with
  | None => prefix = []
  | Some (t, d) =>
      d = dist t /\
      exists l1 l2, prefix = l1 ++ t :: l2
        /\ (forall t', In t' l1 -> dist t < dist t')
        /\ (forall t', In t' l2 -> dist t <= dist t')
  end.

(** The session fields that no combat step touches. *)
Definition sameSession (w w' : World) : Prop :=
  gamePhase (td w') = gamePhase (td w)
  /\ lives (td w') = lives (td w)
  /\ currentWave (td w') = currentWave (td w)
  /\ totalWaves (td w') = totalWaves (td w)
  /\ waveProgress (td w') = waveProgress (td w)
  /\ cards w' = cards w.


(** * Further operations of the same files *)

(** ** Object pool: [releaseAll], [getStats], [clear] *)

(** The body of the [forEach] of [releaseAll]: an object is kept only
    while the free list is below the capacity. *)
Definition releaseStep (cap : Z) (avail : list ref) (obj : ref) : list ref :=
  if (Z.of_nat (length avail) <? cap)%Z then avail ++ [obj] else avail.

(** [releaseAll]; [order] is the order in which the [inUse] set is
    iterated (its insertion order), which the finite set does not record. *)
Definition releaseAll (order : list ref) (p : ObjectPool) : ObjectPool :=
  {| available := fold_left (releaseStep (maxSize p)) order (available p);
     inUse := ∅;
     maxSize := maxSize p;
     created := created p |}.

Record PoolStats := mkPoolStats {
  stats_available : nat;
  stats_inUse : nat;
  stats_total : nat;
  stats_maxSize : Z
}.

Definition getStats (p : ObjectPool) : PoolStats :=
  {| stats_available := length (available p);
     stats_inUse := size (inUse p);
     stats_total := (length (available p) + size (inUse p))%nat;
     stats_maxSize := maxSize p |}.

Definition clear (p : ObjectPool) : ObjectPool :=
  {| available := []; inUse := ∅; maxSize := maxSize p; created := created p |}.

(** Every object is owned once: the free list has no duplicates, no
    object is both free and in use, and every object is one the factory
    [freshFactory] has built. *)
Definition ownedOnce (p : ObjectPool) : Prop :=
  NoDup (available p)
  /\ (forall obj, obj ∈ available p -> obj ∉ inUse p)
  /\ (forall obj, obj ∈ available p \/ obj ∈ inUse p ->
        (Pos.to_nat obj <= created p)%nat).

(** ** Targeting resolver: [validateTarget], [setTargetingStrategy], [clearCache] *)

Definition clearCache (ts : TargetingSystem) : TargetingSystem :=
  {| targetingStrategy := targetingStrategy ts;
     targetCache := ∅;
     lastUpdateTime := lastUpdateTime ts;
     cacheUpdateInterval := cacheUpdateInterval ts |}.

Definition setTargetingStrategy (strategy : TargetingStrategy)
    (ts : TargetingSystem) : TargetingSystem :=
  clearCache
    {| targetingStrategy := strategy;
       targetCache := targetCache ts;
       lastUpdateTime := lastUpdateTime ts;
       cacheUpdateInterval := cacheUpdateInterval ts |}.

Definition getTargetingStrategy (ts : TargetingSystem) : TargetingStrategy :=
  targetingStrategy ts.

(** [this.targetCache.delete(key)] *)
Definition deleteCache (key : string) (ts : TargetingSystem) : TargetingSystem :=
  {| targetingStrategy := targetingStrategy ts;
     targetCache := delete key (targetCache ts);
     lastUpdateTime := lastUpdateTime ts;
     cacheUpdateInterval := cacheUpdateInterval ts |}.

Definition validateTarget (sqrt : Q -> Q) (entity : TargetingEntity)
    (targetId : string) (potentialTargets : list TargetableEntity)
    (ts : TargetingSystem) : bool * TargetingSystem :=
  match List.find (fun t => String.eqb (tg_id t) targetId) potentialTargets with
  | None => (false, deleteCache (te_id entity) ts)
  | Some target =>
      if negb (isInRange sqrt entity target)
      then (false, deleteCache (te_id entity) ts)
      else (true, ts)
  end.

(** The candidate that [findWeakestTarget] holds after a prefix of the
    list: among the targets that carry a health it is the first of minimum
    health. *)
Definition weakestIn (prefix : list TargetableEntity)
    (acc : option (TargetableEntity * Q)) : Prop :=
  match acc with
  | None => forall t, In t prefix -> tg_health t = None
  | Some (t, h) =>
      tg_health t = Some h /\
      exists l1 l2, prefix = l1 ++ t :: l2
        /\ (forall t' h', In t' l1 -> tg_health t' = Some h' -> h < h')
        /\ (forall t' h', In t' l2 -> tg_health t' = Some h' -> h <= h')
  end.

(** The candidate that [findStrongestTarget] holds after a prefix of the
    list: the first target of maximum health, once a positive health has
    been seen. *)
Definition strongestIn (prefix : list TargetableEntity)
    (acc : option TargetableEntity * Q) : Prop :=
  match fst acc with
  | None =>
      snd acc = 0
      /\ forall t h, In t prefix -> tg_health t = Some h -> h <= 0
  | Some t =>
      tg_health t = Some (snd acc) /\ 0 < snd acc /\
      exists l1 l2, prefix = l1 ++ t :: l2
        /\ (forall t' h', In t' l1 -> tg_health t' = Some h' -> h' < snd acc)
        /\ (forall t' h', In t' l2 -> tg_health t' = Some h' -> h' <= snd acc)
  end.

Definition weakHostile : TargetableEntity :=
  {| tg_id := "weak"; tg_position := mkVector3 0 0 4;
     tg_health := Some 40; tg_maxHealth := Some 100 |}.

Definition distantHostile : TargetableEntity :=
  {| tg_id := "distant"; tg_position := mkVector3 0 0 20;
     tg_health := Some 10; tg_maxHealth := Some 100 |}.

(** ** Tick driver: what a tick leaves in the store *)

(** The record that [updateGame] builds for an enemy that stays on the
    path. *)
Definition advanceEnemy (deltaTime : Q) (enemy : Enemy.t) : Enemy.t :=
  let newProgress := Enemy.pathProgress enemy + Enemy.speed enemy * deltaTime in
  let p := Enemy.position enemy in
  {| Enemy.id := Enemy.id enemy;
     Enemy.position := mkVector3 (vx p) (vy p) (-25 + newProgress * 50);
     Enemy.type := Enemy.type enemy; Enemy.health := Enemy.health enemy;
     Enemy.maxHealth := Enemy.maxHealth enemy; Enemy.speed := Enemy.speed enemy;
     Enemy.pathProgress := newProgress; Enemy.reward := Enemy.reward enemy |}.

(** The enemies of a list that stay on the path during a tick, advanced. *)
Definition survivors (deltaTime : Q) (es : list Enemy.t) : list Enemy.t :=
  List.map (advanceEnemy deltaTime)
    (List.filter (fun e => negb (breaches deltaTime e)) es).

(** How a tick that ends at clock [t] may change one tower: only its
    target, its readiness and the time of its last shot. *)
Definition towerTicked (t : Q) (tw tw' : Tower.t) : Prop :=
  Tower.id tw' = Tower.id tw
  /\ Tower.position tw' = Tower.position tw
  /\ Tower.type tw' = Tower.type tw
  /\ Tower.level tw' = Tower.level tw
  /\ Tower.damage tw' = Tower.damage tw
  /\ Tower.range tw' = Tower.range tw
  /\ Tower.fireRate tw' = Tower.fireRate tw
  /\ (Tower.canFire tw' = true ->
        Tower.lastFired tw' = Tower.lastFired tw
        /\ reachesPeriod (t - Tower.lastFired tw') (Tower.fireRate tw') = true)
  /\ (Tower.lastFired tw' = Tower.lastFired tw
      \/ (Tower.lastFired tw' = t /\ Tower.canFire tw' = false
          /\ truthy (Tower.currentTargetId tw') = true)).

(** No pooled record has gone back to its pool. *)
Definition poolsGrow (w w' : World) : Prop :=
  inUse (laserPool w) ⊆ inUse (laserPool w')
  /\ inUse (particlePool w) ⊆ inUse (particlePool w').

(** A tick environment whose spawn roll succeeds. *)
Definition spawningEnv : TickEnv :=
  {| spawnRoll := 0; spawnId := "spawned"; nowAt := fun _ => 1000;
     laserId := fun _ => "l"%string; particleId := fun _ => "p"%string |}.

(** The session of [heavyWorld] with a tower next to the spawn point. *)
Definition guardedWorld : World :=
  placeTower "t1" (mkVector3 0 0 (-25)) "Basic Tower" heavyWorld.

(** ** Card store: [initializeCards] and the conditions of a play *)

(** Entries of [cardData], each as a card with the given id. *)
Definition basicTower (id : string) : Card.t :=
  {| Card.id := id; Card.name := "Basic Tower";
     Card.description := "A simple tower that fires at enemies. Good damage and range for the cost.";
     Card.type := tower_card; Card.cost := 50;
     Card.stats := Some {| st_damage := Some 25; st_range := Some 8;
                           st_fireRate := Some 2; st_areaOfEffect := None |};
     Card.effect := None; Card.rarity := common |}.

Definition laserTower (id : string) : Card.t :=
  {| Card.id := id; Card.name := "Laser Tower";
     Card.description := "Advanced tower with laser beams. Higher damage and fire rate than basic towers.";
     Card.type := tower_card; Card.cost := 100;
     Card.stats := Some {| st_damage := Some 40; st_range := Some 10;
                           st_fireRate := Some 3; st_areaOfEffect := None |};
     Card.effect := None; Card.rarity := uncommon |}.

Definition damageSpell (id : string) : Card.t :=
  {| Card.id := id; Card.name := "Lightning Strike";
     Card.description := "Deals damage to all enemies on the battlefield instantly.";
     Card.type := spell_card; Card.cost := 30;
     Card.stats := Some {| st_damage := Some 50; st_range := None;
                           st_fireRate := None; st_areaOfEffect := None |};
     Card.effect := Some "damage_all"%string; Card.rarity := common |}.

Definition rangeUpgrade (id : string) : Card.t :=
  {| Card.id := id; Card.name := "Targeting System";
     Card.description := "Permanently increases range of a selected tower, allowing it to hit distant enemies.";
     Card.type := upgrade_card; Card.cost := 35;
     Card.stats := Some {| st_damage := None; st_range := Some 3;
                           st_fireRate := None; st_areaOfEffect := None |};
     Card.effect := None; Card.rarity := common |}.

(** The deck that [initializeCards] builds; [ids] gives the random id of
    each of its eight cards. *)
Definition startingDeck (ids : nat -> string) : list Card.t :=
  [ basicTower (ids 0%nat); basicTower (ids 1%nat); basicTower (ids 2%nat);
    damageSpell (ids 3%nat); damageSpell (ids 4%nat);
    rangeUpgrade (ids 5%nat); rangeUpgrade (ids 6%nat);
    laserTower (ids 7%nat) ].

(** [initializeCards]: the deck is set, then [drawCard] is called three
    times. *)
Definition initializeCards (ids : nat -> string)
    (shuffle : list Card.t -> list Card.t) (w : World) : World :=
  let w0 :=
    withCards (fun c =>
      set_discardPile [] (set_hand [] (set_deck (startingDeck ids) c))) w in
  snd (drawCard shuffle (snd (drawCard shuffle (snd (drawCard shuffle w0))))).

(** A position of [towerPositions] is free: no tower stands within
    distance 2 of it. *)
Definition positionFree (sqrt : Q -> Q) (towers0 : list Tower.t) (pos : Vector3) : bool :=
  negb (existsb (fun tw => Qltb (distanceTo sqrt (Tower.position tw) pos) 2) towers0).

(** The effect of a card can be applied in a world. *)
Definition effectApplies (sqrt : Q -> Q) (card : Card.t) (w : World) : bool :=
  match Card.type card with
  | tower_card => existsb (positionFree sqrt (towers (td w))) towerPositions
  | spell_card =>
      match Card.effect card with
      | Some eff => String.eqb eff "damage_all" || String.eqb eff "slow_all"
      | None => false
      end
  | upgrade_card => negb (length (towers (td w)) =? 0)%nat
  end.

(** The tower that [placeTower] builds. *)
Definition newTowerAt (newId : string) (position : Vector3) (type : string) : Tower.t :=
  {| Tower.id := newId; Tower.position := position; Tower.type := type;
     Tower.level := 1; Tower.damage := 25; Tower.range := 8;
     Tower.fireRate := 2; Tower.lastFired := 0; Tower.canFire := true;
     Tower.currentTargetId := None; Tower.showRange := false |}.

Definition cardIds (n : nat) : string := enemyName n.

(** The hand is within its capacity of 7. *)
Definition handWithin (w : World) : Prop :=
  maxHandSize (cards w) = 7 /\ lengthQ (hand (cards w)) <= 7.

(** ** Wave composition ([enemyData.ts]) *)

Module Wave.

Inductive template := early | mid | late | boss | swarm | mixed.

(** The [enemyTypes] of [waveTemplates]. *)
Definition enemyTypes (t : template) : list string :=
  match t with
  | early => ["normal"; "fast"]
  | mid => ["normal"; "fast"; "heavy"; "armored"]
  | late => ["heavy"; "armored"; "flying"; "regenerating"]
  | boss => ["boss"; "elite"; "shielded"]
  | swarm => ["swarm"; "normal"; "fast"]
  | mixed => ["normal"; "fast"; "heavy"; "armored"; "flying"]
  end%string.

Record entry := mkEntry { type : string; count : Z; interval : Q }.

(** The choice of template at the head of [generateWaveComposition], for
    a whole wave number; [%] is the remainder with the sign of the
    dividend. *)
Definition templateOf (waveNumber : Z) : template :=
  if (waveNumber <=? 3)%Z then early
  else if (waveNumber <=? 6)%Z then mid
  else if (waveNumber =? 10)%Z || (Z.rem waveNumber 5 =? 0)%Z then boss
  else if (Z.rem waveNumber 4 =? 0)%Z then swarm
  else if (waveNumber <=? 8)%Z then late
  else mixed.

(** [Math.floor(8 + waveNumber * 1.5)] *)
Definition enemyCountOf (waveNumber : Z) : Z :=
  Qfloor (8 + inject_Z waveNumber * 1.5).

(** The body of the [forEach]: the entry for the type at [index] of
    [total] types; [random] gives the successive values of
    [Math.random()].  [remainingEnemies] is a constant equal to
    [enemyCount]. *)
Definition entryAt (random : nat -> Q) (enemyCount : Z) (total index : nat)
    (enemyType : string) : entry :=
  let remainingEnemies := enemyCount in
  let isLast := (index =? total - 1)%nat in
  let baseCount :=
    if isLast then remainingEnemies
    else Qfloor (inject_Z enemyCount / inject_Z (Z.of_nat total)) in
  {| type := enemyType;
     count := Z.max 1 (Qfloor (inject_Z baseCount * (0.8 + random (2 * index)%nat * 0.4)));
     interval := 1 + random (2 * index + 1)%nat * 2 |}.

Fixpoint entriesFrom (random : nat -> Q) (enemyCount : Z) (total index : nat)
    (types : list string) : list entry :=
  match types with
  | [] => []
  | enemyType :: rest =>
      entryAt random enemyCount total index enemyType
      :: entriesFrom random enemyCount total (S index) rest
  end.

Definition generateWaveComposition (random : nat -> Q) (waveNumber : Z)
    : list entry * template :=
  let t := templateOf waveNumber in
  let types := enemyTypes t in
  (entriesFrom random (enemyCountOf waveNumber) (length types) 0 types, t).

(** The number of enemies that a composition announces. *)
Definition totalCount (es : list entry) : Z :=
  fold_right (fun e acc => (count e + acc)%Z) 0%Z es.

End Wave.

(** The sum of the rewards of the enemies that a blast of [dmg] kills. *)
Definition killedRewards (dmg : Q) (es : list Enemy.t) : Q :=
  fold_right (fun e acc => Enemy.reward e + acc) 0
    (List.filter (fun e => Qle_bool (Math_max 0 (Enemy.health e - dmg)) 0) es).

(** The enemies that a blast of [dmg] leaves, each with its health
    lowered. *)
Definition blasted (dmg : Q) (es : list Enemy.t) : list Enemy.t :=
  List.map (fun e => setHealth (Math_max 0 (Enemy.health e - dmg)) e)
    (List.filter (fun e => negb (Qle_bool (Math_max 0 (Enemy.health e - dmg)) 0)) es).

(** A fast enemy already hurt. *)
Definition woundedEnemy : Enemy.t :=
  {| Enemy.id := "f1"; Enemy.position := mkVector3 0 1 (-5); Enemy.type := fast;
     Enemy.health := 40; Enemy.maxHealth := 60; Enemy.speed := 0.04;
     Enemy.pathProgress := 0.4; Enemy.reward := 15 |}.

(** A session with three enemies of different health. *)
Definition blastWorld : World :=
  withTD (set_enemies [heavyEnemy; woundedEnemy; almostThere]) (startGame initialWorld).

(** * Properties *)

(** ** Object pool *)

Section PoolFacts.

Variable factory : nat -> ref.

Lemma pop_length l obj rest :
  pop l = Some (obj, rest) -> length l = S (length rest).
Proof.
  unfold pop. destruct (rev l) as [|y r] eqn:E; [discriminate|].
  intros [= <- <-]. rewrite <- (length_rev l), E. simpl.
  now rewrite length_rev.
Qed.

Lemma size_add_le (obj : ref) (s : gset ref) :
  (size ({[obj]} ∪ s) <= S (size s))%nat.
Proof.
  destruct (decide (obj ∈ s)) as [Hin|Hout].
  - assert (E : {[obj]} ∪ s = s).
    { apply set_eq. intros k. rewrite elem_of_union, elem_of_singleton.
      split; [intros [->|]|]; auto. }
    rewrite E. lia.
  - rewrite size_union, size_singleton; [lia|].
    intros k Hk. rewrite elem_of_singleton in Hk. now subst k.
Qed.

Lemma size_remove (obj : ref) (s : gset ref) :
  obj ∈ s -> S (size (s ∖ {[obj]})) = size s.
Proof.
  intros Hin. rewrite size_difference, size_singleton.
  - assert (size s ≠ 0%nat); [|lia].
    intros H0. apply size_empty_inv in H0. apply (not_elem_of_empty (C:=gset ref) obj).
    now rewrite <- H0.
  - intros k Hk. rewrite elem_of_singleton in Hk. now subst k.
Qed.

Lemma prepopulate_length n made : length (prepopulate factory n made) = n.
Proof. revert made. induction n; simpl; intros; [reflexivity|]. now rewrite IHn. Qed.

Lemma newPool_inv cap : (0 <= cap)%Z -> poolInv (newPool factory cap).
Proof.
  intros Hcap. unfold poolInv, total, newPool. cbn [available inUse maxSize created].
  rewrite prepopulate_length, size_empty. lia.
Qed.

Lemma acquire_inv p : poolInv p -> poolInv (snd (acquire factory p)).
Proof.
  intros [Ha Ht]. unfold acquire, poolInv, total in *.
  destruct (pop (available p)) as [[obj rest]|] eqn:E; simpl.
  - apply pop_length in E. pose proof (size_add_le obj (inUse p)). lia.
  - pose proof (size_add_le (factory (created p)) (inUse p)). lia.
Qed.

Lemma release_inv obj p : poolInv p -> poolInv (release obj p).
Proof.
  intros [Ha Ht]. unfold release, poolInv, total in *.
  destruct (decide (obj ∈ inUse p)) as [Hin|]; [|auto].
  pose proof (size_remove obj (inUse p) Hin).
  destruct (Z.ltb_spec (Z.of_nat (length (available p))) (maxSize p)); simpl.
  - rewrite length_app. simpl. lia.
  - lia.
Qed.

Lemma acquire_maxSize p : maxSize (snd (acquire factory p)) = maxSize p.
Proof. unfold acquire. destruct (pop (available p)) as [[? ?]|]; reflexivity. Qed.

Lemma release_maxSize obj p : maxSize (release obj p) = maxSize p.
Proof.
  unfold release. destruct (decide _); [|reflexivity].
  destruct (_ <? _)%Z; reflexivity.
Qed.

Lemma runOps_inv ops p :
  poolInv p -> poolInv (runOps factory ops p) /\ maxSize (runOps factory ops p) = maxSize p.
Proof.
  unfold runOps. revert p. induction ops as [|op ops IH]; simpl; intros p Hp.
  - auto.
  - destruct op as [|obj]; simpl.
    + destruct (IH _ (acquire_inv p Hp)) as [H1 H2]. split; [exact H1|].
      rewrite H2. apply acquire_maxSize.
    + destruct (IH _ (release_inv obj p Hp)) as [H1 H2]. split; [exact H1|].
      rewrite H2. apply release_maxSize.
Qed.

End PoolFacts.

(** C3, as stated, fails: a pool of capacity 1 holds two objects after two
    [acquire] calls, since [acquire] on an empty free list builds a new
    object whatever the capacity. *)
Lemma C3_capacity_exceeded :
  let p := runOps freshFactory [Acquire; Acquire] (newPool freshFactory 1) in
  maxSize p = 1%Z /\ total p = 2%Z /\ ~ (total p <= maxSize p)%Z.
Proof. vm_compute. repeat split. intros H. apply H. reflexivity. Qed.

(** C3, amended: for a pool built with capacity [cap >= 0], after every
    finite sequence of [acquire] and [release] calls the free list
    [available] is no longer than [cap], and [available.length + inUse.size]
    is at most the number of objects the factory has built (which [acquire]
    lets grow past [cap]). *)
Theorem C3_pool_available_bounded (factory : nat -> ref) (cap : Z) (ops : list PoolOp) :
  (0 <= cap)%Z ->
  let p := runOps factory ops (newPool factory cap) in
  maxSize p = cap
  /\ (Z.of_nat (length (available p)) <= cap)%Z
  /\ (total p <= Z.of_nat (created p))%Z.
Proof.
  intros Hcap p.
  destruct (runOps_inv factory ops _ (newPool_inv factory cap Hcap)) as [[Ha Ht] Hm].
  fold p in Ha, Ht, Hm. simpl in Hm. rewrite Hm in Ha. auto.
Qed.

Lemma C3_pool_available_bounded_witness :
  (0 <= 1)%Z /\
  let p := runOps freshFactory [Acquire; Acquire; Release 1%positive]
                  (newPool freshFactory 1) in
  maxSize p = 1%Z
  /\ (Z.of_nat (length (available p)) <= 1)%Z
  /\ (total p <= Z.of_nat (created p))%Z.
Proof.
  split; [lia|].
  apply (C3_pool_available_bounded freshFactory 1
           [Acquire; Acquire; Release 1%positive]). lia.
Defined.

(** ** Targeting resolver *)

Lemma Qltb_lt x y : Qltb x y = true <-> x < y.
Proof.
  unfold Qltb. rewrite negb_true_iff, <- not_true_iff_false, Qle_bool_iff.
  split; [apply Qnot_le_lt | apply Qlt_not_le].
Qed.

Lemma Qltb_ge x y : Qltb x y = false <-> y <= x.
Proof. unfold Qltb. now rewrite negb_false_iff, Qle_bool_iff. Qed.

Lemma Qle_bool_gt x y : Qle_bool x y = false <-> y < x.
Proof.
  rewrite <- not_true_iff_false, Qle_bool_iff.
  split; [apply Qnot_le_lt | apply Qlt_not_le].
Qed.

Lemma filter_split {A} (f : A -> bool) (l m1 m2 : list A) (t : A) :
  List.filter f l = m1 ++ t :: m2 ->
  exists l1 l2, l = l1 ++ t :: l2 /\ List.filter f l1 = m1
                /\ List.filter f l2 = m2 /\ f t = true.
Proof.
  revert m1. induction l as [|a l IH]; intros m1 H; simpl in H.
  - destruct m1; discriminate.
  - destruct (f a) eqn:Fa.
    + destruct m1 as [|b m1]; simpl in H.
      * injection H as -> Hm. exists [], l. simpl. auto.
      * injection H as -> Hm. destruct (IH _ Hm) as (l1 & l2 & -> & H1 & H2 & Ft).
        exists (b :: l1), l2. simpl. rewrite Fa, H1. auto.
    + destruct (IH _ H) as (l1 & l2 & -> & H1 & H2 & Ft).
      exists (a :: l1), l2. simpl. rewrite Fa. auto.
Qed.

Section TargetingFacts.

Variable sqrt : Q -> Q.
Variable entity : TargetingEntity.

Local Abbreviation dist t := (getDistance sqrt (te_position entity) (tg_position t)).
Local Abbreviation nearestIn := (nearestIn sqrt entity).

Lemma closestStep_nearestIn prefix acc t :
  nearestIn prefix acc ->
  nearestIn (prefix ++ [t]) (closestStep sqrt entity acc t).
Proof.
  unfold nearestIn, closestStep. fold (dist t).
  destruct acc as [[c d]|].
  - intros (Hd & l1 & l2 & -> & H1 & H2). subst d.
    destruct (Qltb (dist t) (dist c)) eqn:E.
    + apply Qltb_lt in E. split; [reflexivity|].
      exists (l1 ++ c :: l2), []. repeat split.
      * intros t' Hin. apply in_app_or in Hin. destruct Hin as [Hin|[<-|Hin]].
        -- specialize (H1 _ Hin). lra.
        -- lra.
        -- specialize (H2 _ Hin). lra.
      * intros t' [].
    + apply Qltb_ge in E. split; [reflexivity|].
      exists l1, (l2 ++ [t]). repeat split.
      * now rewrite <- app_assoc.
      * exact H1.
      * intros t' Hin. apply in_app_or in Hin. destruct Hin as [Hin|[<-|[]]].
        -- now apply H2.
        -- lra.
  - intros ->. split; [reflexivity|]. exists [], []. repeat split; intros t' [].
Qed.

Lemma fold_closest_nearestIn l prefix acc :
  nearestIn prefix acc ->
  nearestIn (prefix ++ l) (fold_left (closestStep sqrt entity) l acc).
Proof.
  revert prefix acc. induction l as [|t l IH]; simpl; intros prefix acc H.
  - now rewrite app_nil_r.
  - replace (prefix ++ t :: l) with ((prefix ++ [t]) ++ l)
      by now rewrite <- app_assoc.
    apply IH. now apply closestStep_nearestIn.
Qed.

Lemma findClosestTarget_spec l :
  l <> [] ->
  exists t l1 l2, findClosestTarget sqrt entity l = Some t
    /\ l = l1 ++ t :: l2
    /\ (forall t', In t' l1 -> dist t < dist t')
    /\ (forall t', In t' l2 -> dist t <= dist t').
Proof.
  intros Hne. pose proof (fold_closest_nearestIn l [] None eq_refl) as H.
  unfold findClosestTarget. simpl in H.
  destruct (fold_left _ l None) as [[t d]|]; simpl in *.
  - destruct H as (_ & l1 & l2 & -> & H1 & H2). exists t, l1, l2. auto.
  - contradiction.
Qed.

Lemma cachedResult_hit now targets ts c :
  cachedResult sqrt now entity targets ts = Some c ->
  targetCache ts !! te_id entity = Some (Some c)
  /\ now - lastUpdateTime ts < cacheUpdateInterval ts
  /\ exists t, In t targets /\ tg_id t = c /\ isInRange sqrt entity t = true.
Proof.
  unfold cachedResult.
  destruct (Qltb _ _) eqn:Ht; [|discriminate]. apply Qltb_lt in Ht.
  destruct (targetCache ts !! te_id entity) as [cached|]; [|discriminate].
  destruct (truthy cached); [|discriminate].
  destruct (List.find _ targets) as [t|] eqn:Ef; [|discriminate].
  destruct (isInRange sqrt entity t) eqn:Er; [|discriminate].
  intros ->. apply find_some in Ef. destruct Ef as [Hin Hid].
  apply bool_decide_eq_true in Hid. injection Hid as Hid.
  repeat split; auto. exists t. auto.
Qed.

Lemma cachedResult_out_of_range now targets ts :
  (forall t, In t targets -> isInRange sqrt entity t = false) ->
  cachedResult sqrt now entity targets ts = None.
Proof.
  intros Hout. destruct (cachedResult _ _ _ _ _) as [c|] eqn:E; [|reflexivity].
  apply cachedResult_hit in E. destruct E as (_ & _ & t & Hin & _ & Hr).
  rewrite (Hout _ Hin) in Hr. discriminate.
Qed.

Lemma filter_nil_iff {A} (f : A -> bool) l :
  List.filter f l = [] <-> forall a, In a l -> f a = false.
Proof.
  induction l as [|a l IH]; simpl.
  - split; [intros _ ? []|reflexivity].
  - destruct (f a) eqn:Fa; split.
    + discriminate.
    + intros H. specialize (H a (or_introl eq_refl)). congruence.
    + intros H b [<-|Hb]; [assumption|]. now apply IH.
    + intros H. apply IH. intros b Hb. apply H. now right.
Qed.

Lemma length_eqb_0 {A} (l : list A) : (length l =? 0)%nat = true <-> l = [].
Proof. destruct l; simpl; split; congruence. Qed.



Lemma findBestTarget_miss_value now targets ts :
  cachedResult sqrt now entity targets ts = None ->
  fst (findBestTarget sqrt now entity targets ts)
  = option_map tg_id
      (applyStrategy sqrt entity (List.filter (isInRange sqrt entity) targets)
                     (targetingStrategy ts)).
Proof.
  unfold findBestTarget. intros ->.
  destruct (length _ =? 0)%nat eqn:E; simpl; [|reflexivity].
  apply length_eqb_0 in E. rewrite E. now destruct (targetingStrategy ts).
Qed.

End TargetingFacts.




(** ** Damage application *)

Lemma Math_max_spec x y : Math_max x y == Qmax x y.
Proof.
  unfold Math_max. destruct (Qle_bool x y) eqn:E.
  - apply Qle_bool_iff in E. symmetry. now apply Q.max_r.
  - apply Qle_bool_gt in E. symmetry. apply Q.max_l. lra.
Qed.


Lemma armor_factor a : 0 <= a -> 1 - a / (a + 100) == 100 / (a + 100).
Proof. intros H. field. lra. Qed.








(** ** Tick driver: what the sub-updates leave alone *)

Lemma sameSession_refl w : sameSession w w.
Proof. unfold sameSession. repeat split. Qed.

Lemma sameSession_trans w1 w2 w3 :
  sameSession w1 w2 -> sameSession w2 w3 -> sameSession w1 w3.
Proof.
  unfold sameSession. intros (A1 & A2 & A3 & A4 & A5 & A6) (B1 & B2 & B3 & B4 & B5 & B6).
  repeat split; congruence.
Qed.

Lemma addParticleEffect_session pid pos ty col life w :
  sameSession w (addParticleEffect pid pos ty col life w).
Proof.
  unfold addParticleEffect.
  destruct (acquire freshFactory (particlePool w)) as [o p].
  unfold sameSession. simpl. repeat split.
Qed.

Lemma damageEnemy_session pid enemyId damage w :
  sameSession w (damageEnemy pid enemyId damage w).
Proof.
  unfold damageEnemy.
  destruct (List.find _ _) as [enemy|]; [|apply sameSession_refl].
  destruct (Qle_bool _ 0).
  - eapply sameSession_trans;
      [|unfold sameSession; simpl; repeat split; reflexivity].
    eapply sameSession_trans; [|apply addParticleEffect_session].
    unfold sameSession, removeEnemy. simpl. repeat split.
  - eapply sameSession_trans; [|apply addParticleEffect_session].
    unfold sameSession. simpl. repeat split.
Qed.

Lemma fireLaser_session lid pid towerId targetId w :
  sameSession w (fireLaser lid pid towerId targetId w).
Proof.
  unfold fireLaser.
  destruct (List.find _ (towers _)) as [tw|]; [|apply sameSession_refl].
  destruct (List.find _ (enemies _)) as [target|]; [|apply sameSession_refl].
  destruct (acquire freshFactory (laserPool w)) as [o p].
  eapply sameSession_trans; [|apply damageEnemy_session].
  unfold sameSession. simpl. repeat split.
Qed.

Lemma spawnEnemy_session newId type w : sameSession w (spawnEnemy newId type w).
Proof.
  unfold spawnEnemy. destruct (enemyConfig type) as [[h s] r].
  unfold sameSession. simpl. repeat split.
Qed.

Section TickFacts.

Variable sqrt : Q -> Q.

Lemma updateTower_session env t state i tw w :
  sameSession w (snd (updateTower sqrt env t state i tw w)).
Proof.
  unfold updateTower.
  set (cur := if truthy (Tower.currentTargetId tw) then _ else _).
  assert (Hts : forall ts, sameSession w (withTargeting ts w))
    by (intros; unfold sameSession; simpl; repeat split).
  destruct (negb (truthy cur)).
  - destruct (findBestTarget _ _ _ _ _) as [r ts'].
    destruct r as [targetId|]; [|apply Hts].
    destruct (_ && _); [|apply Hts]. simpl.
    eapply sameSession_trans; [apply (Hts ts')|apply fireLaser_session].
  - destruct cur as [targetId|]; [|apply sameSession_refl].
    destruct (_ && _); [|apply sameSession_refl]. simpl.
    apply fireLaser_session.
Qed.

Lemma updateTowers_session env t state tws : forall i w,
  sameSession w (snd (updateTowers sqrt env t state i tws w)).
Proof.
  induction tws as [|tw rest IH]; simpl; intros i w; [apply sameSession_refl|].
  pose proof (updateTower_session env t state i tw w) as H1.
  destruct (updateTower sqrt env t state i tw w) as [tw' w1].
  pose proof (IH (S i) w1) as H2.
  destruct (updateTowers sqrt env t state (S i) rest w1) as [rest' w2].
  simpl in *. eapply sameSession_trans; eauto.
Qed.

End TickFacts.

Lemma lengthQ_cons {A} (a : A) (l : list A) : lengthQ (a :: l) == lengthQ l + 1.
Proof.
  unfold lengthQ. simpl length. rewrite Nat2Z.inj_succ, <- Z.add_1_r.
  now rewrite inject_Z_plus.
Qed.

(** The enemy pass keeps the phase and takes one life per breach. *)
Lemma updateEnemies_lives deltaTime es : forall w,
  let w' := snd (updateEnemies deltaTime es w) in
  gamePhase (td w') = gamePhase (td w)
  /\ lives (td w') == lives (td w) - breachCount deltaTime es
  /\ money (td w') = money (td w)
  /\ cards w' = cards w.
Proof.
  induction es as [|enemy rest IH]; intros w; simpl.
  - repeat split; try reflexivity.
    change (lives (td w) == lives (td w) - 0). lra.
  - unfold updateEnemy, breachCount. simpl List.filter. unfold breaches at 1.
    destruct (Qle_bool 1 _) eqn:E.
    + specialize (IH (withTD (fun s => set_lives (lives s - 1) s) w)).
      destruct (updateEnemies deltaTime rest _) as [rs w2]. simpl in *.
      destruct IH as (I1 & I2 & I3 & I4). repeat split; auto.
      rewrite I2, lengthQ_cons. unfold breachCount. lra.
    + specialize (IH w).
      destruct (updateEnemies deltaTime rest w) as [rs w2]. simpl in *.
      exact IH.
Qed.

(** ** Wave progress *)

Lemma js_rem_lt x m : 0 < m -> js_rem x m < m.
Proof.
  intros Hm. unfold js_rem, Qtrunc.
  assert (Ex : x == x / m * m) by (field; lra).
  set (q := x / m) in *.
  destruct (Qle_bool 0 q).
  - pose proof (Qlt_floor q) as Hf. rewrite inject_Z_plus in Hf.
    change (inject_Z 1) with 1 in Hf.
    assert (q * m < (inject_Z (Qfloor q) + 1) * m)
      by (apply Qmult_lt_compat_r; assumption).
    lra.
  - pose proof (Qle_ceiling q) as Hc.
    assert (q * m <= inject_Z (Qceiling q) * m)
      by (apply Qmult_le_compat_r; lra).
    lra.
Qed.

Lemma waveProgress_lt_1 t : Math_min (js_rem t 30 / 30) 1 < 1.
Proof.
  assert (H : js_rem t 30 / 30 < 1).
  { apply Qlt_shift_div_r; [reflexivity|]. pose proof (js_rem_lt t 30). lra. }
  unfold Math_min. destruct (Qle_bool _ 1) eqn:E; [exact H|].
  apply Qle_bool_gt in E. lra.
Qed.

Section UpdateGameFacts.

Variable sqrt : Q -> Q.

Lemma updateGame_not_playing env deltaTime w :
  gamePhase (td w) <> playing -> updateGame sqrt env deltaTime w = w.
Proof.
  intros H. unfold updateGame.
  destruct (gamePhase (td w)); simpl; congruence.
Qed.

(** One tick in the playing phase. *)
Lemma updateGame_playing env deltaTime w :
  gamePhase (td w) = playing ->
  let w' := updateGame sqrt env deltaTime w in
  gamePhase (td w') = (if Qle_bool (lives (td w)) 0 then ended else playing)
  /\ lives (td w') == lives (td w) - breachCount deltaTime (enemies (td w))
  /\ waveProgress (td w') < 1
  /\ gameTime (td w') = gameTime (td w) + deltaTime
  /\ cards w' = cards w.
Proof.
  intros Hp w'. unfold w', updateGame. rewrite Hp. simpl negb. cbv iota.
  set (w1 := if _ && _ then spawnEnemy _ _ w else w).
  assert (H1 : sameSession w w1).
  { unfold w1. destruct (_ && _);
      [apply spawnEnemy_session|apply sameSession_refl]. }
  pose proof (updateTowers_session sqrt env (gameTime (td w) + deltaTime)
                (td w) (towers (td w)) 0%nat w1) as H2.
  destruct (updateTowers _ _ _ _ _ _ w1) as [updatedTowers w2]. simpl in H2.
  pose proof (updateEnemies_lives deltaTime (enemies (td w)) w2) as H3.
  destruct (updateEnemies deltaTime (enemies (td w)) w2) as [updatedEnemies w3].
  simpl in H3. destruct H3 as (P3 & L3 & _ & C3).
  destruct (sameSession_trans _ _ _ H1 H2) as (P2 & L2 & _ & _ & _ & C2).
  pose proof (waveProgress_lt_1 (gameTime (td w) + deltaTime)) as Hw.
  assert (Hv : Qle_bool 1 (Math_min (js_rem (gameTime (td w) + deltaTime) 30 / 30) 1)
               = false) by (apply Qle_bool_gt; exact Hw).
  rewrite Hv. simpl andb. cbv iota.
  destruct (Qle_bool (lives (td w)) 0); simpl;
    repeat split; try assumption; congruence.
Qed.

End UpdateGameFacts.

Lemma lengthQ_nonneg {A} (l : list A) : 0 <= lengthQ l.
Proof.
  unfold lengthQ. change 0 with (inject_Z 0). rewrite <- Zle_Qle. lia.
Qed.

Lemma breachCount_pos deltaTime es :
  0 < breachCount deltaTime es -> 1 <= breachCount deltaTime es.
Proof.
  unfold breachCount. destruct (List.filter _ es) as [|a l].
  - intros H. vm_compute in H. discriminate.
  - intros _. rewrite lengthQ_cons. pose proof (lengthQ_nonneg l). lra.
Qed.

(** C2 (code defect): with one life left in the playing phase, a tick in
    which a hostile breaches takes the last life but leaves the phase at
    [playing], because the terminal check reads the lives of the snapshot
    taken before the tick; the next tick still runs its body (the clock
    advances) and only then sets the phase to [ended]. *)
Theorem C2_breach_tick_stays_playing (sqrt : Q -> Q) (env env2 : TickEnv)
    (deltaTime deltaTime2 : Q) (w : World) :
  gamePhase (td w) = playing ->
  lives (td w) == 1 ->
  0 < breachCount deltaTime (enemies (td w)) ->
  let w1 := updateGame sqrt env deltaTime w in
  let w2 := updateGame sqrt env2 deltaTime2 w1 in
  lives (td w1) <= 0
  /\ gamePhase (td w1) = playing
  /\ gameTime (td w2) = gameTime (td w1) + deltaTime2
  /\ gamePhase (td w2) = ended.
Proof.
  intros Hp Hl Hb w1 w2.
  destruct (updateGame_playing sqrt env deltaTime w Hp) as (P1 & L1 & _).
  fold w1 in P1, L1.
  assert (E : Qle_bool (lives (td w)) 0 = false) by (apply Qle_bool_gt; lra).
  rewrite E in P1.
  apply breachCount_pos in Hb.
  assert (Hl1 : lives (td w1) <= 0) by lra.
  destruct (updateGame_playing sqrt env2 deltaTime2 w1 P1) as (P2 & _ & _ & T2 & _).
  fold w2 in P2, T2.
  assert (E1 : Qle_bool (lives (td w1)) 0 = true) by (now apply Qle_bool_iff).
  rewrite E1 in P2. auto.
Qed.

Lemma C2_breach_tick_stays_playing_witness :
  (gamePhase (td lastLifeWorld) = playing
   /\ lives (td lastLifeWorld) == 1
   /\ 0 < breachCount 0.1 (enemies (td lastLifeWorld)))
  /\ let w1 := updateGame Qsqrt quietEnv 0.1 lastLifeWorld in
     let w2 := updateGame Qsqrt quietEnv 0.1 w1 in
     lives (td w1) <= 0
     /\ gamePhase (td w1) = playing
     /\ gameTime (td w2) = gameTime (td w1) + 0.1
     /\ gamePhase (td w2) = ended.
Proof.
  assert (H1 : gamePhase (td lastLifeWorld) = playing) by reflexivity.
  assert (H2 : lives (td lastLifeWorld) == 1) by reflexivity.
  assert (H3 : 0 < breachCount 0.1 (enemies (td lastLifeWorld)))
    by (vm_compute; reflexivity).
  split; [auto|].
  exact (C2_breach_tick_stays_playing Qsqrt quietEnv quietEnv 0.1 0.1
           lastLifeWorld H1 H2 H3).
Defined.

(** C9: in the [menu], [paused] and [ended] phases [updateGame] returns
    at once: the whole world (towers, enemies, laser beams, particles,
    lives, score, money, game time, wave progress, phase, and the pools,
    the targeting system and the cards beside them) is unchanged, whatever
    the time delta. *)
Theorem C9_tick_inert_outside_playing (sqrt : Q -> Q) (env : TickEnv)
    (deltaTime : Q) (w : World) :
  gamePhase (td w) = menu \/ gamePhase (td w) = paused \/ gamePhase (td w) = ended ->
  updateGame sqrt env deltaTime w = w.
Proof.
  intros H. apply updateGame_not_playing.
  destruct H as [H|[H|H]]; rewrite H; discriminate.
Qed.

Lemma C9_tick_inert_outside_playing_witness :
  (gamePhase (td (pauseGame lastLifeWorld)) = menu
   \/ gamePhase (td (pauseGame lastLifeWorld)) = paused
   \/ gamePhase (td (pauseGame lastLifeWorld)) = ended)
  /\ updateGame Qsqrt quietEnv 0.1 (pauseGame lastLifeWorld) = pauseGame lastLifeWorld.
Proof.
  assert (H : gamePhase (td (pauseGame lastLifeWorld)) = menu
              \/ gamePhase (td (pauseGame lastLifeWorld)) = paused
              \/ gamePhase (td (pauseGame lastLifeWorld)) = ended)
    by (right; left; reflexivity).
  split; [exact H|].
  exact (C9_tick_inert_outside_playing Qsqrt quietEnv 0.1 (pauseGame lastLifeWorld) H).
Defined.

(** ** Card economy *)

Lemma placeTower_effect newId position type w :
  let w' := placeTower newId position type w in
  (money (td w) < 50 -> w' = w)
  /\ (0 <= money (td w) -> 0 <= money (td w'))
  /\ sameSession w w'.
Proof.
  unfold placeTower. destruct (Qle_bool 50 (money (td w))) eqn:E; simpl.
  - apply Qle_bool_iff in E. repeat split; try reflexivity; intros; lra.
  - apply Qle_bool_gt in E. repeat split; auto.
Qed.

Lemma damageAll_session env dmg es : forall i w,
  sameSession w (damageAll env dmg i es w).
Proof.
  induction es as [|e rest IH]; simpl; intros i w; [apply sameSession_refl|].
  eapply sameSession_trans; [apply damageEnemy_session|apply IH].
Qed.

Section CardFacts.

Variable sqrt : Q -> Q.

(** The effect of a card either fails and changes nothing, or succeeds
    and leaves the card store and the session fields alone. *)
Lemma card_effect_outcome env card w :
  let r := match Card.type card with
           | tower_card => playTowerCard sqrt env card w
           | spell_card => playSpellCard env card w
           | upgrade_card => playUpgradeCard card w
           end in
  (fst r = false -> snd r = w) /\ sameSession w (snd r).
Proof.
  destruct (Card.type card); simpl.
  - unfold playTowerCard. destruct (List.filter _ towerPositions); simpl.
    + split; [auto|apply sameSession_refl].
    + split; [discriminate|].
      apply (placeTower_effect (placedTowerId env) v (Card.name card) w).
  - unfold playSpellCard.
    destruct (Card.effect card) as [eff|]; simpl;
      [|split; [auto|apply sameSession_refl]].
    destruct (String.eqb eff "damage_all"); simpl.
    + split; [discriminate|]. apply damageAll_session.
    + destruct (String.eqb eff "slow_all"); simpl.
      * split; [discriminate|]. unfold sameSession. simpl. repeat split.
      * split; [auto|apply sameSession_refl].
  - unfold playUpgradeCard. destruct (towers (td w)); simpl.
    + split; [auto|apply sameSession_refl].
    + split; [discriminate|]. unfold sameSession. simpl. repeat split.
Qed.

(** The part of the atomicity of [playCard] that the code keeps: a
    rejected call changes nothing at all; an accepted call removes the
    card from the hand and touches neither the draw pile nor the discard
    pile. *)
Lemma playCard_outcome env cardId w :
  let r := playCard sqrt env cardId w in
  (fst r = false -> snd r = w)
  /\ (fst r = true ->
      hand (cards (snd r))
        = List.filter (fun k => negb (String.eqb (Card.id k) cardId)) (hand (cards w))
      /\ deck (cards (snd r)) = deck (cards w)
      /\ discardPile (cards (snd r)) = discardPile (cards w)).
Proof.
  unfold playCard.
  destruct (List.find _ (hand (cards w))) as [card|]; simpl; [|split; [auto|discriminate]].
  destruct (Qltb (money (td w)) (Card.cost card)); simpl; [split; [auto|discriminate]|].
  pose proof (card_effect_outcome env card w) as H. simpl in H.
  destruct (match Card.type card with
            | tower_card => _ | spell_card => _ | upgrade_card => _ end)
    as [success w1].
  simpl in H. destruct H as [Hf (_ & _ & _ & _ & _ & Hc)].
  destruct success; simpl.
  - split; [discriminate|]. intros _. rewrite Hc. auto.
  - split; [auto|discriminate].
Qed.

Lemma playCard_waveProgress env cardId w :
  waveProgress (td (snd (playCard sqrt env cardId w))) = waveProgress (td w).
Proof.
  unfold playCard.
  destruct (List.find _ (hand (cards w))) as [card|]; simpl; [|reflexivity].
  destruct (Qltb (money (td w)) (Card.cost card)); simpl; [reflexivity|].
  pose proof (card_effect_outcome env card w) as H. simpl in H.
  destruct (match Card.type card with
            | tower_card => _ | spell_card => _ | upgrade_card => _ end)
    as [success w1].
  simpl in H. destruct H as [_ (_ & _ & _ & _ & Hw & _)].
  destruct success; simpl; exact Hw.
Qed.

Lemma drawCard_waveProgress shuffle w :
  waveProgress (td (snd (drawCard shuffle w))) = waveProgress (td w).
Proof.
  unfold drawCard.
  destruct (Qle_bool _ _); [reflexivity|].
  destruct (Qltb _ _); [reflexivity|].
  destruct (deck (cards w)) as [|c rest].
  - destruct (discardPile (cards w)); reflexivity.
  - reflexivity.
Qed.

(** Every action of the store keeps the wave progress below 1. *)
Lemma step_waveProgress a w :
  waveProgress (td w) < 1 -> waveProgress (td (step sqrt w a)) < 1.
Proof.
  intros H. destruct a; simpl; try exact H; try reflexivity.
  - destruct (spawnEnemy_session newId type w) as (_ & _ & _ & _ & Hw & _).
    now rewrite Hw.
  - destruct (placeTower_effect newId position type w)
      as (_ & _ & _ & _ & _ & _ & Hw & _).
    now rewrite Hw.
  - destruct (gamePhase (td w)) eqn:Hp;
      try (rewrite updateGame_not_playing by (rewrite Hp; discriminate); exact H).
    now destruct (updateGame_playing sqrt env deltaTime w Hp) as (_ & _ & Hw & _).
  - now rewrite playCard_waveProgress.
  - now rewrite drawCard_waveProgress.
  - unfold discardCard. destruct (List.find _ _); exact H.
Qed.

Lemma run_waveProgress actions : forall w,
  waveProgress (td w) < 1 -> waveProgress (td (run sqrt actions w)) < 1.
Proof.
  unfold run. induction actions as [|a actions IH]; simpl; intros w H; [exact H|].
  apply IH. now apply step_waveProgress.
Qed.

End CardFacts.

(** C10: the wave progress written by a tick is
    [min(((gameTime + deltaTime) % 30) / 30, 1)], which is strictly below
    1; so after every [updateGame] call from a state whose wave progress is
    below 1 (the initial 0, or the 0 that [nextWave] writes) it is still
    below 1, and so it is in every state reached from the initial one by
    any run of store actions.  The victory branch of the terminal check
    (wave progress [>= 1], no enemies, last wave) therefore never fires: a
    tick in the playing phase with lives left ends in the playing phase,
    and a tick that ends in [ended] started in [ended] or started in
    [playing] with no lives left. *)
Theorem C10_wave_progress_below_one (sqrt : Q -> Q) (env : TickEnv)
    (deltaTime : Q) (w : World) :
  let w' := updateGame sqrt env deltaTime w in
  (forall actions,
     waveProgress (td (updateGame sqrt env deltaTime (run sqrt actions initialWorld))) < 1)
  /\ (gamePhase (td w) = playing -> waveProgress (td w') < 1)
  /\ (waveProgress (td w) < 1 -> waveProgress (td w') < 1)
  /\ (gamePhase (td w) = playing -> 0 < lives (td w) -> gamePhase (td w') = playing)
  /\ (gamePhase (td w') = ended ->
        gamePhase (td w) = ended
        \/ (gamePhase (td w) = playing /\ lives (td w) <= 0)).
Proof.
  intros w'.
  assert (Hplay : gamePhase (td w) = playing ->
            waveProgress (td w') < 1
            /\ gamePhase (td w') = (if Qle_bool (lives (td w)) 0 then ended else playing)).
  { intros Hp. destruct (updateGame_playing sqrt env deltaTime w Hp) as (P & _ & W & _).
    auto. }
  assert (Hidle : gamePhase (td w) <> playing -> w' = w)
    by (apply updateGame_not_playing).
  assert (Hdec : gamePhase (td w) = playing \/ gamePhase (td w) <> playing)
    by (destruct (gamePhase (td w)); (now left) || (right; discriminate)).
  split; [|split; [|split; [|split]]].
  - intros actions.
    apply (step_waveProgress sqrt (AUpdateGame env deltaTime)).
    apply run_waveProgress. reflexivity.
  - intros Hp. now apply Hplay.
  - intros Hw. destruct Hdec as [Hp|Hn].
    + now apply Hplay.
    + now rewrite (Hidle Hn).
  - intros Hp Hl. destruct (Hplay Hp) as [_ P]. rewrite P.
    assert (E : Qle_bool (lives (td w)) 0 = false) by (now apply Qle_bool_gt).
    now rewrite E.
  - intros He. destruct Hdec as [Hp|Hn].
    + right. split; [exact Hp|]. destruct (Hplay Hp) as [_ P]. rewrite P in He.
      destruct (Qle_bool (lives (td w)) 0) eqn:E; [|discriminate].
      now apply Qle_bool_iff.
    + left. now rewrite (Hidle Hn) in He.
Qed.

Lemma C10_wave_progress_below_one_witness :
  (gamePhase (td lastLifeWorld) = playing /\ 0 < lives (td lastLifeWorld))
  /\ waveProgress (td (updateGame Qsqrt quietEnv 29.9 lastLifeWorld)) < 1
  /\ gamePhase (td (updateGame Qsqrt quietEnv 29.9 lastLifeWorld)) = playing.
Proof.
  assert (H1 : gamePhase (td lastLifeWorld) = playing) by reflexivity.
  assert (H2 : 0 < lives (td lastLifeWorld)) by reflexivity.
  destruct (C10_wave_progress_below_one Qsqrt quietEnv 29.9 lastLifeWorld)
    as (_ & Hw & _ & Hp & _).
  split; [auto|]. split; [exact (Hw H1)|exact (Hp H1 H2)].
Defined.


(** C1 (code defect): playing the basic tower card (cost 50) from a
    balance of 100 is accepted and leaves a balance of 0, since
    [placeTower] has already charged its own 50 when [playCard] deducts the
    cost; the card leaves the hand but is not put on the discard pile, so
    the number of cards over hand, draw pile and discard pile drops from 1
    to 0. *)
Theorem C1_playCard_tower_card_run :
  let r := playCard Qsqrt playEnv "c1" towerCardWorld in
  fst r = true
  /\ money (td towerCardWorld) == 100
  /\ Card.cost basicTowerCard == 50
  /\ money (td (snd r)) == 0
  /\ hand (cards towerCardWorld) = [basicTowerCard]
  /\ hand (cards (snd r)) = []
  /\ discardPile (cards (snd r)) = []
  /\ cardCount towerCardWorld = 1%nat
  /\ cardCount (snd r) = 0%nat.
Proof. vm_compute. repeat split. Qed.



(** ** Currency and lives *)

(** [drawCard] spends 10 only after checking that the balance covers it,
    and never touches the lives. *)
Lemma drawCard_money shuffle w :
  let r := drawCard shuffle w in
  (money (td w) < 10 -> r = (false, w))
  /\ (0 <= money (td w) -> 0 <= money (td (snd r)))
  /\ lives (td (snd r)) = lives (td w).
Proof.
  unfold drawCard.
  destruct (Qle_bool (maxHandSize (cards w)) (lengthQ (hand (cards w)))); [simpl; auto|].
  destruct (Qltb (money (td w)) 10) eqn:E2; [simpl; auto|].
  apply Qltb_ge in E2.
  assert (H10 : money (td w) < 10 -> False) by (intros H; lra).
  destruct (deck (cards w)) as [|c rest].
  - destruct (discardPile (cards w)) as [|d drest]; simpl.
    + auto.
    + split; [intros H; now destruct H10|]. split; [intros; lra|reflexivity].
  - simpl. split; [intros H; now destruct H10|]. split; [intros; lra|reflexivity].
Qed.

(** C6, as stated, fails: from the initial state, a session in which 21
    enemies walk the path with no tower on the field loses 21 lives out of
    20 in the tick in which they all arrive, and is still in the playing
    phase with -1 lives. *)
Lemma C6_lives_go_negative :
  lives (td (run Qsqrt overrun initialWorld)) == -1
  /\ lives (td (run Qsqrt overrun initialWorld)) < 0
  /\ gamePhase (td (run Qsqrt overrun initialWorld)) = playing.
Proof. vm_compute. repeat split. Qed.

(** C6, amended: the two commands that spend currency on their own
    account check it first: [placeTower] with less than 50 and [drawCard]
    with less than 10 change nothing, and neither takes a non-negative
    balance below zero; neither touches the lives.  Lives have no such
    guard: a tick in the playing phase takes one life for every enemy that
    reaches the end of the path, so the lives after the tick are the lives
    before it minus the number of breaches, negative if there are more
    breaches than lives. *)
Theorem C6_currency_checked_lives_unchecked (sqrt : Q -> Q) :
  (forall newId position type w,
     let w' := placeTower newId position type w in
     (money (td w) < 50 -> w' = w)
     /\ (0 <= money (td w) -> 0 <= money (td w'))
     /\ lives (td w') = lives (td w))
  /\ (forall shuffle w,
     let r := drawCard shuffle w in
     (money (td w) < 10 -> r = (false, w))
     /\ (0 <= money (td w) -> 0 <= money (td (snd r)))
     /\ lives (td (snd r)) = lives (td w))
  /\ (forall env deltaTime w,
     gamePhase (td w) = playing ->
     lives (td (updateGame sqrt env deltaTime w))
     == lives (td w) - breachCount deltaTime (enemies (td w))).
Proof.
  split; [|split].
  - intros newId position type w w'.
    destruct (placeTower_effect newId position type w) as (H1 & H2 & H3).
    repeat split; auto. apply H3.
  - intros shuffle w r. apply drawCard_money.
  - intros env deltaTime w Hp.
    now destruct (updateGame_playing sqrt env deltaTime w Hp) as (_ & L & _).
Qed.

Lemma C6_currency_checked_lives_unchecked_witness :
  (money (td brokeWorld) < 50 /\ gamePhase (td lastLifeWorld) = playing)
  /\ placeTower "t1" (mkVector3 5 0 0) "Basic Tower" brokeWorld = brokeWorld
  /\ lives (td (updateGame Qsqrt quietEnv 0.1 lastLifeWorld))
     == lives (td lastLifeWorld) - breachCount 0.1 (enemies (td lastLifeWorld)).
Proof.
  assert (H1 : money (td brokeWorld) < 50) by reflexivity.
  assert (H2 : gamePhase (td lastLifeWorld) = playing) by reflexivity.
  destruct (C6_currency_checked_lives_unchecked Qsqrt) as (Hplace & _ & Htick).
  split; [auto|]. split.
  - exact (proj1 (Hplace "t1"%string (mkVector3 5 0 0) "Basic Tower"%string brokeWorld) H1).
  - exact (Htick quietEnv 0.1 lastLifeWorld H2).
Defined.

(** ** Lead-target intercept solve *)

(** The part of the intercept solve that the code keeps: with a negative
    discriminant the current position of the target is returned. *)
Lemma calculateFiringSolution_no_real_root (shooterPos : Float64.Vector3)
    (target : Float64.MovingTarget) (targetVel : Float64.Vector3)
    (projectileSpeed : float) :
  Float64.velocity target = Some targetVel ->
  (let relativePos := Float64.sub (Float64.position target) shooterPos in
   let a := Float64.lengthSq targetVel - projectileSpeed * projectileSpeed in
   let b := 2 * Float64.dot targetVel relativePos in
   let c := Float64.lengthSq relativePos in
   b * b - 4 * a * c <? 0)%float = true ->
  Float64.calculateFiringSolution shooterPos target projectileSpeed
  = Float64.position target.
Proof.
  intros Hv Hd. unfold Float64.calculateFiringSolution. rewrite Hv.
  cbv zeta in Hd. now rewrite Hd.
Qed.

(** C7 (code defect): for a target at (3,0,0) crossing with velocity
    (0,4,0) and a projectile of speed 5 fired from the origin, an intercept
    exists at time 1 (the target is then at (3,4,0), at distance 5), yet
    the solve returns the current position (3,0,0): it takes the smaller
    root, -1, and falls back.  For a target as fast as the projectile
    (velocity (-3,4,0), speed 5) an intercept exists at time 0.5, and the
    solve returns a position whose coordinates are all NaN, neither the
    current nor the projected position. *)
Theorem C7_calculateFiringSolution_runs :
  Float64.calculateFiringSolution Float64.origin Float64.crossingTarget 5
    = Float64.position Float64.crossingTarget
  /\ Float64.intercepts Float64.origin Float64.crossingTarget 5 1 = true
  /\ Float64.predictTargetPosition Float64.crossingTarget 1
     = Float64.mkVector3 3 4 0
  /\ Float64.calculateFiringSolution Float64.origin Float64.equalSpeedTarget 5
     = Float64.mkVector3 nan nan nan
  /\ Float64.intercepts Float64.origin Float64.equalSpeedTarget 5 0.5 = true
  /\ Float64.predictTargetPosition Float64.equalSpeedTarget 0.5
     = Float64.mkVector3 1.5 2 0.
Proof. vm_compute. repeat split. Qed.


(** * Further properties *)

(** ** Object pool: leases and returns *)

Lemma pop_snoc l obj : pop (l ++ [obj]) = Some (obj, l).
Proof. unfold pop. rewrite rev_app_distr. simpl. now rewrite rev_involutive. Qed.

Lemma pop_some l obj rest : pop l = Some (obj, rest) -> l = rest ++ [obj].
Proof.
  unfold pop. destruct (rev l) as [|y r] eqn:E; [discriminate|].
  intros [= <- <-]. rewrite <- (rev_involutive l), E. reflexivity.
Qed.

Lemma pop_none l : pop l = None -> l = [].
Proof.
  unfold pop. destruct (rev l) as [|y r] eqn:E; [|discriminate].
  intros _. rewrite <- (rev_involutive l), E. reflexivity.
Qed.

Lemma pool_eta p :
  {| available := available p; inUse := inUse p;
     maxSize := maxSize p; created := created p |} = p.
Proof. now destruct p. Qed.

(** X1: an object that is in use and is released while the free list is
    below the capacity is the very object the next [acquire] hands out,
    without a call to the factory, and the pool is then exactly as it was
    before the release. *)
Theorem X1_release_then_acquire (factory : nat -> ref) (obj : ref) (p : ObjectPool) :
  obj ∈ inUse p ->
  (Z.of_nat (length (available p)) < maxSize p)%Z ->
  acquire factory (release obj p) = (obj, p).
Proof.
  intros Hin Hcap. unfold release.
  destruct (decide (obj ∈ inUse p)) as [_|Hn]; [|contradiction].
  apply Z.ltb_lt in Hcap. rewrite Hcap.
  unfold acquire. cbn [available inUse maxSize created].
  rewrite pop_snoc. f_equal.
  rewrite <- (pool_eta p) at 5. f_equal.
  apply set_eq. intros k.
  rewrite elem_of_union, elem_of_difference, elem_of_singleton.
  split.
  - intros [->|[Hk _]]; assumption.
  - intros Hk. destruct (decide (k = obj)) as [->|Hne]; [now left|].
    right. split; [exact Hk|exact Hne].
Qed.

Lemma X1_release_then_acquire_witness :
  let p := snd (acquire freshFactory (newPool freshFactory 100)) in
  (10%positive ∈ inUse p /\ (Z.of_nat (length (available p)) < maxSize p)%Z)
  /\ acquire freshFactory (release 10%positive p) = (10%positive, p).
Proof.
  intros p.
  assert (H1 : 10%positive ∈ inUse p) by (vm_compute; reflexivity).
  assert (H2 : (Z.of_nat (length (available p)) < maxSize p)%Z) by (vm_compute; reflexivity).
  split; [auto|].
  exact (X1_release_then_acquire freshFactory 10%positive p H1 H2).
Defined.

(** X2: releasing twice is the same as releasing once: the second
    [release] of an object finds it no longer in use and changes nothing
    (and so does any [release] of an object that was never leased). *)
Theorem X2_release_idempotent (obj : ref) (p : ObjectPool) :
  release obj (release obj p) = release obj p
  /\ (obj ∉ inUse p -> release obj p = p).
Proof.
  assert (Hstale : forall q, obj ∉ inUse q -> release obj q = q).
  { intros q Hq. unfold release. destruct (decide (obj ∈ inUse q)); [contradiction|reflexivity]. }
  split; [|apply Hstale].
  destruct (decide (obj ∈ inUse p)) as [Hin|Hout].
  - apply Hstale. unfold release.
    destruct (decide (obj ∈ inUse p)); [|contradiction].
    destruct (_ <? _)%Z; cbn [inUse]; rewrite elem_of_difference, elem_of_singleton; tauto.
  - now rewrite !(Hstale p Hout).
Qed.

Lemma prepopulate_fresh n : forall made,
  NoDup (prepopulate freshFactory n made)
  /\ (forall obj, obj ∈ prepopulate freshFactory n made ->
        (made < Pos.to_nat obj <= made + n)%nat).
Proof.
  induction n as [|n IH]; intros made; simpl.
  - split; [constructor|]. intros obj Hin. now apply elem_of_nil in Hin.
  - destruct (IH (S made)) as [Hnd Hr]. split.
    + constructor; [|exact Hnd]. intros Hin. apply Hr in Hin.
      unfold freshFactory in Hin. rewrite SuccNat2Pos.id_succ in Hin. lia.
    + intros obj Hin. apply elem_of_cons in Hin. destruct Hin as [->|Hin].
      * unfold freshFactory. rewrite SuccNat2Pos.id_succ. lia.
      * apply Hr in Hin. lia.
Qed.

Lemma newPool_ownedOnce cap : ownedOnce (newPool freshFactory cap).
Proof.
  unfold ownedOnce, newPool. cbn [available inUse created].
  destruct (prepopulate_fresh (Z.to_nat (Z.min 10 cap)) 0) as [Hnd Hr].
  split; [exact Hnd|]. split.
  - intros obj _. apply not_elem_of_empty.
  - intros obj [Hin|Hin]; [apply Hr in Hin; lia|].
    now apply not_elem_of_empty in Hin.
Qed.

Lemma acquire_ownedOnce p :
  ownedOnce p ->
  ownedOnce (snd (acquire freshFactory p))
  /\ fst (acquire freshFactory p) ∉ inUse p.
Proof.
  intros (Hnd & Hdis & Hold). unfold acquire, ownedOnce.
  destruct (pop (available p)) as [[obj rest]|] eqn:E; cbn [fst snd available inUse created].
  - apply pop_some in E. rewrite E in Hnd, Hdis, Hold.
    apply NoDup_app in Hnd. destruct Hnd as (Hnd & Hobj & _).
    split; [|apply Hdis, elem_of_app; right; apply list_elem_of_singleton; reflexivity].
    split; [exact Hnd|]. split.
    + intros x Hx. rewrite elem_of_union, elem_of_singleton. intros [->|Hu].
      * apply (Hobj obj Hx). now apply list_elem_of_singleton.
      * apply (Hdis x); [apply elem_of_app; now left|exact Hu].
    + intros x [Hx|Hx].
      * apply Hold. left. apply elem_of_app. now left.
      * rewrite elem_of_union, elem_of_singleton in Hx. destruct Hx as [->|Hx].
        -- apply Hold. left. apply elem_of_app. right. now apply list_elem_of_singleton.
        -- apply Hold. now right.
  - apply pop_none in E. rewrite E in *.
    assert (Hfresh : freshFactory (created p) ∉ inUse p).
    { intros Hin. specialize (Hold _ (or_intror Hin)).
      unfold freshFactory in Hold. rewrite SuccNat2Pos.id_succ in Hold. lia. }
    split; [|exact Hfresh].
    split; [constructor|]. split.
    + intros x Hx. now apply elem_of_nil in Hx.
    + intros x [Hx|Hx]; [now apply elem_of_nil in Hx|].
      rewrite elem_of_union, elem_of_singleton in Hx.
      destruct Hx as [->|Hx].
      * unfold freshFactory. rewrite SuccNat2Pos.id_succ. lia.
      * specialize (Hold _ (or_intror Hx)). lia.
Qed.

Lemma release_ownedOnce obj p : ownedOnce p -> ownedOnce (release obj p).
Proof.
  intros (Hnd & Hdis & Hold). unfold release.
  destruct (decide (obj ∈ inUse p)) as [Hin|]; [|now repeat split].
  assert (Hkeep : forall x, x ∈ inUse p ∖ {[obj]} -> x ∈ inUse p /\ x <> obj).
  { intros x. rewrite elem_of_difference, elem_of_singleton. tauto. }
  destruct (_ <? _)%Z; unfold ownedOnce; cbn [available inUse created].
  - split; [|split].
    + apply NoDup_app. split; [exact Hnd|]. split.
      * intros x Hx Hx'. apply list_elem_of_singleton in Hx'. subst x.
        now apply (Hdis obj).
      * apply NoDup_singleton.
    + intros x Hx Hu. apply Hkeep in Hu. destruct Hu as [Hu Hne].
      apply elem_of_app in Hx. destruct Hx as [Hx|Hx];
        [now apply (Hdis x)|]. now apply list_elem_of_singleton in Hx.
    + intros x [Hx|Hx].
      * apply elem_of_app in Hx. destruct Hx as [Hx|Hx]; [apply Hold; auto|].
        apply list_elem_of_singleton in Hx. subst x. apply Hold. auto.
      * apply Hkeep in Hx. apply Hold. tauto.
  - split; [exact Hnd|]. split.
    + intros x Hx Hu. apply Hkeep in Hu. now apply (Hdis x).
    + intros x [Hx|Hx]; apply Hold; [auto|]. apply Hkeep in Hx. tauto.
Qed.

Lemma runOps_ownedOnce ops p :
  ownedOnce p -> ownedOnce (runOps freshFactory ops p).
Proof.
  unfold runOps. revert p. induction ops as [|op ops IH]; simpl; intros p Hp; [exact Hp|].
  apply IH. destruct op as [|obj]; simpl.
  - now apply acquire_ownedOnce.
  - now apply release_ownedOnce.
Qed.

(** X3: in a pool whose factory builds a new object on every call (as the
    factories of the repository do), after every finite sequence of
    [acquire] and [release] calls the free list holds no object twice, no
    object is both free and in use, and the object that the next [acquire]
    hands out is not in use at that moment. *)
Theorem X3_pool_objects_owned_once (cap : Z) (ops : list PoolOp) :
  let p := runOps freshFactory ops (newPool freshFactory cap) in
  NoDup (available p)
  /\ (forall obj, obj ∈ available p -> obj ∉ inUse p)
  /\ fst (acquire freshFactory p) ∉ inUse p.
Proof.
  intros p.
  assert (H : ownedOnce p) by (apply runOps_ownedOnce, newPool_ownedOnce).
  destruct (acquire_ownedOnce p H) as [_ Hacq].
  destruct H as (Hnd & Hdis & _). auto.
Qed.

Lemma fold_releaseStep_length cap order : forall avail,
  (Z.of_nat (length avail) <= cap)%Z ->
  Z.of_nat (length (fold_left (releaseStep cap) order avail))
  = Z.min cap (Z.of_nat (length avail) + Z.of_nat (length order)).
Proof.
  induction order as [|obj order IH]; intros avail Hle; simpl.
  - lia.
  - unfold releaseStep at 2.
    destruct (Z.ltb_spec (Z.of_nat (length avail)) cap) as [Hlt|Hge].
    + rewrite IH; rewrite length_app; simpl; lia.
    + rewrite IH by exact Hle. lia.
Qed.

Lemma fold_releaseStep_elem cap order : forall avail obj,
  obj ∈ fold_left (releaseStep cap) order avail -> obj ∈ avail \/ obj ∈ order.
Proof.
  induction order as [|o order IH]; intros avail obj Hin; simpl in *; [now left|].
  apply IH in Hin. destruct Hin as [Hin|Hin]; [|right; now apply elem_of_cons; right].
  unfold releaseStep in Hin. destruct (_ <? _)%Z; [|now left].
  apply elem_of_app in Hin. destruct Hin as [Hin|Hin]; [now left|].
  apply list_elem_of_singleton in Hin. right. apply elem_of_cons. now left.
Qed.

(** X4: [releaseAll] on a pool whose free list is within the capacity
    leaves no object in use and a free list of
    [min(maxSize, available.length + inUse.size)] objects, each of them free
    or in use before, so afterwards [available.length + inUse.size] is
    within the capacity again; the leased objects beyond the capacity are
    dropped. *)
Theorem X4_releaseAll_reclaims (order : list ref) (p : ObjectPool) :
  order ≡ₚ elements (inUse p) ->
  (Z.of_nat (length (available p)) <= maxSize p)%Z ->
  let p' := releaseAll order p in
  inUse p' = ∅
  /\ Z.of_nat (length (available p')) = Z.min (maxSize p) (total p)
  /\ (total p' <= maxSize p)%Z
  /\ (forall obj, obj ∈ available p' -> obj ∈ available p \/ obj ∈ inUse p).
Proof.
  intros Hperm Hle p'. unfold p', releaseAll, total. cbn [available inUse maxSize].
  assert (Hlen : length order = size (inUse p))
    by (now rewrite Hperm).
  rewrite fold_releaseStep_length by exact Hle. rewrite Hlen, size_empty.
  repeat split; try lia.
  intros obj Hin. apply fold_releaseStep_elem in Hin.
  destruct Hin as [Hin|Hin]; [now left|right].
  rewrite Hperm in Hin. now apply elem_of_elements in Hin.
Qed.

Lemma X4_releaseAll_reclaims_witness :
  let p := runOps freshFactory [Acquire; Acquire; Acquire] (newPool freshFactory 2) in
  (elements (inUse p) ≡ₚ elements (inUse p)
   /\ (Z.of_nat (length (available p)) <= maxSize p)%Z)
  /\ total p = 3%Z
  /\ (total (releaseAll (elements (inUse p)) p) <= maxSize p)%Z.
Proof.
  intros p.
  assert (H1 : elements (inUse p) ≡ₚ elements (inUse p)) by reflexivity.
  assert (H2 : (Z.of_nat (length (available p)) <= maxSize p)%Z) by (vm_compute; discriminate).
  split; [auto|]. split; [vm_compute; reflexivity|].
  exact (proj1 (proj2 (proj2 (X4_releaseAll_reclaims (elements (inUse p)) p H1 H2)))).
Defined.

(** ** Targeting resolver: the other strategies *)

Lemma weakestStep_weakestIn prefix acc t :
  weakestIn prefix acc -> weakestIn (prefix ++ [t]) (weakestStep acc t).
Proof.
  unfold weakestIn, weakestStep.
  destruct (tg_health t) as [h|] eqn:Ht.
  - destruct acc as [[c m]|].
    + intros (Hc & l1 & l2 & -> & H1 & H2).
      destruct (Qltb h m) eqn:E.
      * apply Qltb_lt in E. split; [exact Ht|].
        exists (l1 ++ c :: l2), []. split; [reflexivity|]. split.
        -- intros t' h' Hin Hh. apply in_app_or in Hin.
           destruct Hin as [Hin|[<-|Hin]].
           ++ specialize (H1 _ _ Hin Hh). lra.
           ++ rewrite Hc in Hh. injection Hh as <-. exact E.
           ++ specialize (H2 _ _ Hin Hh). lra.
        -- intros t' h' [].
      * apply Qltb_ge in E. split; [exact Hc|].
        exists l1, (l2 ++ [t]). split; [now rewrite <- app_assoc|]. split; [exact H1|].
        intros t' h' Hin Hh. apply in_app_or in Hin. destruct Hin as [Hin|[<-|[]]].
        -- now apply (H2 t').
        -- rewrite Ht in Hh. injection Hh as <-. exact E.
    + intros Hnone. split; [exact Ht|]. exists prefix, []. split; [reflexivity|]. split.
      * intros t' h' Hin Hh. rewrite (Hnone _ Hin) in Hh. discriminate.
      * intros t' h' [].
  - destruct acc as [[c m]|].
    + intros (Hc & l1 & l2 & -> & H1 & H2). split; [exact Hc|].
      exists l1, (l2 ++ [t]). split; [now rewrite <- app_assoc|]. split; [exact H1|].
      intros t' h' Hin Hh. apply in_app_or in Hin. destruct Hin as [Hin|[<-|[]]].
      * now apply (H2 t').
      * rewrite Ht in Hh. discriminate.
    + intros Hnone t' Hin. apply in_app_or in Hin. destruct Hin as [Hin|[<-|[]]]; auto.
Qed.

Lemma fold_weakest_weakestIn l : forall prefix acc,
  weakestIn prefix acc -> weakestIn (prefix ++ l) (fold_left weakestStep l acc).
Proof.
  induction l as [|t l IH]; simpl; intros prefix acc H.
  - now rewrite app_nil_r.
  - replace (prefix ++ t :: l) with ((prefix ++ [t]) ++ l) by now rewrite <- app_assoc.
    apply IH. now apply weakestStep_weakestIn.
Qed.

(** X5: [findWeakestTarget] ignores the targets that carry no health.  If
    some target carries one, it returns the first target of minimum health
    (strictly below every health before it in the list, at most every
    health after it); if none does, it returns the first target of the
    list. *)
Theorem X5_findWeakestTarget_first_minimum (targets : list TargetableEntity) :
  ((forall t, In t targets -> tg_health t = None) ->
     findWeakestTarget targets = hd_error targets)
  /\ ((exists t, In t targets /\ tg_health t <> None) ->
     exists t h l1 l2,
       findWeakestTarget targets = Some t /\ tg_health t = Some h
       /\ targets = l1 ++ t :: l2
       /\ (forall t' h', In t' l1 -> tg_health t' = Some h' -> h < h')
       /\ (forall t' h', In t' l2 -> tg_health t' = Some h' -> h <= h')).
Proof.
  pose proof (fold_weakest_weakestIn targets [] None) as H. simpl in H.
  specialize (H (fun t (F : False) => match F with end)).
  unfold findWeakestTarget.
  destruct (fold_left weakestStep targets None) as [[t h]|]; simpl in H.
  - destruct H as (Ht & l1 & l2 & E & H1 & H2). split.
    + intros Hnone. rewrite Hnone in Ht; [discriminate|].
      rewrite E. apply in_or_app. right. now left.
    + intros _. exists t, h, l1, l2. auto.
  - split; [reflexivity|]. intros (t & Hin & Hh). now destruct (Hh (H t Hin)).
Qed.

Lemma X5_findWeakestTarget_first_minimum_witness :
  (exists t, In t [farHostile; weakHostile; distantHostile] /\ tg_health t <> None)
  /\ exists t, findWeakestTarget [farHostile; weakHostile; distantHostile] = Some t
               /\ tg_health t = Some 10.
Proof.
  assert (H : exists t, In t [farHostile; weakHostile; distantHostile]
                        /\ tg_health t <> None).
  { exists farHostile. split; [now left|discriminate]. }
  split; [exact H|].
  destruct (proj2 (X5_findWeakestTarget_first_minimum
                     [farHostile; weakHostile; distantHostile]) H)
    as (t & h & l1 & l2 & Hf & Ht & _).
  exists t. split; [exact Hf|].
  assert (E : findWeakestTarget [farHostile; weakHostile; distantHostile]
              = Some distantHostile) by reflexivity.
  rewrite E in Hf. injection Hf as <-. reflexivity.
Defined.

Lemma strongestStep_strongestIn prefix acc t :
  strongestIn prefix acc -> strongestIn (prefix ++ [t]) (strongestStep acc t).
Proof.
  unfold strongestIn, strongestStep. destruct acc as [c m]. cbn [fst snd].
  destruct (tg_health t) as [h|] eqn:Ht.
  - destruct (Qltb m h) eqn:E; cbn [fst snd].
    + apply Qltb_lt in E. destruct c as [c|].
      * intros (Hc & Hpos & l1 & l2 & -> & H1 & H2).
        split; [exact Ht|]. split; [lra|].
        exists (l1 ++ c :: l2), []. split; [reflexivity|]. split.
        -- intros t' h' Hin Hh. apply in_app_or in Hin.
           destruct Hin as [Hin|[<-|Hin]].
           ++ specialize (H1 _ _ Hin Hh). lra.
           ++ rewrite Hc in Hh. injection Hh as <-. exact E.
           ++ specialize (H2 _ _ Hin Hh). lra.
        -- intros t' h' [].
      * intros (-> & Hle). split; [exact Ht|]. split; [exact E|].
        exists prefix, []. split; [reflexivity|]. split.
        -- intros t' h' Hin Hh. specialize (Hle _ _ Hin Hh). lra.
        -- intros t' h' [].
    + apply Qltb_ge in E. destruct c as [c|].
      * intros (Hc & Hpos & l1 & l2 & -> & H1 & H2).
        split; [exact Hc|]. split; [exact Hpos|].
        exists l1, (l2 ++ [t]). split; [now rewrite <- app_assoc|]. split; [exact H1|].
        intros t' h' Hin Hh. apply in_app_or in Hin. destruct Hin as [Hin|[<-|[]]].
        -- now apply (H2 t').
        -- rewrite Ht in Hh. injection Hh as <-. exact E.
      * intros (-> & Hle). split; [reflexivity|].
        intros t' h' Hin Hh. apply in_app_or in Hin. destruct Hin as [Hin|[<-|[]]].
        -- now apply (Hle t').
        -- rewrite Ht in Hh. injection Hh as <-. exact E.
  - destruct c as [c|].
    + intros (Hc & Hpos & l1 & l2 & -> & H1 & H2).
      split; [exact Hc|]. split; [exact Hpos|].
      exists l1, (l2 ++ [t]). split; [now rewrite <- app_assoc|]. split; [exact H1|].
      intros t' h' Hin Hh. apply in_app_or in Hin. destruct Hin as [Hin|[<-|[]]].
      * now apply (H2 t').
      * rewrite Ht in Hh. discriminate.
    + intros (-> & Hle). split; [reflexivity|].
      intros t' h' Hin Hh. apply in_app_or in Hin. destruct Hin as [Hin|[<-|[]]].
      * now apply (Hle t').
      * rewrite Ht in Hh. discriminate.
Qed.

Lemma fold_strongest_strongestIn l : forall prefix acc,
  strongestIn prefix acc -> strongestIn (prefix ++ l) (fold_left strongestStep l acc).
Proof.
  induction l as [|t l IH]; simpl; intros prefix acc H.
  - now rewrite app_nil_r.
  - replace (prefix ++ t :: l) with ((prefix ++ [t]) ++ l) by now rewrite <- app_assoc.
    apply IH. now apply strongestStep_strongestIn.
Qed.

(** X6: [findStrongestTarget] starts its search from a maximum of 0, so
    only a positive health can win.  If some target has a positive health,
    it returns the first target of maximum health (strictly above every
    health before it, at least every health after it); if no target has a
    positive health, it returns the first target of the list. *)
Theorem X6_findStrongestTarget_first_maximum (targets : list TargetableEntity) :
  ((forall t h, In t targets -> tg_health t = Some h -> h <= 0) ->
     findStrongestTarget targets = hd_error targets)
  /\ ((exists t h, In t targets /\ tg_health t = Some h /\ 0 < h) ->
     exists t h l1 l2,
       findStrongestTarget targets = Some t /\ tg_health t = Some h /\ 0 < h
       /\ targets = l1 ++ t :: l2
       /\ (forall t' h', In t' l1 -> tg_health t' = Some h' -> h' < h)
       /\ (forall t' h', In t' l2 -> tg_health t' = Some h' -> h' <= h)).
Proof.
  pose proof (fold_strongest_strongestIn targets [] (None, 0)) as H.
  unfold strongestIn at 1 in H. simpl in H.
  specialize (H (conj eq_refl (fun t h (F : False) => match F with end))).
  unfold findStrongestTarget. unfold strongestIn in H.
  destruct (fold_left strongestStep targets (None, 0)) as [[t|] m]; cbn [fst snd] in *.
  - destruct H as (Ht & Hpos & l1 & l2 & E & H1 & H2). split.
    + intros Hle. assert (m <= 0); [|lra].
      apply (Hle t); [|exact Ht]. rewrite E. apply in_or_app. right. now left.
    + intros _. exists t, m, l1, l2. repeat split; assumption.
  - destruct H as (-> & Hle). split; [reflexivity|].
    intros (t & h & Hin & Hh & Hpos). specialize (Hle _ _ Hin Hh). lra.
Qed.

Lemma X6_findStrongestTarget_first_maximum_witness :
  (exists t h, In t [weakHostile; farHostile; nearHostile]
               /\ tg_health t = Some h /\ 0 < h)
  /\ exists t, findStrongestTarget [weakHostile; farHostile; nearHostile] = Some t
               /\ tg_id t = "far"%string.
Proof.
  assert (H : exists t h, In t [weakHostile; farHostile; nearHostile]
                          /\ tg_health t = Some h /\ 0 < h).
  { exists weakHostile, 40. split; [now left|]. split; reflexivity. }
  split; [exact H|].
  destruct (proj2 (X6_findStrongestTarget_first_maximum
                     [weakHostile; farHostile; nearHostile]) H)
    as (t & h & l1 & l2 & Hf & _).
  exists t. split; [exact Hf|].
  assert (E : findStrongestTarget [weakHostile; farHostile; nearHostile]
              = Some farHostile) by reflexivity.
  rewrite E in Hf. injection Hf as <-. reflexivity.
Defined.

Lemma last_map_Some_In {A} (l : list A) (a : A) :
  List.last (List.map Some l) None = Some a -> exists l1, l = l1 ++ [a].
Proof.
  induction l as [|b l IH]; simpl; [discriminate|].
  destruct l as [|c l]; simpl in *.
  - intros [= ->]. now exists [].
  - intros H. destruct (IH H) as [l1 E]. exists (b :: l1). simpl. now rewrite E.
Qed.

Section StrategyFacts.

Variable sqrt : Q -> Q.
Variable entity : TargetingEntity.

Lemma applyStrategy_In l s t :
  applyStrategy sqrt entity l s = Some t -> In t l.
Proof.
  assert (Hhd : hd_error l = Some t -> In t l)
    by (destruct l; simpl; [discriminate|intros [= ->]; now left]).
  destruct s; simpl.
  - unfold findClosestTarget.
    pose proof (fold_closest_nearestIn sqrt entity l [] None eq_refl) as H.
    simpl in H. destruct (fold_left _ l None) as [[c d]|]; simpl; [|discriminate].
    intros [= ->]. destruct H as (_ & l1 & l2 & -> & _).
    apply in_or_app. right. now left.
  - unfold findWeakestTarget.
    pose proof (fold_weakest_weakestIn l [] None) as H. simpl in H.
    specialize (H (fun t (F : False) => match F with end)).
    destruct (fold_left weakestStep l None) as [[c h]|]; [|exact Hhd].
    intros [= ->]. destruct H as (_ & l1 & l2 & -> & _).
    apply in_or_app. right. now left.
  - unfold findStrongestTarget.
    pose proof (fold_strongest_strongestIn l [] (None, 0)) as H.
    unfold strongestIn at 1 in H. simpl in H.
    specialize (H (conj eq_refl (fun t h (F : False) => match F with end))).
    unfold strongestIn in H.
    destruct (fold_left strongestStep l (None, 0)) as [[c|] m]; cbn [fst snd] in *;
      [|exact Hhd].
    intros [= ->]. destruct H as (_ & _ & l1 & l2 & -> & _).
    apply in_or_app. right. now left.
  - exact Hhd.
  - intros H. apply last_map_Some_In in H. destruct H as [l1 ->].
    apply in_or_app. right. now left.
Qed.

End StrategyFacts.

Lemma applyStrategy_nonempty (sqrt : Q -> Q) (entity : TargetingEntity)
    (a : TargetableEntity) (m : list TargetableEntity) (s : TargetingStrategy) :
  applyStrategy sqrt entity (a :: m) s <> None.
Proof.
  destruct s; simpl.
  - destruct (findClosestTarget_spec sqrt entity (a :: m) ltac:(discriminate))
      as (t & _ & _ & Hfc & _). now rewrite Hfc.
  - unfold findWeakestTarget.
    destruct (fold_left weakestStep (a :: m) None) as [[c h]|]; simpl; discriminate.
  - unfold findStrongestTarget.
    destruct (fst (fold_left strongestStep (a :: m) (None, 0))); simpl; discriminate.
  - discriminate.
  - revert a. induction m as [|b m IH]; intros a; [discriminate|]. apply (IH b).
Qed.

(** X7: whatever the strategy, the memo and the clock, [findBestTarget]
    returns null exactly when no target of the list is within the range of
    the entity, and an id it returns is the id of a target of the list that
    is within range. *)
Theorem X7_findBestTarget_returns_in_range (sqrt : Q -> Q) (now : Q)
    (entity : TargetingEntity) (targets : list TargetableEntity)
    (ts : TargetingSystem) :
  (forall id, fst (findBestTarget sqrt now entity targets ts) = Some id ->
     exists t, In t targets /\ tg_id t = id /\ isInRange sqrt entity t = true)
  /\ (fst (findBestTarget sqrt now entity targets ts) = None <->
      forall t, In t targets -> isInRange sqrt entity t = false).
Proof.
  split; [|split].
  - intros id Hr.
    destruct (cachedResult sqrt now entity targets ts) as [c|] eqn:Hc.
    + unfold findBestTarget in Hr. rewrite Hc in Hr. injection Hr as <-.
      now apply cachedResult_hit in Hc.
    + rewrite (findBestTarget_miss_value sqrt entity now targets ts Hc) in Hr.
      destruct (applyStrategy sqrt entity _ (targetingStrategy ts)) as [t|] eqn:Ha;
        [|discriminate].
      injection Hr as <-. apply applyStrategy_In in Ha. apply filter_In in Ha.
      exists t. tauto.
  - intros Hr.
    destruct (cachedResult sqrt now entity targets ts) as [c|] eqn:Hc.
    + unfold findBestTarget in Hr. rewrite Hc in Hr. discriminate.
    + rewrite (findBestTarget_miss_value sqrt entity now targets ts Hc) in Hr.
      apply filter_nil_iff.
      destruct (List.filter (isInRange sqrt entity) targets) as [|a m] eqn:Ef;
        [reflexivity|].
      pose proof (applyStrategy_nonempty sqrt entity a m (targetingStrategy ts)) as Hne.
      destruct (applyStrategy sqrt entity (a :: m) (targetingStrategy ts));
        [discriminate|now destruct Hne].
  - intros Hout.
    rewrite findBestTarget_miss_value by now apply cachedResult_out_of_range.
    apply filter_nil_iff in Hout. rewrite Hout. now destruct (targetingStrategy ts).
Qed.

(** X8: on a call that does not use the memo, the [first] strategy
    returns the earliest target of the list that is within range, and the
    [last] strategy the latest one: every target before (after) the chosen
    one is out of range. *)
Theorem X8_first_and_last_strategies (sqrt : Q -> Q) (now : Q)
    (entity : TargetingEntity) (targets : list TargetableEntity)
    (ts : TargetingSystem) (id : string) :
  cachedResult sqrt now entity targets ts = None ->
  fst (findBestTarget sqrt now entity targets ts) = Some id ->
  (targetingStrategy ts = first ->
     exists t l1 l2, targets = l1 ++ t :: l2 /\ tg_id t = id
       /\ isInRange sqrt entity t = true
       /\ forall t', In t' l1 -> isInRange sqrt entity t' = false)
  /\ (targetingStrategy ts = last ->
     exists t l1 l2, targets = l1 ++ t :: l2 /\ tg_id t = id
       /\ isInRange sqrt entity t = true
       /\ forall t', In t' l2 -> isInRange sqrt entity t' = false).
Proof.
  intros Hc Hr. rewrite (findBestTarget_miss_value sqrt entity now targets ts Hc) in Hr.
  split; intros Hs; rewrite Hs in Hr; simpl in Hr.
  - destruct (List.filter (isInRange sqrt entity) targets) as [|t m] eqn:Ef;
      [discriminate|].
    injection Hr as Hid.
    apply (filter_split _ _ [] m t) in Ef.
    destruct Ef as (l1 & l2 & -> & F1 & _ & Ft).
    exists t, l1, l2. repeat split; auto. now apply filter_nil_iff.
  - destruct (List.last (List.map Some (List.filter (isInRange sqrt entity) targets)) None)
      as [t|] eqn:El; [|discriminate].
    injection Hr as Hid. apply last_map_Some_In in El. destruct El as [m1 Ef].
    apply (filter_split _ _ m1 [] t) in Ef.
    destruct Ef as (l1 & l2 & -> & _ & F2 & Ft).
    exists t, l1, l2. repeat split; auto. now apply filter_nil_iff.
Qed.

Lemma X8_first_and_last_strategies_witness :
  (cachedResult Qsqrt 1000 defender [distantHostile; farHostile; nearHostile]
     (newTargetingSystem last) = None
   /\ fst (findBestTarget Qsqrt 1000 defender [distantHostile; farHostile; nearHostile]
             (newTargetingSystem last)) = Some "near"%string)
  /\ exists t l1 l2, [distantHostile; farHostile; nearHostile] = l1 ++ t :: l2
       /\ tg_id t = "near"%string
       /\ isInRange Qsqrt defender t = true
       /\ forall t', In t' l2 -> isInRange Qsqrt defender t' = false.
Proof.
  assert (H1 : cachedResult Qsqrt 1000 defender [distantHostile; farHostile; nearHostile]
                 (newTargetingSystem last) = None) by (vm_compute; reflexivity).
  assert (H2 : fst (findBestTarget Qsqrt 1000 defender
                      [distantHostile; farHostile; nearHostile]
                      (newTargetingSystem last)) = Some "near"%string)
    by (vm_compute; reflexivity).
  split; [auto|].
  exact (proj2 (X8_first_and_last_strategies Qsqrt 1000 defender
                  [distantHostile; farHostile; nearHostile]
                  (newTargetingSystem last) "near" H1 H2) eq_refl).
Defined.

(** X9: [setTargetingStrategy] empties the memo of every entity, so the
    next [findBestTarget] call of any entity, at any clock value, is
    answered by the new strategy applied to the targets within range, never
    by an id memoized under the old strategy. *)
Theorem X9_strategy_change_drops_memo (sqrt : Q -> Q) (strategy : TargetingStrategy)
    (ts : TargetingSystem) (now : Q) (entity : TargetingEntity)
    (targets : list TargetableEntity) :
  let ts' := setTargetingStrategy strategy ts in
  getTargetingStrategy ts' = strategy
  /\ targetCache ts' = ∅
  /\ fst (findBestTarget sqrt now entity targets ts')
     = option_map tg_id
         (applyStrategy sqrt entity (List.filter (isInRange sqrt entity) targets)
            strategy).
Proof.
  intros ts'. split; [reflexivity|]. split; [reflexivity|].
  assert (Hc : cachedResult sqrt now entity targets ts' = None).
  { unfold cachedResult, ts', setTargetingStrategy, clearCache. cbn [targetCache].
    rewrite lookup_empty. now destruct (Qltb _ _). }
  now rewrite (findBestTarget_miss_value sqrt entity now targets ts' Hc).
Qed.

(** X10: [validateTarget] answers true exactly when the first target of
    the list with the given id is within range, and then changes nothing.
    When it answers false it removes the memo entry of the entity (and no
    other), so the next [findBestTarget] call of that entity is answered by
    the strategy applied to the targets within range. *)
Theorem X10_validateTarget_drops_stale_memo (sqrt : Q -> Q)
    (entity : TargetingEntity) (targetId : string)
    (targets : list TargetableEntity) (ts : TargetingSystem) :
  let r := validateTarget sqrt entity targetId targets ts in
  (fst r = true <->
     exists t, List.find (fun t => String.eqb (tg_id t) targetId) targets = Some t
               /\ isInRange sqrt entity t = true)
  /\ (fst r = true -> snd r = ts)
  /\ (fst r = false ->
      targetCache (snd r) !! te_id entity = None
      /\ (forall key, key <> te_id entity ->
            targetCache (snd r) !! key = targetCache ts !! key)
      /\ forall now targets',
           fst (findBestTarget sqrt now entity targets' (snd r))
           = option_map tg_id
               (applyStrategy sqrt entity
                  (List.filter (isInRange sqrt entity) targets')
                  (targetingStrategy ts))).
Proof.
  intros r. unfold r, validateTarget.
  assert (Hdel : forall now targets',
            fst (findBestTarget sqrt now entity targets' (deleteCache (te_id entity) ts))
            = option_map tg_id
                (applyStrategy sqrt entity
                   (List.filter (isInRange sqrt entity) targets')
                   (targetingStrategy ts))).
  { intros now targets'.
    assert (Hc : cachedResult sqrt now entity targets'
                   (deleteCache (te_id entity) ts) = None).
    { unfold cachedResult, deleteCache. cbn [targetCache].
      rewrite lookup_delete_eq. now destruct (Qltb _ _). }
    now rewrite (findBestTarget_miss_value sqrt entity now targets' _ Hc). }
  assert (Hfalse : targetCache (deleteCache (te_id entity) ts) !! te_id entity = None
            /\ (forall key, key <> te_id entity ->
                  targetCache (deleteCache (te_id entity) ts) !! key
                  = targetCache ts !! key)).
  { unfold deleteCache. cbn [targetCache]. split; [apply lookup_delete_eq|].
    intros key Hk. now apply lookup_delete_ne. }
  destruct (List.find _ targets) as [t|]; cbn [fst snd].
  - destruct (isInRange sqrt entity t) eqn:Er; cbn [negb fst snd].
    + split; [split; [intros _; now exists t|reflexivity]|].
      split; [reflexivity|discriminate].
    + split; [split; [discriminate|]|].
      * intros (t' & [= <-] & Hr). congruence.
      * split; [discriminate|]. intros _. destruct Hfalse. auto.
  - split; [split; [discriminate|]|].
    + intros (t' & Hf & _). discriminate.
    + split; [discriminate|]. intros _. destruct Hfalse. auto.
Qed.

(** ** Tick driver: what a tick leaves in the store *)

Lemma updateEnemies_fst deltaTime es : forall w,
  fst (updateEnemies deltaTime es w) = survivors deltaTime es.
Proof.
  induction es as [|enemy rest IH]; intros w; simpl; [reflexivity|].
  unfold updateEnemy, survivors. simpl List.filter. unfold breaches at 1.
  destruct (Qle_bool 1 _); simpl.
  - specialize (IH (withTD (fun s => set_lives (lives s - 1) s) w)).
    destruct (updateEnemies deltaTime rest _) as [rs w2]. exact IH.
  - specialize (IH w). destruct (updateEnemies deltaTime rest w) as [rs w2].
    simpl in *. now rewrite IH.
Qed.

Section TickLists.

Variable sqrt : Q -> Q.

Lemma updateTower_ticked env t state i tw w :
  towerTicked t tw (fst (updateTower sqrt env t state i tw w)).
Proof.
  unfold updateTower.
  set (cur := if truthy (Tower.currentTargetId tw) then _ else _).
  set (pick := if negb (truthy cur) then _ else _).
  destruct pick as [[targetId|] w1]; cbn [fst].
  - destruct (reachesPeriod _ _) eqn:Ec; cbn [andb].
    + destruct (truthy (Some targetId)) eqn:Et; cbn [fst];
        unfold towerTicked; cbn; repeat split; auto; try discriminate.
    + unfold towerTicked; cbn; repeat split; auto; discriminate.
  - unfold towerTicked; cbn.
    destruct (reachesPeriod _ _) eqn:Ec; repeat split; auto; discriminate.
Qed.

Lemma updateTowers_ticked env t state tws : forall i w,
  Forall2 (towerTicked t) tws (fst (updateTowers sqrt env t state i tws w)).
Proof.
  induction tws as [|tw rest IH]; intros i w; simpl; [constructor|].
  pose proof (updateTower_ticked env t state i tw w) as H1.
  destruct (updateTower sqrt env t state i tw w) as [tw' w1].
  specialize (IH (S i) w1).
  destruct (updateTowers sqrt env t state (S i) rest w1) as [rest' w2].
  simpl in *. now constructor.
Qed.

(** The lists that a tick in the playing phase writes are computed from
    the snapshot taken when the tick began. *)
Lemma updateGame_playing_lists env deltaTime w :
  gamePhase (td w) = playing ->
  let w' := updateGame sqrt env deltaTime w in
  Forall2 (towerTicked (gameTime (td w) + deltaTime)) (towers (td w)) (towers (td w'))
  /\ enemies (td w') = survivors deltaTime (enemies (td w))
  /\ laserBeams (td w')
     = List.filter (fun l => Qltb 0 (LaserBeam.lifetime l))
         (List.map (decayLaser deltaTime) (laserBeams (td w)))
  /\ particleEffects (td w')
     = List.filter (fun p => Qltb 0 (ParticleEffect.lifetime p))
         (List.map (decayParticle deltaTime) (particleEffects (td w)))
  /\ accuracy (td w')
     = (if Qltb 0 (totalShots (td w))
        then hitShots (td w) / totalShots (td w) else 0).
Proof.
  intros Hp w'. unfold w', updateGame. rewrite Hp. simpl negb. cbv iota.
  set (w1 := if _ && _ then spawnEnemy _ _ w else w).
  pose proof (updateTowers_ticked env (gameTime (td w) + deltaTime)
                (td w) (towers (td w)) 0%nat w1) as H2.
  destruct (updateTowers _ _ _ _ _ _ w1) as [updatedTowers w2]. simpl in H2.
  pose proof (updateEnemies_fst deltaTime (enemies (td w)) w2) as H3.
  destruct (updateEnemies deltaTime (enemies (td w)) w2) as [updatedEnemies w3].
  simpl in H3. subst updatedEnemies.
  repeat split; try reflexivity. exact H2.
Qed.

End TickLists.

(** X11: the enemy list that a tick in the playing phase leaves is made of
    the enemies of the list before the tick that have not reached the end
    of the path, each advanced by [speed * deltaTime] and otherwise as it
    was.  So a tick never adds an enemy (the one that a successful spawn
    roll appends is overwritten by the final write) and never lowers a
    health (the damage that the towers deal during the tick is overwritten
    too). *)
Theorem X11_tick_keeps_advanced_survivors (sqrt : Q -> Q) (env : TickEnv)
    (deltaTime : Q) (w : World) :
  gamePhase (td w) = playing ->
  let w' := updateGame sqrt env deltaTime w in
  enemies (td w') = survivors deltaTime (enemies (td w))
  /\ (length (enemies (td w')) <= length (enemies (td w)))%nat
  /\ (forall e', In e' (enemies (td w')) ->
        exists e, In e (enemies (td w))
          /\ Enemy.id e' = Enemy.id e
          /\ Enemy.health e' = Enemy.health e
          /\ Enemy.pathProgress e' = Enemy.pathProgress e + Enemy.speed e * deltaTime
          /\ Enemy.pathProgress e' < 1).
Proof.
  intros Hp w'.
  destruct (updateGame_playing_lists sqrt env deltaTime w Hp) as (_ & He & _).
  fold w' in He. rewrite He. split; [reflexivity|]. split.
  - unfold survivors. rewrite length_map. apply filter_length_le.
  - intros e' Hin. unfold survivors in Hin. apply in_map_iff in Hin.
    destruct Hin as (e & <- & Hin). apply filter_In in Hin. destruct Hin as [Hin Hb].
    exists e. repeat split; auto.
    apply negb_true_iff in Hb. unfold breaches in Hb. now apply Qle_bool_gt in Hb.
Qed.

Lemma X11_tick_keeps_advanced_survivors_witness :
  gamePhase (td guardedWorld) = playing
  /\ (let w' := updateGame Qsqrt spawningEnv 1 guardedWorld in
      List.map Enemy.health (enemies (td w')) = List.map Enemy.health (enemies (td guardedWorld))
      /\ length (enemies (td w')) = 1%nat
      /\ totalShots (td w') == 1).
Proof.
  assert (Hp : gamePhase (td guardedWorld) = playing) by reflexivity.
  split; [exact Hp|].
  destruct (X11_tick_keeps_advanced_survivors Qsqrt spawningEnv 1 guardedWorld Hp)
    as (He & _).
  cbv zeta. rewrite He. vm_compute. repeat split.
Defined.

(** X12: a tick in the playing phase keeps the towers in number and
    order and changes none of their id, position, type, level, damage,
    range and fire rate.  After the tick a tower whose [canFire] flag is set
    has not fired in this tick and its cooldown has elapsed:
    [gameTime - lastFired >= 1 / fireRate] at the new game time; a tower
    that fired has [lastFired] equal to the new game time, a cleared flag
    and a target. *)
Theorem X12_tick_towers_cooldown (sqrt : Q -> Q) (env : TickEnv)
    (deltaTime : Q) (w : World) :
  gamePhase (td w) = playing ->
  let w' := updateGame sqrt env deltaTime w in
  Forall2 (towerTicked (gameTime (td w'))) (towers (td w)) (towers (td w'))
  /\ List.map Tower.id (towers (td w')) = List.map Tower.id (towers (td w))
  /\ (forall tw', In tw' (towers (td w')) ->
        Tower.canFire tw' = true ->
        reachesPeriod (gameTime (td w') - Tower.lastFired tw') (Tower.fireRate tw') = true).
Proof.
  intros Hp w'.
  destruct (updateGame_playing_lists sqrt env deltaTime w Hp) as (Ht & _).
  destruct (updateGame_playing sqrt env deltaTime w Hp) as (_ & _ & _ & Hg & _).
  fold w' in Ht, Hg. rewrite <- Hg in Ht.
  split; [exact Ht|].
  induction Ht as [|tw tw' l l' H1 Hrest IH]; simpl.
  - split; [reflexivity|intros ? []].
  - destruct IH as [Hids Hcool]. split.
    + destruct H1 as (Hid & _). now rewrite Hid, Hids.
    + intros x [<-|Hx] Hc; [|now apply Hcool].
      destruct H1 as (_ & _ & _ & _ & _ & _ & _ & Hfire & _). now apply Hfire.
Qed.

Lemma X12_tick_towers_cooldown_witness :
  gamePhase (td guardedWorld) = playing
  /\ List.map Tower.id (towers (td (updateGame Qsqrt spawningEnv 1 guardedWorld)))
     = List.map Tower.id (towers (td guardedWorld)).
Proof.
  assert (Hp : gamePhase (td guardedWorld) = playing) by reflexivity.
  split; [exact Hp|].
  exact (proj1 (proj2 (X12_tick_towers_cooldown Qsqrt spawningEnv 1 guardedWorld Hp))).
Defined.

(** ** Pooled records are never returned *)

Lemma poolsGrow_refl w : poolsGrow w w.
Proof. split; intros x Hx; exact Hx. Qed.

Lemma poolsGrow_same w w' :
  laserPool w' = laserPool w -> particlePool w' = particlePool w -> poolsGrow w w'.
Proof. intros H1 H2. split; rewrite ?H1, ?H2; intros x Hx; exact Hx. Qed.

Ltac pools_same := apply poolsGrow_same; reflexivity.

Lemma poolsGrow_trans w1 w2 w3 : poolsGrow w1 w2 -> poolsGrow w2 w3 -> poolsGrow w1 w3.
Proof. intros [A1 A2] [B1 B2]. split; intros x Hx; auto. Qed.

Lemma acquire_inUse_grows p : inUse p ⊆ inUse (snd (acquire freshFactory p)).
Proof.
  unfold acquire. destruct (pop (available p)) as [[obj rest]|]; cbn [snd inUse];
    intros x Hx; apply elem_of_union; now right.
Qed.

Lemma addParticleEffect_pools pid pos ty col life w :
  poolsGrow w (addParticleEffect pid pos ty col life w).
Proof.
  unfold addParticleEffect.
  pose proof (acquire_inUse_grows (particlePool w)) as H.
  destruct (acquire freshFactory (particlePool w)) as [o p]. simpl in H.
  split; simpl; [intros x Hx; exact Hx|exact H].
Qed.

Lemma damageEnemy_pools pid enemyId damage w :
  poolsGrow w (damageEnemy pid enemyId damage w).
Proof.
  unfold damageEnemy.
  destruct (List.find _ _) as [enemy|]; [|pools_same].
  destruct (Qle_bool _ 0).
  - eapply poolsGrow_trans; [|pools_same].
    eapply poolsGrow_trans; [|apply addParticleEffect_pools].
    pools_same.
  - eapply poolsGrow_trans; [|apply addParticleEffect_pools].
    pools_same.
Qed.

Lemma fireLaser_pools lid pid towerId targetId w :
  poolsGrow w (fireLaser lid pid towerId targetId w).
Proof.
  unfold fireLaser.
  destruct (List.find _ (towers _)) as [tw|]; [|pools_same].
  destruct (List.find _ (enemies _)) as [target|]; [|pools_same].
  pose proof (acquire_inUse_grows (laserPool w)) as H.
  destruct (acquire freshFactory (laserPool w)) as [o p]. simpl in H.
  eapply poolsGrow_trans; [|apply damageEnemy_pools].
  split; simpl; [exact H|intros x Hx; exact Hx].
Qed.

Lemma damageAll_pools env dmg es : forall i w,
  poolsGrow w (damageAll env dmg i es w).
Proof.
  induction es as [|e rest IH]; simpl; intros i w; [pools_same|].
  eapply poolsGrow_trans; [apply damageEnemy_pools|apply IH].
Qed.

Lemma updateEnemies_pools deltaTime es : forall w,
  poolsGrow w (snd (updateEnemies deltaTime es w)).
Proof.
  induction es as [|enemy rest IH]; intros w; simpl; [pools_same|].
  unfold updateEnemy. destruct (Qle_bool 1 _).
  - specialize (IH (withTD (fun s => set_lives (lives s - 1) s) w)).
    destruct (updateEnemies deltaTime rest _) as [rs w2]. exact IH.
  - specialize (IH w). destruct (updateEnemies deltaTime rest w) as [rs w2]. exact IH.
Qed.

Section PoolLeak.

Variable sqrt : Q -> Q.

Lemma updateTower_pools env t state i tw w :
  poolsGrow w (snd (updateTower sqrt env t state i tw w)).
Proof.
  unfold updateTower.
  set (cur := if truthy (Tower.currentTargetId tw) then _ else _).
  assert (Hts : forall ts, poolsGrow w (withTargeting ts w))
    by (intros; pools_same).
  destruct (negb (truthy cur)).
  - destruct (findBestTarget _ _ _ _ _) as [r ts'].
    destruct r as [targetId|]; [|apply Hts].
    destruct (_ && _); [|apply Hts]. simpl.
    eapply poolsGrow_trans; [apply (Hts ts')|apply fireLaser_pools].
  - destruct cur as [targetId|]; [|pools_same].
    destruct (_ && _); [|pools_same]. simpl.
    apply fireLaser_pools.
Qed.

Lemma updateTowers_pools env t state tws : forall i w,
  poolsGrow w (snd (updateTowers sqrt env t state i tws w)).
Proof.
  induction tws as [|tw rest IH]; simpl; intros i w; [pools_same|].
  pose proof (updateTower_pools env t state i tw w) as H1.
  destruct (updateTower sqrt env t state i tw w) as [tw' w1].
  pose proof (IH (S i) w1) as H2.
  destruct (updateTowers sqrt env t state (S i) rest w1) as [rest' w2].
  simpl in *. eapply poolsGrow_trans; eauto.
Qed.

Lemma updateGame_pools env deltaTime w :
  poolsGrow w (updateGame sqrt env deltaTime w).
Proof.
  unfold updateGame.
  destruct (negb (GamePhase_eqb (gamePhase (td w)) playing)); [pools_same|].
  set (w1 := if _ && _ then spawnEnemy _ _ w else w).
  assert (H1 : poolsGrow w w1).
  { unfold w1. destruct (_ && _); [|pools_same].
    unfold spawnEnemy. destruct (enemyConfig normal) as [[h s] r]. pools_same. }
  clearbody w1.
  pose proof (updateTowers_pools env (gameTime (td w) + deltaTime)
                (td w) (towers (td w)) 0%nat w1) as H2.
  destruct (updateTowers _ _ _ _ _ _ w1) as [updatedTowers w2]. simpl in H2.
  pose proof (updateEnemies_pools deltaTime (enemies (td w)) w2) as H3.
  destruct (updateEnemies deltaTime (enemies (td w)) w2) as [updatedEnemies w3].
  simpl in H3.
  eapply poolsGrow_trans; [exact H1|]. eapply poolsGrow_trans; [exact H2|].
  eapply poolsGrow_trans; [exact H3|].
  destruct (Qle_bool (lives (td w)) 0); destruct (_ && _);
    try destruct (Qle_bool (totalWaves (td w)) (currentWave (td w)));
    pools_same.
Qed.

Lemma playCard_pools env cardId w :
  poolsGrow w (snd (playCard sqrt env cardId w)).
Proof.
  unfold playCard.
  destruct (List.find _ (hand (cards w))) as [card|]; simpl; [|pools_same].
  destruct (Qltb (money (td w)) (Card.cost card)); simpl; [pools_same|].
  assert (H : poolsGrow w (snd (match Card.type card with
                                | tower_card => playTowerCard sqrt env card w
                                | spell_card => playSpellCard env card w
                                | upgrade_card => playUpgradeCard card w
                                end))).
  { destruct (Card.type card).
    - unfold playTowerCard. destruct (List.filter _ towerPositions); simpl;
        [pools_same|].
      unfold placeTower. destruct (Qle_bool _ _); pools_same.
    - unfold playSpellCard. destruct (Card.effect card) as [eff|]; simpl;
        [|pools_same].
      destruct (String.eqb eff "damage_all"); simpl; [apply damageAll_pools|].
      destruct (String.eqb eff "slow_all"); pools_same.
    - unfold playUpgradeCard. destruct (towers (td w)); pools_same. }
  destruct (match Card.type card with
            | tower_card => _ | spell_card => _ | upgrade_card => _ end)
    as [success w1].
  simpl in H. destruct success; simpl; [|exact H].
  eapply poolsGrow_trans; [exact H|pools_same].
Qed.

Lemma step_pools a w : poolsGrow w (step sqrt w a).
Proof.
  destruct a; simpl; try pools_same.
  - unfold spawnEnemy. destruct (enemyConfig type) as [[h s] r]. pools_same.
  - unfold placeTower. destruct (Qle_bool _ _); pools_same.
  - apply updateGame_pools.
  - apply playCard_pools.
  - unfold drawCard.
    destruct (Qle_bool _ _); [pools_same|].
    destruct (Qltb _ _); [pools_same|].
    destruct (deck (cards w)) as [|c rest]; [|pools_same].
    destruct (discardPile (cards w)); pools_same.
  - unfold discardCard. destruct (List.find _ _); pools_same.
Qed.

End PoolLeak.

(** X13: no command of the store ever gives a pooled record back: along
    any run of store commands (ticks, restarts, card plays, ...) the set of
    laser records in use and the set of particle records in use only grow,
    and so do their sizes.  Neither the tick, which drops expired beams and
    particles from its lists, nor a restart calls [release] or
    [releaseAll]. *)
Theorem X13_pooled_records_never_released (sqrt : Q -> Q) (actions : list Action)
    (w : World) :
  let w' := run sqrt actions w in
  inUse (laserPool w) ⊆ inUse (laserPool w')
  /\ inUse (particlePool w) ⊆ inUse (particlePool w')
  /\ (size (inUse (laserPool w)) <= size (inUse (laserPool w')))%nat
  /\ (size (inUse (particlePool w)) <= size (inUse (particlePool w')))%nat.
Proof.
  assert (H : forall v, poolsGrow v (run sqrt actions v)).
  { unfold run. induction actions as [|a actions IH]; simpl; intros v.
    - pools_same.
    - eapply poolsGrow_trans; [apply step_pools|apply IH]. }
  intros w'. destruct (H w) as [H1 H2].
  repeat split; auto; now apply subseteq_size.
Qed.

(** ** Shots, beams and waves *)

(** What [damageEnemy] never touches. *)
Lemma damageEnemy_frame pid enemyId damage w :
  let w' := damageEnemy pid enemyId damage w in
  laserBeams (td w') = laserBeams (td w)
  /\ totalShots (td w') = totalShots (td w)
  /\ towers (td w') = towers (td w)
  /\ gameTime (td w') = gameTime (td w).
Proof.
  unfold damageEnemy. destruct (List.find _ _) as [enemy|]; [|now repeat split].
  destruct (Qle_bool _ 0); unfold addParticleEffect, removeEnemy;
    destruct (acquire freshFactory _) as [o p]; now repeat split.
Qed.

Lemma damageEnemy_hit pid enemyId damage w enemy :
  List.find (fun e => String.eqb (Enemy.id e) enemyId) (enemies (td w)) = Some enemy ->
  hitShots (td (damageEnemy pid enemyId damage w)) = hitShots (td w) + 1.
Proof.
  intros Hf. unfold damageEnemy. rewrite Hf.
  destruct (Qle_bool _ 0); unfold addParticleEffect, removeEnemy;
    destruct (acquire freshFactory _) as [o p]; reflexivity.
Qed.

(** X14: [fireLaser] with a tower id or a target id that is not in the
    store changes nothing: no record is leased and no shot is counted.
    With both present it appends one beam, from 1.5 above the tower to the
    target, carrying the damage of the tower, and adds one to both
    [totalShots] and [hitShots]: every shot fired is counted as a hit. *)
Theorem X14_fireLaser_counts_every_shot_as_hit (lid pid towerId targetId : string)
    (w : World) :
  let w' := fireLaser lid pid towerId targetId w in
  let tower := List.find (fun t => String.eqb (Tower.id t) towerId) (towers (td w)) in
  let target := List.find (fun e => String.eqb (Enemy.id e) targetId) (enemies (td w)) in
  (tower = None \/ target = None -> w' = w)
  /\ (forall tw e, tower = Some tw -> target = Some e ->
        totalShots (td w') = totalShots (td w) + 1
        /\ hitShots (td w') = hitShots (td w) + 1
        /\ exists beam,
             laserBeams (td w') = laserBeams (td w) ++ [beam]
             /\ LaserBeam.id beam = lid
             /\ LaserBeam.damage beam = Tower.damage tw
             /\ LaserBeam.end_ beam = Enemy.position e
             /\ vy (LaserBeam.start beam) = vy (Tower.position tw) + 1.5).
Proof.
  cbv zeta. unfold fireLaser.
  destruct (List.find _ (towers (td w))) as [tw|].
  - destruct (List.find _ (enemies (td w))) as [e|] eqn:Ee.
    + split; [intros [H|H]; discriminate|].
      intros tw0 e0 [= <-] [= <-].
      destruct (acquire freshFactory (laserPool w)) as [o p].
      match goal with
      | |- context [damageEnemy pid targetId ?d ?w1] =>
          destruct (damageEnemy_frame pid targetId d w1) as (Hb & Ht & _);
          pose proof (damageEnemy_hit pid targetId d w1 e Ee) as Hh
      end.
      cbv zeta in Hb, Ht. rewrite Ht, Hh, Hb. cbn.
      repeat split. eexists. repeat split.
    + split; [reflexivity|]. intros tw0 e0 _ H. discriminate.
  - split; [reflexivity|]. intros tw0 e0 H. discriminate.
Qed.

Section BeamsFacts.

Variable sqrt : Q -> Q.

Lemma damageAll_beams env dmg es : forall i w,
  laserBeams (td (damageAll env dmg i es w)) = laserBeams (td w).
Proof.
  induction es as [|e rest IH]; simpl; intros i w; [reflexivity|].
  rewrite IH. apply damageEnemy_frame.
Qed.

Lemma playCard_beams env cardId w :
  laserBeams (td (snd (playCard sqrt env cardId w))) = laserBeams (td w).
Proof.
  unfold playCard.
  destruct (List.find _ (hand (cards w))) as [card|]; simpl; [|reflexivity].
  destruct (Qltb (money (td w)) (Card.cost card)); simpl; [reflexivity|].
  assert (H : laserBeams (td (snd (match Card.type card with
                                   | tower_card => playTowerCard sqrt env card w
                                   | spell_card => playSpellCard env card w
                                   | upgrade_card => playUpgradeCard card w
                                   end))) = laserBeams (td w)).
  { destruct (Card.type card).
    - unfold playTowerCard. destruct (List.filter _ towerPositions); simpl;
        [reflexivity|].
      unfold placeTower. destruct (Qle_bool _ _); reflexivity.
    - unfold playSpellCard. destruct (Card.effect card) as [eff|]; simpl;
        [|reflexivity].
      destruct (String.eqb eff "damage_all"); simpl; [apply damageAll_beams|].
      destruct (String.eqb eff "slow_all"); reflexivity.
    - unfold playUpgradeCard. destruct (towers (td w)); reflexivity. }
  destruct (match Card.type card with
            | tower_card => _ | spell_card => _ | upgrade_card => _ end)
    as [success w1].
  simpl in H. destruct success; simpl; exact H.
Qed.

Lemma step_beams a w :
  laserBeams (td w) = [] -> laserBeams (td (step sqrt w a)) = [].
Proof.
  intros H. destruct a; simpl; try exact H; try reflexivity.
  - unfold spawnEnemy. destruct (enemyConfig type) as [[h s] r]. exact H.
  - unfold placeTower. destruct (Qle_bool _ _); exact H.
  - destruct (gamePhase (td w)) eqn:Hp;
      try (rewrite updateGame_not_playing by (rewrite Hp; discriminate); exact H).
    destruct (updateGame_playing_lists sqrt env deltaTime w Hp) as (_ & _ & Hb & _).
    rewrite Hb, H. reflexivity.
  - now rewrite playCard_beams.
  - unfold drawCard.
    destruct (Qle_bool _ _); [exact H|]. destruct (Qltb _ _); [exact H|].
    destruct (deck (cards w)) as [|c rest]; [|exact H].
    destruct (discardPile (cards w)); exact H.
  - unfold discardCard. destruct (List.find _ _); exact H.
Qed.

End BeamsFacts.

(** X15: no laser beam ever stays in the store.  [fireLaser] is called
    only inside a tick, and the final write of the tick replaces the beam
    list by the decayed beams of the snapshot taken before the towers
    fired; so in every state reached from the initial one by store commands
    [laserBeams] is empty, however many shots [totalShots] counts. *)
Theorem X15_laser_beams_never_stored (sqrt : Q -> Q) (actions : list Action) :
  laserBeams (td (run sqrt actions initialWorld)) = [].
Proof.
  assert (H : forall w, laserBeams (td w) = [] ->
                        laserBeams (td (run sqrt actions w)) = []).
  { unfold run. induction actions as [|a actions IH]; simpl; intros w Hw; [exact Hw|].
    apply IH. now apply step_beams. }
  apply H. reflexivity.
Qed.

(** X16: [nextWave] has no guard: whatever the phase, the enemies on the
    field and the number of waves, each call adds one to [currentWave] and
    50 to the money and resets the wave progress, so [n] calls in a row
    give [50 * n] money and move [currentWave] past [totalWaves]. *)
Theorem X16_nextWave_unguarded (n : nat) (w : World) :
  let w' := Nat.iter n nextWave w in
  currentWave (td w') == currentWave (td w) + inject_Z (Z.of_nat n)
  /\ money (td w') == money (td w) + 50 * inject_Z (Z.of_nat n)
  /\ gamePhase (td w') = gamePhase (td w)
  /\ totalWaves (td w') = totalWaves (td w)
  /\ enemies (td w') = enemies (td w)
  /\ ((0 < n)%nat -> waveProgress (td w') = 0).
Proof.
  induction n as [|n IH]; cbv zeta in *.
  - simpl. repeat split; try reflexivity; try lia.
    + change (inject_Z (Z.of_nat 0)) with 0. lra.
    + change (inject_Z (Z.of_nat 0)) with 0. lra.
  - destruct IH as (Hc & Hm & Hp & Ht & He & _).
    rewrite Nat2Z.inj_succ, <- Z.add_1_r, inject_Z_plus.
    change (inject_Z 1) with 1. simpl Nat.iter. unfold nextWave at 1 3 5 7 9 11.
    cbn. rewrite Hc, Hm. repeat split; auto; lra.
Qed.

(** ** Card plays *)

Lemma filter_nil_existsb {A} (f : A -> bool) (l : list A) :
  List.filter f l = [] <-> existsb f l = false.
Proof.
  induction l as [|a l IH]; simpl; [tauto|].
  destruct (f a); simpl; [split; discriminate|exact IH].
Qed.

(** X17: [playTowerCard] tries six fixed positions in order and takes the
    first at which no tower stands within distance 2; it fails, changing
    nothing, exactly when none of the six is free.  When it succeeds it
    hands that position to [placeTower]: with at least 50 money one level-1
    tower named after the card is appended and 50 is charged; with less, it
    still reports success although nothing is placed. *)
Theorem X17_playTowerCard_first_free_position (sqrt : Q -> Q) (env : PlayEnv)
    (card : Card.t) (w : World) :
  let r := playTowerCard sqrt env card w in
  let free := positionFree sqrt (towers (td w)) in
  (fst r = false <-> forall pos, In pos towerPositions -> free pos = false)
  /\ (fst r = false -> snd r = w)
  /\ (fst r = true ->
      exists pos before after,
        towerPositions = before ++ pos :: after
        /\ free pos = true
        /\ (forall p, In p before -> free p = false)
        /\ (50 <= money (td w) ->
              towers (td (snd r))
                = towers (td w) ++ [newTowerAt (placedTowerId env) pos (Card.name card)]
              /\ money (td (snd r)) = money (td w) - 50)
        /\ (money (td w) < 50 -> snd r = w)).
Proof.
  cbv zeta. unfold playTowerCard.
  change (fun pos => negb (existsb (fun tw => Qltb (distanceTo sqrt (Tower.position tw) pos) 2)
                             (towers (td w))))
    with (positionFree sqrt (towers (td w))).
  destruct (List.filter (positionFree sqrt (towers (td w))) towerPositions)
    as [|pos m] eqn:Ef; cbn [fst snd].
  - split; [split; [intros _; now apply filter_nil_iff|reflexivity]|].
    split; [reflexivity|discriminate].
  - split; [split; [discriminate|]|].
    { intros Hall. apply filter_nil_iff in Hall. rewrite Hall in Ef. discriminate. }
    split; [discriminate|]. intros _.
    apply (filter_split _ _ [] m pos) in Ef.
    destruct Ef as (before & after & E & F1 & _ & Ft).
    exists pos, before, after. split; [exact E|]. split; [exact Ft|].
    split; [now apply filter_nil_iff|].
    unfold placeTower. split.
    + intros Hm. apply Qle_bool_iff in Hm. rewrite Hm. split; reflexivity.
    + intros Hm. apply Qle_bool_gt in Hm. now rewrite Hm.
Qed.

Section PlayFacts.

Variable sqrt : Q -> Q.

Lemma effect_success_iff env card w :
  fst (match Card.type card with
       | tower_card => playTowerCard sqrt env card w
       | spell_card => playSpellCard env card w
       | upgrade_card => playUpgradeCard card w
       end) = effectApplies sqrt card w.
Proof.
  unfold effectApplies. destruct (Card.type card).
  - unfold playTowerCard.
    change (fun pos => negb (existsb (fun tw => Qltb (distanceTo sqrt (Tower.position tw) pos) 2)
                               (towers (td w))))
      with (positionFree sqrt (towers (td w))).
    destruct (List.filter _ towerPositions) as [|pos m] eqn:Ef; cbn [fst].
    + apply filter_nil_existsb in Ef. now rewrite Ef.
    + destruct (existsb _ towerPositions) eqn:Ee; [reflexivity|].
      apply filter_nil_existsb in Ee. rewrite Ee in Ef. discriminate.
  - unfold playSpellCard. destruct (Card.effect card) as [eff|]; [|reflexivity].
    destruct (String.eqb eff "damage_all"); [reflexivity|].
    destruct (String.eqb eff "slow_all"); reflexivity.
  - unfold playUpgradeCard. destruct (towers (td w)); reflexivity.
Qed.

End PlayFacts.

(** X18: [playCard] is accepted exactly when the hand holds a card with
    the given id (the first such card is played), the money covers its
    cost, and its effect can be applied: for a tower card one of the six
    positions is free, for a spell the effect is [damage_all] or [slow_all]
    (every other effect name is rejected), for an upgrade at least one
    tower stands. *)
Theorem X18_playCard_accepted_iff (sqrt : Q -> Q) (env : PlayEnv) (cardId : string)
    (w : World) :
  fst (playCard sqrt env cardId w) = true <->
  exists card,
    List.find (fun c => String.eqb (Card.id c) cardId) (hand (cards w)) = Some card
    /\ Card.cost card <= money (td w)
    /\ effectApplies sqrt card w = true.
Proof.
  unfold playCard.
  destruct (List.find _ (hand (cards w))) as [card|]; cbn [fst].
  - destruct (Qltb (money (td w)) (Card.cost card)) eqn:Em; cbn [fst].
    + apply Qltb_lt in Em. split; [discriminate|].
      intros (c & [= <-] & Hc & _). lra.
    + apply Qltb_ge in Em.
      pose proof (effect_success_iff sqrt env card w) as He.
      destruct (match Card.type card with
                | tower_card => _ | spell_card => _ | upgrade_card => _ end)
        as [success w1].
      cbn [fst] in He. subst success.
      destruct (effectApplies sqrt card w) eqn:Ea; cbn [fst].
      * split; [intros _; exists card; auto|reflexivity].
      * split; [discriminate|]. intros (c & [= <-] & _ & H). congruence.
  - split; [discriminate|]. intros (c & H & _). discriminate.
Qed.

(** X19: what an accepted play charges.  An upgrade card costs its cost
    and keeps the number of towers.  A tower card played with at least 50
    money costs 50 more than its cost, because [placeTower] charges its own
    price first, and adds one tower; played with less than 50 money it
    costs its cost and places nothing. *)
Theorem X19_playCard_charges (sqrt : Q -> Q) (env : PlayEnv) (cardId : string)
    (w : World) (card : Card.t) :
  List.find (fun c => String.eqb (Card.id c) cardId) (hand (cards w)) = Some card ->
  fst (playCard sqrt env cardId w) = true ->
  let w' := snd (playCard sqrt env cardId w) in
  (Card.type card = upgrade_card ->
     money (td w') = money (td w) - Card.cost card
     /\ length (towers (td w')) = length (towers (td w)))
  /\ (Card.type card = tower_card -> 50 <= money (td w) ->
     money (td w') = money (td w) - 50 - Card.cost card
     /\ length (towers (td w')) = S (length (towers (td w))))
  /\ (Card.type card = tower_card -> money (td w) < 50 ->
     money (td w') = money (td w) - Card.cost card
     /\ towers (td w') = towers (td w)).
Proof.
  intros Hf. unfold playCard. rewrite Hf.
  destruct (Qltb (money (td w)) (Card.cost card)); cbn [fst snd]; [discriminate|].
  split; [|split].
  - intros Ht. rewrite Ht in *. unfold playUpgradeCard in *.
    destruct (towers (td w)) as [|tw0 rest] eqn:Et; cbn [fst snd] in *; [discriminate|].
    cbn. rewrite Et. cbn. split; [reflexivity|]. now rewrite length_map.
  - intros Ht Hm. rewrite Ht in *. unfold playTowerCard in *.
    destruct (List.filter _ towerPositions) as [|pos m]; cbn [fst snd] in *; [discriminate|].
    unfold placeTower. apply Qle_bool_iff in Hm. rewrite Hm. cbn.
    split; [reflexivity|]. rewrite length_app. simpl. lia.
  - intros Ht Hm. rewrite Ht in *. unfold playTowerCard in *.
    destruct (List.filter _ towerPositions) as [|pos m]; cbn [fst snd] in *; [discriminate|].
    unfold placeTower. apply Qle_bool_gt in Hm. rewrite Hm. cbn. split; reflexivity.
Qed.

Lemma X19_playCard_charges_witness :
  (List.find (fun c => String.eqb (Card.id c) "c1") (hand (cards towerCardWorld))
     = Some basicTowerCard
   /\ fst (playCard Qsqrt playEnv "c1" towerCardWorld) = true
   /\ Card.type basicTowerCard = tower_card
   /\ 50 <= money (td towerCardWorld))
  /\ money (td (snd (playCard Qsqrt playEnv "c1" towerCardWorld)))
     = money (td towerCardWorld) - 50 - Card.cost basicTowerCard.
Proof.
  assert (H1 : List.find (fun c => String.eqb (Card.id c) "c1")
                 (hand (cards towerCardWorld)) = Some basicTowerCard) by reflexivity.
  assert (H2 : fst (playCard Qsqrt playEnv "c1" towerCardWorld) = true)
    by (vm_compute; reflexivity).
  assert (H3 : Card.type basicTowerCard = tower_card) by reflexivity.
  assert (H4 : 50 <= money (td towerCardWorld)) by (vm_compute; discriminate).
  split; [auto|].
  destruct (X19_playCard_charges Qsqrt playEnv "c1" towerCardWorld basicTowerCard H1 H2)
    as (_ & Htower & _).
  exact (proj1 (Htower H3 H4)).
Defined.

(** ** Hand, draw pile and discard pile *)

Lemma filter_partition_length {A} (f : A -> bool) (l : list A) :
  (length (List.filter f l) + length (List.filter (fun a => negb (f a)) l)
   = length l)%nat.
Proof.
  induction l as [|a l IH]; simpl; [reflexivity|].
  destruct (f a); simpl; lia.
Qed.

Lemma find_filter_head {A} (f : A -> bool) (l : list A) :
  List.find f l = hd_error (List.filter f l).
Proof.
  induction l as [|a l IH]; simpl; [reflexivity|]. now destruct (f a).
Qed.

(** X20: [discardCard] with an id that no card of the hand carries
    changes nothing.  When exactly one card of the hand carries the id,
    that card moves from the hand to the end of the discard pile and the
    number of cards over hand, draw pile and discard pile is kept; nothing
    is paid or refunded.  (When [k] cards of the hand share the id, all [k]
    leave the hand and only the first reaches the discard pile.) *)
Theorem X20_discardCard_moves_the_card (cardId : string) (w : World) :
  let same := fun k => String.eqb (Card.id k) cardId in
  let w' := discardCard cardId w in
  (List.filter same (hand (cards w)) = [] -> w' = w)
  /\ (forall card others, List.filter same (hand (cards w)) = card :: others ->
        hand (cards w') = List.filter (fun k => negb (same k)) (hand (cards w))
        /\ discardPile (cards w') = discardPile (cards w) ++ [card]
        /\ deck (cards w') = deck (cards w)
        /\ td w' = td w
        /\ (cardCount w' + length others = cardCount w)%nat).
Proof.
  cbv zeta. unfold discardCard. rewrite find_filter_head.
  split.
  - intros E. now rewrite E.
  - intros card others E. rewrite E. cbn [hd_error].
    unfold cardCount. cbn. repeat split.
    rewrite length_app. simpl.
    pose proof (filter_partition_length (fun k => String.eqb (Card.id k) cardId)
                  (hand (cards w))) as Hl.
    rewrite E in Hl. simpl in Hl. lia.
Qed.

Lemma X20_discardCard_moves_the_card_witness :
  List.filter (fun k => String.eqb (Card.id k) "c1") (hand (cards towerCardWorld))
    = [basicTowerCard]
  /\ discardPile (cards (discardCard "c1" towerCardWorld)) = [basicTowerCard]
  /\ (cardCount (discardCard "c1" towerCardWorld) + 0 = cardCount towerCardWorld)%nat.
Proof.
  assert (H : List.filter (fun k => String.eqb (Card.id k) "c1")
                (hand (cards towerCardWorld)) = [basicTowerCard]) by reflexivity.
  split; [exact H|].
  destruct (proj2 (X20_discardCard_moves_the_card "c1" towerCardWorld)
              basicTowerCard [] H) as (_ & Hd & _ & _ & Hc).
  split; [exact Hd|exact Hc].
Defined.

Lemma lengthQ_snoc_le {A} (l : list A) (a : A) (m : Q) :
  m == 7 -> lengthQ l < m -> lengthQ (l ++ [a]) <= 7.
Proof.
  unfold lengthQ. intros Hm Hl. rewrite Hm in Hl.
  change 7 with (inject_Z 7) in *. rewrite <- Zlt_Qlt in Hl. rewrite <- Zle_Qle.
  rewrite length_app. simpl. lia.
Qed.

Lemma lengthQ_filter_le {A} (f : A -> bool) (l : list A) :
  lengthQ (List.filter f l) <= lengthQ l.
Proof.
  unfold lengthQ. rewrite <- Zle_Qle. pose proof (filter_length_le f l). lia.
Qed.

Section HandFacts.

Variable sqrt : Q -> Q.

Lemma playCard_handWithin env cardId w :
  handWithin w -> handWithin (snd (playCard sqrt env cardId w)).
Proof.
  intros [Hm Hl]. unfold playCard.
  destruct (List.find _ (hand (cards w))) as [card|]; simpl; [|now split].
  destruct (Qltb (money (td w)) (Card.cost card)); simpl; [now split|].
  pose proof (card_effect_outcome sqrt env card w) as H. simpl in H.
  destruct (match Card.type card with
            | tower_card => _ | spell_card => _ | upgrade_card => _ end)
    as [success w1].
  simpl in H. destruct H as [_ (_ & _ & _ & _ & _ & Hc)].
  unfold handWithin. destruct success; simpl; rewrite Hc; [|now split].
  split; [exact Hm|]. eapply Qle_trans; [apply lengthQ_filter_le|exact Hl].
Qed.

Lemma drawCard_handWithin shuffle w :
  handWithin w -> handWithin (snd (drawCard shuffle w)).
Proof.
  intros [Hm Hl]. unfold drawCard.
  destruct (Qle_bool (maxHandSize (cards w)) (lengthQ (hand (cards w)))) eqn:E1;
    [now split|].
  apply Qle_bool_gt in E1.
  destruct (Qltb _ _); [now split|].
  assert (Hs : forall c, lengthQ (hand (cards w) ++ [c]) <= 7)
    by (intros c; apply (lengthQ_snoc_le _ _ (maxHandSize (cards w)));
        [now rewrite Hm|exact E1]).
  destruct (deck (cards w)) as [|c rest].
  - destruct (discardPile (cards w)) as [|d drest]; [now split|].
    split; [exact Hm|apply Hs].
  - split; [exact Hm|apply Hs].
Qed.

Lemma step_handWithin a w : handWithin w -> handWithin (step sqrt w a).
Proof.
  intros H. destruct a; simpl; try exact H.
  - unfold spawnEnemy. destruct (enemyConfig type) as [[h s] r]. exact H.
  - unfold placeTower. destruct (Qle_bool _ _); exact H.
  - destruct (gamePhase (td w)) eqn:Hp;
      try (rewrite updateGame_not_playing by (rewrite Hp; discriminate); exact H).
    destruct (updateGame_playing sqrt env deltaTime w Hp) as (_ & _ & _ & _ & Hc).
    unfold handWithin. now rewrite Hc.
  - now apply playCard_handWithin.
  - now apply drawCard_handWithin.
  - destruct H as [Hm Hl]. unfold discardCard.
    destruct (List.find _ _); [|now split].
    split; [exact Hm|]. simpl.
    eapply Qle_trans; [apply lengthQ_filter_le|exact Hl].
Qed.

End HandFacts.

(** X21: in every state reached from the initial one by store commands
    the hand holds at most 7 cards: [drawCard] is the only command that
    adds to the hand, and it refuses at 7. *)
Theorem X21_hand_never_above_capacity (sqrt : Q -> Q) (actions : list Action) :
  let w := run sqrt actions initialWorld in
  maxHandSize (cards w) = 7 /\ (length (hand (cards w)) <= 7)%nat.
Proof.
  assert (H : forall v, handWithin v -> handWithin (run sqrt actions v)).
  { unfold run. induction actions as [|a actions IH]; simpl; intros v Hv; [exact Hv|].
    apply IH. now apply step_handWithin. }
  intros w. unfold w. destruct (H initialWorld) as [Hm Hl].
  - split; [reflexivity|]. vm_compute. discriminate.
  - split; [exact Hm|]. unfold lengthQ in Hl.
    change 7 with (inject_Z 7) in Hl. rewrite <- Zle_Qle in Hl. lia.
Qed.

Lemma drawCard_count shuffle w :
  cardCount (snd (drawCard shuffle w)) = cardCount w.
Proof.
  unfold drawCard, cardCount.
  destruct (Qle_bool _ _); [reflexivity|]. destruct (Qltb _ _); [reflexivity|].
  destruct (deck (cards w)) as [|c rest] eqn:Ed.
  - destruct (discardPile (cards w)) as [|d drest] eqn:Ep; simpl.
    + now rewrite Ed, Ep.
    + rewrite length_app. simpl. lia.
  - simpl. rewrite length_app. simpl. lia.
Qed.

Lemma drawCard_from_deck shuffle w c rest :
  deck (cards w) = c :: rest ->
  lengthQ (hand (cards w)) < maxHandSize (cards w) ->
  10 <= money (td w) ->
  drawCard shuffle w
  = (true,
     withTD (fun s => set_money (money s - 10) s)
       (withCards (fun k => set_deck rest (set_hand (hand (cards w) ++ [c]) k)) w)).
Proof.
  intros Hd Hh Hm. unfold drawCard.
  apply Qle_bool_gt in Hh. rewrite Hh.
  apply Qltb_ge in Hm. rewrite Hm. now rewrite Hd.
Qed.

Lemma drawCard_broke shuffle w : money (td w) < 10 -> drawCard shuffle w = (false, w).
Proof.
  intros Hm. unfold drawCard. destruct (Qle_bool _ _); [reflexivity|].
  apply Qltb_lt in Hm. now rewrite Hm.
Qed.

(** X22: [initializeCards] replaces the three piles by a deck of eight
    cards and then draws three times at the normal price.  Whatever the
    money, eight cards are in hand and draw pile together and the discard
    pile is empty.  With at least 30 money (and a hand capacity of at least
    3) the hand holds the three basic towers, the draw pile the other five
    cards, and 30 has been paid; with less than 10 money the hand stays
    empty. *)
Theorem X22_initializeCards_pays_for_the_hand (ids : nat -> string)
    (shuffle : list Card.t -> list Card.t) (w : World) :
  let w' := initializeCards ids shuffle w in
  cardCount w' = 8%nat
  /\ (3 <= maxHandSize (cards w) -> 30 <= money (td w) ->
      hand (cards w')
        = [basicTower (ids 0%nat); basicTower (ids 1%nat); basicTower (ids 2%nat)]
      /\ deck (cards w')
        = [damageSpell (ids 3%nat); damageSpell (ids 4%nat);
           rangeUpgrade (ids 5%nat); rangeUpgrade (ids 6%nat); laserTower (ids 7%nat)]
      /\ discardPile (cards w') = []
      /\ money (td w') == money (td w) - 30)
  /\ (money (td w) < 10 ->
      hand (cards w') = [] /\ deck (cards w') = startingDeck ids
      /\ money (td w') = money (td w)).
Proof.
  cbv zeta. unfold initializeCards.
  set (w0 := withCards _ w).
  split; [|split].
  - now rewrite !drawCard_count.
  - intros Hcap Hm.
    assert (L0 : lengthQ (@nil Card.t) == 0) by reflexivity.
    assert (L1 : forall a : Card.t, lengthQ [a] == 1) by reflexivity.
    assert (L2 : forall a b : Card.t, lengthQ [a; b] == 2) by reflexivity.
    rewrite (drawCard_from_deck shuffle w0 (basicTower (ids 0%nat))
               (List.tl (startingDeck ids)));
      [|reflexivity|cbn; rewrite L0; lra|cbn; lra].
    cbn [snd].
    match goal with |- context [drawCard shuffle ?v] =>
      rewrite (drawCard_from_deck shuffle v (basicTower (ids 1%nat))
                 (List.tl (List.tl (startingDeck ids))));
        [|reflexivity|cbn; rewrite L1; lra|cbn; lra]
    end.
    cbn [snd].
    match goal with |- context [drawCard shuffle ?v] =>
      rewrite (drawCard_from_deck shuffle v (basicTower (ids 2%nat))
                 (List.tl (List.tl (List.tl (startingDeck ids)))));
        [|reflexivity|cbn; rewrite L2; lra|cbn; lra]
    end.
    cbn. repeat split; try reflexivity. lra.
  - intros Hm.
    rewrite (drawCard_broke shuffle w0) by exact Hm. cbn [snd].
    rewrite (drawCard_broke shuffle w0) by exact Hm. cbn [snd].
    rewrite (drawCard_broke shuffle w0) by exact Hm. cbn. repeat split.
Qed.

Lemma X22_initializeCards_pays_for_the_hand_witness :
  (3 <= maxHandSize (cards initialWorld) /\ 30 <= money (td initialWorld))
  /\ money (td (initializeCards cardIds (fun l => l) initialWorld)) == 100 - 30
  /\ length (hand (cards (initializeCards cardIds (fun l => l) initialWorld))) = 3%nat.
Proof.
  assert (H1 : 3 <= maxHandSize (cards initialWorld)) by (vm_compute; discriminate).
  assert (H2 : 30 <= money (td initialWorld)) by (vm_compute; discriminate).
  split; [auto|].
  destruct (X22_initializeCards_pays_for_the_hand cardIds (fun l => l) initialWorld)
    as (_ & Hpaid & _).
  destruct (Hpaid H1 H2) as (Hh & _ & _ & Hm).
  split; [exact Hm|]. now rewrite Hh.
Defined.

(** ** Armor and resistance helpers *)

(** X23: for a non-negative armor [calculateArmorReduction] never returns
    less than 1, even for a raw damage of 0 or below; for a non-negative
    raw damage it never returns more than the larger of 1 and the raw
    damage; and it is the plain formula [damage * 100 / (armor + 100)]
    whenever that is at least 1. *)
Theorem X23_calculateArmorReduction_bounds (damage armor : Q) :
  0 <= armor ->
  1 <= calculateArmorReduction damage armor
  /\ (0 <= damage -> calculateArmorReduction damage armor <= Math_max 1 damage)
  /\ (1 <= damage * (100 / (armor + 100)) ->
      calculateArmorReduction damage armor == damage * (100 / (armor + 100))).
Proof.
  intros Ha. unfold calculateArmorReduction.
  assert (Ef : damage * (1 - armor / (armor + 100)) == damage * (100 / (armor + 100)))
    by (now rewrite armor_factor).
  assert (Hf : 100 / (armor + 100) <= 1) by (apply Qle_shift_div_r; lra).
  assert (Hf0 : 0 <= 100 / (armor + 100)) by (apply Qle_shift_div_l; lra).
  rewrite !Math_max_spec. split; [apply Q.le_max_l|]. split.
  - intros Hd. apply Q.max_le_compat_l. rewrite Ef.
    generalize dependent (100 / (armor + 100)). intros f _ Hf Hf0. nra.
  - intros H1. rewrite Ef. now apply Q.max_r.
Qed.

Lemma X23_calculateArmorReduction_bounds_witness :
  0 <= 5 /\ 1 <= calculateArmorReduction 0 5.
Proof.
  assert (H : 0 <= 5) by discriminate.
  split; [exact H|].
  exact (proj1 (X23_calculateArmorReduction_bounds 0 5 H)).
Defined.

(** X24: [applyResistance] for a damage type that has an entry [v] in the
    resistance table.  An entry of 0 leaves the damage as it is.  For an
    entry between 0 and 1 a non-negative damage is scaled into the interval
    from 0 to the damage, and an entry of 1 cancels it.  An entry above 1
    turns a positive damage into a negative one: the helper does not
    clamp. *)
Theorem X24_applyResistance_scales (damage : Q) (damageType : DamageType)
    (table : Resistances) (v : Q) :
  resistanceOf damageType table = Some v ->
  (v == 0 -> applyResistance damage damageType (Some table) = damage)
  /\ (0 <= v -> v <= 1 -> 0 <= damage ->
      0 <= applyResistance damage damageType (Some table)
      /\ applyResistance damage damageType (Some table) <= damage)
  /\ (v == 1 -> applyResistance damage damageType (Some table) == 0)
  /\ (1 < v -> 0 < damage -> applyResistance damage damageType (Some table) < 0).
Proof.
  intros Hv. unfold applyResistance. rewrite Hv.
  destruct (Qeq_bool v 0) eqn:E.
  - apply Qeq_bool_iff in E. repeat split; intros; try lra.
  - apply Qeq_bool_neq in E. split; [intros H; now destruct E|].
    split; [|split].
    + intros H0 H1 Hd. split; nra.
    + intros H1. rewrite H1. ring.
    + intros H1 Hd. nra.
Qed.

Lemma X24_applyResistance_scales_witness :
  resistanceOf physical (mkResistances (Some 0.2) None None) = Some 0.2
  /\ applyResistance 25 physical (Some (mkResistances (Some 0.2) None None)) <= 25.
Proof.
  assert (H : resistanceOf physical (mkResistances (Some 0.2) None None) = Some 0.2)
    by reflexivity.
  split; [exact H|].
  destruct (X24_applyResistance_scales 25 physical _ 0.2 H) as (_ & Hb & _).
  apply Hb; discriminate.
Defined.

(** ** Wave composition *)

(** X25: the template of a wave.  Waves up to 3 are [early], waves 4 to 6
    are [mid] (wave 5 included: the boss rule is tested after), and beyond
    wave 6 a wave is [boss] exactly when its number is a multiple of 5,
    else [swarm] exactly when it is a multiple of 4, else [late] for wave 7
    alone and [mixed] for all others. *)
Theorem X25_wave_template_rule (n : Z) :
  (Wave.templateOf n = Wave.early <-> (n <= 3)%Z)
  /\ (Wave.templateOf n = Wave.mid <-> (4 <= n <= 6)%Z)
  /\ (Wave.templateOf n = Wave.boss <-> (6 < n)%Z /\ (n mod 5 = 0)%Z)
  /\ (Wave.templateOf n = Wave.swarm <->
        (6 < n)%Z /\ (n mod 5 <> 0)%Z /\ (n mod 4 = 0)%Z)
  /\ (Wave.templateOf n = Wave.late <-> n = 7%Z)
  /\ (Wave.templateOf n = Wave.mixed <->
        (8 < n)%Z /\ (n mod 5 <> 0)%Z /\ (n mod 4 <> 0)%Z).
Proof.
  unfold Wave.templateOf.
  destruct (Z.leb_spec n 3) as [H3|H3].
  { repeat split; intros; try discriminate; try lia. }
  destruct (Z.leb_spec n 6) as [H6|H6].
  { repeat split; intros; try discriminate; try lia. }
  rewrite !Z.rem_mod_nonneg by lia.
  destruct (Z.eqb_spec n 10) as [H10|H10]; cbn [orb];
    [|destruct (Z.eqb_spec (n mod 5) 0) as [H5|H5];
      [|destruct (Z.eqb_spec (n mod 4) 0) as [H4|H4];
        [|destruct (Z.leb_spec n 8) as [H8|H8]]]];
    repeat split; intros; try discriminate; try lia;
    first [ Z.div_mod_to_equations; lia | exfalso; Z.div_mod_to_equations; lia ].
Qed.

Lemma entryAt_bounds random enemyCount total index enemyType :
  (forall i, 0 <= random i /\ random i < 1) ->
  let e := Wave.entryAt random enemyCount total index enemyType in
  let base :=
    if (index =? total - 1)%nat then enemyCount
    else (enemyCount / Z.of_nat total)%Z in
  Wave.type e = enemyType
  /\ (1 <= Wave.count e)%Z
  /\ ((0 <= base)%Z -> (4 * base < 5 * Wave.count e + 5)%Z)
  /\ ((1 <= base)%Z -> (5 * Wave.count e < 6 * base)%Z)
  /\ 1 <= Wave.interval e /\ Wave.interval e < 3.
Proof.
  intros Hr e base. unfold e, Wave.entryAt. cbn [Wave.type Wave.count Wave.interval].
  rewrite <- Zdiv_Qdiv. fold base.
  destruct (Hr (2 * index)%nat) as [Ha Hb].
  destruct (Hr (2 * index + 1)%nat) as [Hc Hd].
  set (x := inject_Z base * (0.8 + random (2 * index)%nat * 0.4)).
  pose proof (Qfloor_le x) as Hlo. pose proof (Qlt_floor x) as Hhi.
  split; [reflexivity|]. split; [lia|].
  split; [|split; [|split; lra]].
  - intros Hbase. assert (Hq : 0 <= inject_Z base)
      by (rewrite Zle_Qle in Hbase; exact Hbase).
    assert (Hx0 : 0.8 * inject_Z base <= x) by (unfold x; nra).
    assert (Hx : inject_Z (4 * base) < inject_Z (5 * (Qfloor x + 1))).
    { rewrite !inject_Z_mult. rewrite inject_Z_plus in Hhi |- *.
      change (inject_Z 4) with 4. change (inject_Z 5) with 5.
      change (inject_Z 1) with 1 in *. lra. }
    rewrite <- Zlt_Qlt in Hx. lia.
  - intros Hbase. assert (Hq : 1 <= inject_Z base)
      by (rewrite Zle_Qle in Hbase; exact Hbase).
    assert (Hx0 : x < 1.2 * inject_Z base) by (unfold x; nra).
    assert (Hx : inject_Z (5 * Qfloor x) < inject_Z (6 * base)).
    { rewrite !inject_Z_mult.
      change (inject_Z 6) with 6. change (inject_Z 5) with 5. lra. }
    rewrite <- Zlt_Qlt in Hx. lia.
Qed.

Lemma entriesFrom_types random enemyCount total types : forall index,
  List.map Wave.type (Wave.entriesFrom random enemyCount total index types) = types.
Proof.
  induction types as [|t types IH]; intros index; simpl; [reflexivity|].
  now rewrite IH.
Qed.

Lemma entriesFrom_each random enemyCount total types :
  (forall i, 0 <= random i /\ random i < 1) ->
  forall index e,
    In e (Wave.entriesFrom random enemyCount total index types) ->
    (1 <= Wave.count e)%Z /\ 1 <= Wave.interval e /\ Wave.interval e <= 3.
Proof.
  intros Hr. induction types as [|t types IH]; intros index e; simpl; [tauto|].
  intros [<-|Hin]; [|now apply (IH (S index))].
  destruct (entryAt_bounds random enemyCount total index t Hr)
    as (_ & H1 & _ & _ & H2 & H3).
  split; [exact H1|]. split; [exact H2|]. now apply Qlt_le_weak.
Qed.

Lemma enemyCountOf_ge (waveNumber : Z) :
  (1 <= waveNumber)%Z ->
  (9 <= Wave.enemyCountOf waveNumber)%Z
  /\ (Wave.templateOf waveNumber = Wave.early
      \/ (14 <= Wave.enemyCountOf waveNumber)%Z).
Proof.
  intros Hn. unfold Wave.enemyCountOf. split.
  - change 9%Z with (Qfloor 9). apply Qfloor_resp_le.
    rewrite Zle_Qle in Hn. change (inject_Z 1) with 1 in Hn. lra.
  - unfold Wave.templateOf. destruct (Z.leb_spec waveNumber 3) as [H3|H3];
      [now left|right].
    change 14%Z with (Qfloor 14). apply Qfloor_resp_le.
    assert (H4 : (4 <= waveNumber)%Z) by lia.
    rewrite Zle_Qle in H4. change (inject_Z 4) with 4 in H4. lra.
Qed.

(** X26: the composition of a wave, for a wave number of at least 1 and
    random draws in [0, 1).  It has one entry per enemy type of the
    template, in the order of the template; every entry announces at least
    one enemy, with an interval between 1 and 3.  The last entry
    is computed from the whole [enemyCount] (the remaining count is never
    reduced), so the entries together always announce more enemies than
    [enemyCount]. *)
Theorem X26_wave_composition_exceeds_enemyCount (random : nat -> Q) (waveNumber : Z) :
  (1 <= waveNumber)%Z ->
  (forall i, 0 <= random i /\ random i < 1) ->
  let '(entries, t) := Wave.generateWaveComposition random waveNumber in
  t = Wave.templateOf waveNumber
  /\ List.map Wave.type entries = Wave.enemyTypes t
  /\ (forall e, In e entries ->
        (1 <= Wave.count e)%Z /\ 1 <= Wave.interval e /\ Wave.interval e <= 3)
  /\ (Wave.enemyCountOf waveNumber < Wave.totalCount entries)%Z.
Proof.
  intros Hn Hr. unfold Wave.generateWaveComposition.
  split; [reflexivity|]. split; [apply entriesFrom_types|].
  split; [apply entriesFrom_each, Hr|].
  destruct (enemyCountOf_ge waveNumber Hn) as [Hc Hc'].
  set (c := Wave.enemyCountOf waveNumber) in *. clearbody c.
  destruct (Wave.templateOf waveNumber);
    cbn [Wave.enemyTypes length Wave.entriesFrom Wave.totalCount fold_right];
    repeat match goal with
    | |- context [Wave.entryAt random c ?tot ?i ?ty] =>
        let H := fresh "H" in
        pose proof (entryAt_bounds random c tot i ty Hr) as H;
        cbv zeta in H; cbn [Nat.eqb Nat.sub] in H;
        destruct H as (_ & ? & ? & _);
        generalize dependent (Wave.count (Wave.entryAt random c tot i ty)); intros
    end;
    (destruct Hc' as [Hc'|Hc']; [try discriminate|]);
    Z.div_mod_to_equations; lia.
Qed.

Lemma X26_wave_composition_exceeds_enemyCount_witness :
  (Wave.enemyCountOf 1 <
   Wave.totalCount (fst (Wave.generateWaveComposition (fun _ => 0.5%Q) 1)))%Z.
Proof.
  assert (Hn : (1 <= 1)%Z) by lia.
  assert (Hr : forall i : nat, 0 <= (fun _ : nat => 0.5) i /\ (fun _ : nat => 0.5) i < 1)
    by (intros i; split; [discriminate|reflexivity]).
  pose proof (X26_wave_composition_exceeds_enemyCount (fun _ => 0.5) 1 Hn Hr) as H.
  destruct (Wave.generateWaveComposition (fun _ => 0.5) 1) as [entries t].
  exact (proj2 (proj2 (proj2 H))).
Defined.

(** ** The [damage_all] spell *)

Lemma damageEnemy_found pid enemyId damage w enemy :
  List.find (fun e => String.eqb (Enemy.id e) enemyId) (enemies (td w)) = Some enemy ->
  let newHealth := Math_max 0 (Enemy.health enemy - damage) in
  let w' := damageEnemy pid enemyId damage w in
  hitShots (td w') = hitShots (td w) + 1
  /\ totalShots (td w') = totalShots (td w)
  /\ (if Qle_bool newHealth 0 then
        enemies (td w')
          = List.filter (fun e => negb (String.eqb (Enemy.id e) enemyId)) (enemies (td w))
        /\ money (td w') = money (td w) + Enemy.reward enemy
        /\ score (td w') = score (td w) + Enemy.reward enemy
      else
        enemies (td w')
          = List.map (fun e => if String.eqb (Enemy.id e) enemyId
                               then setHealth newHealth e else e) (enemies (td w))
        /\ money (td w') = money (td w)
        /\ score (td w') = score (td w)).
Proof.
  intros Hf. unfold damageEnemy. rewrite Hf. cbv zeta.
  destruct (Qle_bool _ 0); unfold addParticleEffect, removeEnemy;
    destruct (acquire freshFactory _) as [o p]; now repeat split.
Qed.

Lemma find_app_skip {A} (p : A -> bool) (l1 l2 : list A) :
  (forall a, In a l1 -> p a = false) ->
  List.find p (l1 ++ l2) = List.find p l2.
Proof.
  induction l1 as [|a l1 IH]; intros H; simpl; [reflexivity|].
  rewrite (H a) by now left. apply IH. intros b Hb. apply H. now right.
Qed.

Lemma filter_negb_skip {A} (p : A -> bool) (l : list A) :
  (forall a, In a l -> p a = false) ->
  List.filter (fun a => negb (p a)) l = l.
Proof.
  induction l as [|a l IH]; intros H; simpl; [reflexivity|].
  rewrite (H a) by now left. simpl. f_equal. apply IH. intros b Hb. apply H. now right.
Qed.

Lemma map_if_skip {A} (p : A -> bool) (g : A -> A) (l : list A) :
  (forall a, In a l -> p a = false) ->
  List.map (fun a => if p a then g a else a) l = l.
Proof.
  induction l as [|a l IH]; intros H; simpl; [reflexivity|].
  rewrite (H a) by now left. f_equal. apply IH. intros b Hb. apply H. now right.
Qed.

Lemma id_not_among (x : Enemy.t) (enemyId : string) (l : list Enemy.t) :
  ~ In enemyId (List.map Enemy.id l) -> In x l ->
  String.eqb (Enemy.id x) enemyId = false.
Proof.
  intros Hn Hx. apply String.eqb_neq. intros E. apply Hn. rewrite <- E.
  now apply in_map.
Qed.

Lemma damageAll_blast env dmg : forall rest i seen w,
  enemies (td w) = seen ++ rest ->
  List.NoDup (List.map Enemy.id rest) ->
  (forall x, In x seen -> ~ In (Enemy.id x) (List.map Enemy.id rest)) ->
  let w' := damageAll env dmg i rest w in
  enemies (td w') = seen ++ blasted dmg rest
  /\ money (td w') == money (td w) + killedRewards dmg rest
  /\ score (td w') == score (td w) + killedRewards dmg rest
  /\ hitShots (td w') == hitShots (td w) + lengthQ rest
  /\ totalShots (td w') = totalShots (td w).
Proof.
  induction rest as [|e rest IH]; intros i seen w He Hnd Hseen; cbn [damageAll].
  { cbv zeta. unfold blasted, killedRewards, lengthQ. simpl.
    rewrite He. repeat split; ring. }
  inversion Hnd as [|? ? Hne Hnd']; subst.
  set (p := fun x => String.eqb (Enemy.id x) (Enemy.id e)).
  assert (Hps : forall x, In x seen -> p x = false).
  { intros x Hx. apply String.eqb_neq. intros E. apply (Hseen x Hx). now left. }
  assert (Hpr : forall x, In x rest -> p x = false)
    by (intros x Hx; now apply (id_not_among x (Enemy.id e) rest)).
  assert (Hpe : p e = true) by apply String.eqb_refl.
  assert (Hfind : List.find p (enemies (td w)) = Some e).
  { rewrite He, find_app_skip by exact Hps. simpl. now rewrite Hpe. }
  destruct (damageEnemy_found (spellParticleId env i) (Enemy.id e) dmg w e Hfind)
    as (Hh & Ht & Hcase).
  set (w1 := damageEnemy (spellParticleId env i) (Enemy.id e) dmg w) in *.
  clearbody w1. cbv zeta.
  unfold blasted, killedRewards. cbn [List.filter].
  destruct (Qle_bool (Math_max 0 (Enemy.health e - dmg)) 0) eqn:K; cbn [negb].
  - destruct Hcase as (Hen & Hm & Hs).
    assert (He1 : enemies (td w1) = seen ++ rest).
    { rewrite Hen, He, List.filter_app. cbn [List.filter].
      rewrite String.eqb_refl. cbn [negb].
      assert (Fs : List.filter (fun x => negb (String.eqb (Enemy.id x) (Enemy.id e))) seen
                   = seen) by exact (filter_negb_skip p seen Hps).
      assert (Fr : List.filter (fun x => negb (String.eqb (Enemy.id x) (Enemy.id e))) rest
                   = rest) by exact (filter_negb_skip p rest Hpr).
      now rewrite Fs, Fr. }
    destruct (IH (S i) seen w1 He1 Hnd') as (I1 & I2 & I3 & I4 & I5).
    { intros x Hx Hin. apply (Hseen x Hx). now right. }
    fold (blasted dmg rest). fold (killedRewards dmg rest) in *.
    cbn [fold_right]. fold (killedRewards dmg rest).
    split; [exact I1|]. rewrite I2, I3, I4, I5, Hm, Hs, Hh, Ht.
    rewrite lengthQ_cons. repeat split; ring.
  - destruct Hcase as (Hen & Hm & Hs).
    set (e' := setHealth (Math_max 0 (Enemy.health e - dmg)) e) in *.
    assert (He1 : enemies (td w1) = (seen ++ [e']) ++ rest).
    { rewrite Hen, He, List.map_app. cbn [List.map]. rewrite String.eqb_refl.
      assert (Ms : forall l, (forall x, In x l -> p x = false) ->
                List.map (fun x => if String.eqb (Enemy.id x) (Enemy.id e)
                                   then setHealth (Math_max 0 (Enemy.health e - dmg)) x
                                   else x) l = l)
        by (intros l Hl; exact (map_if_skip p _ l Hl)).
      rewrite (Ms seen Hps), (Ms rest Hpr). now rewrite <- List.app_assoc. }
    destruct (IH (S i) (seen ++ [e']) w1 He1 Hnd') as (I1 & I2 & I3 & I4 & I5).
    { intros x Hx Hin. apply in_app_or in Hx. destruct Hx as [Hx|[<-|[]]].
      - apply (Hseen x Hx). now right.
      - now apply Hne. }
    fold (blasted dmg rest) in *. fold (killedRewards dmg rest) in *.
    cbn [List.map]. fold e'.
    split; [now rewrite I1, <- List.app_assoc|].
    rewrite I2, I3, I4, I5, Hm, Hs, Hh, Ht.
    rewrite lengthQ_cons. repeat split; ring.
Qed.

(** X27: a spell card with the effect [damage_all], played on enemies
    whose ids are pairwise distinct, always succeeds.  Every enemy whose
    health is at most the damage of the card (50 when the card gives none,
    or gives 0) is removed and its reward is added to both the money and
    the score; every other enemy stays at its place in the list with its
    health lowered by that damage.  [hitShots] rises by one per enemy
    while [totalShots] stays as it is. *)
Theorem X27_damage_all_spell (env : PlayEnv) (card : Card.t) (w : World) :
  Card.effect card = Some "damage_all"%string ->
  List.NoDup (List.map Enemy.id (enemies (td w))) ->
  let dmg := or_default (statDamage card) 50 in
  let w' := snd (playSpellCard env card w) in
  fst (playSpellCard env card w) = true
  /\ enemies (td w') = blasted dmg (enemies (td w))
  /\ money (td w') == money (td w) + killedRewards dmg (enemies (td w))
  /\ score (td w') == score (td w) + killedRewards dmg (enemies (td w))
  /\ hitShots (td w') == hitShots (td w) + lengthQ (enemies (td w))
  /\ totalShots (td w') = totalShots (td w).
Proof.
  intros Heff Hnd. unfold playSpellCard. rewrite Heff. cbn [String.eqb Ascii.eqb Bool.eqb fst snd].
  split; [reflexivity|].
  apply (damageAll_blast env _ (enemies (td w)) 0%nat [] w);
    [reflexivity|exact Hnd|intros x []].
Qed.

Lemma X27_damage_all_spell_witness :
  enemies (td (snd (playSpellCard playEnv (damageSpell "s1") blastWorld)))
    = [setHealth 150 heavyEnemy; setHealth 50 almostThere]
  /\ money (td (snd (playSpellCard playEnv (damageSpell "s1") blastWorld))) == 115.
Proof.
  assert (Heff : Card.effect (damageSpell "s1") = Some "damage_all"%string) by reflexivity.
  assert (Hnd : List.NoDup (List.map Enemy.id (enemies (td blastWorld)))).
  { repeat constructor; simpl; intuition discriminate. }
  destruct (X27_damage_all_spell playEnv (damageSpell "s1") blastWorld Heff Hnd)
    as (_ & He & Hm & _).
  split; [rewrite He; reflexivity|rewrite Hm; reflexivity].
Defined.

(** ** Object pool: [clear] *)

Lemma runOp_built_after (c : nat) (op : PoolOp) (p : ObjectPool) :
  (c <= created p)%nat ->
  (forall obj, obj ∈ available p \/ obj ∈ inUse p -> (c < Pos.to_nat obj)%nat) ->
  (c <= created (runOp freshFactory p op))%nat
  /\ (forall obj,
        obj ∈ available (runOp freshFactory p op)
        \/ obj ∈ inUse (runOp freshFactory p op) -> (c < Pos.to_nat obj)%nat).
Proof.
  intros Hc Hall. destruct op as [|o]; cbn [runOp].
  - unfold acquire. destruct (pop (available p)) as [[obj rest]|] eqn:E;
      cbn [snd available inUse created].
    + apply pop_some in E. split; [exact Hc|]. intros x [Hx|Hx].
      * apply Hall. left. rewrite E. apply elem_of_app. now left.
      * apply elem_of_union in Hx. destruct Hx as [Hx|Hx]; [|apply Hall; now right].
        apply elem_of_singleton in Hx. subst x. apply Hall. left. rewrite E.
        apply elem_of_app. right. now apply list_elem_of_singleton.
    + split; [lia|]. intros x [Hx|Hx]; [apply Hall; now left|].
      apply elem_of_union in Hx. destruct Hx as [Hx|Hx]; [|apply Hall; now right].
      apply elem_of_singleton in Hx. subst x. unfold freshFactory.
      rewrite SuccNat2Pos.id_succ. lia.
  - unfold release. destruct (decide (o ∈ inUse p)) as [Hin|]; [|now split].
    destruct (_ <? _)%Z; cbn [available inUse created]; (split; [exact Hc|]);
      intros x [Hx|Hx].
    + apply elem_of_app in Hx. destruct Hx as [Hx|Hx]; [apply Hall; now left|].
      apply list_elem_of_singleton in Hx. subst x. apply Hall. now right.
    + apply elem_of_difference in Hx. apply Hall. right. tauto.
    + apply Hall. now left.
    + apply elem_of_difference in Hx. apply Hall. right. tauto.
Qed.

Lemma runOps_built_after (c : nat) (ops : list PoolOp) : forall p,
  (c <= created p)%nat ->
  (forall obj, obj ∈ available p \/ obj ∈ inUse p -> (c < Pos.to_nat obj)%nat) ->
  forall obj,
    obj ∈ available (runOps freshFactory ops p)
    \/ obj ∈ inUse (runOps freshFactory ops p) -> (c < Pos.to_nat obj)%nat.
Proof.
  unfold runOps. induction ops as [|op ops IH]; intros p Hc Hall; simpl; [exact Hall|].
  destruct (runOp_built_after c op p Hc Hall) as [Hc' Hall'].
  now apply IH.
Qed.

(** X28: [clear] forgets every object, also those that are on lease.
    Right after it the statistics report a total of 0, and the [release]
    of an object built before it is refused and changes nothing.  Whatever
    sequence of [acquire] and [release] calls follows, no object that the
    factory had built before the [clear] is ever free or in use in the
    pool again. *)
Theorem X28_clear_forgets_every_object (ops : list PoolOp) (p : ObjectPool) (obj : ref) :
  (Pos.to_nat obj <= created p)%nat ->
  stats_total (getStats (clear p)) = 0%nat
  /\ release obj (clear p) = clear p
  /\ (obj ∉ available (runOps freshFactory ops (clear p)))
  /\ (obj ∉ inUse (runOps freshFactory ops (clear p))).
Proof.
  intros Hold. split; [reflexivity|]. split.
  { unfold release. destruct (decide (obj ∈ inUse (clear p))) as [Hin|]; [|reflexivity].
    cbn [clear inUse] in Hin. now apply elem_of_empty in Hin. }
  assert (H : forall x,
    x ∈ available (runOps freshFactory ops (clear p))
    \/ x ∈ inUse (runOps freshFactory ops (clear p)) -> (created p < Pos.to_nat x)%nat).
  { apply runOps_built_after; cbn [clear created available inUse]; [lia|].
    intros x [Hx|Hx]; [now apply elem_of_nil in Hx|now apply elem_of_empty in Hx]. }
  split; intros Hin.
  - specialize (H obj (or_introl Hin)). lia.
  - specialize (H obj (or_intror Hin)). lia.
Qed.

Lemma X28_clear_forgets_every_object_witness :
  let p := runOps freshFactory [Acquire] (newPool freshFactory 100) in
  (10%positive ∈ inUse p)
  /\ (10%positive ∉ inUse (runOps freshFactory [Release 10%positive; Acquire] (clear p))).
Proof.
  intros p. split; [vm_compute; reflexivity|].
  assert (Hold : (Pos.to_nat 10 <= created p)%nat) by (vm_compute; lia).
  exact (proj2 (proj2 (proj2
    (X28_clear_forgets_every_object [Release 10%positive; Acquire] p 10%positive Hold)))).
Defined.
